(** * Trogiken/Projects: CacheLauncher configuration handler and NinjaRMM API client

    A shallow embedding of

    - [python/tools/CacheLauncher/source/config_handler.py]
      ([ConfigHandler._config_isvalid], [get_config], [save_config]),
    - [python/tools/NinjaAPI/ninja_api_auth.py]
      ([OAUTHResponse.is_expired], [NinjaRMMAPI.__init__], [_request_credentials],
      [_authenticate], [request], [refresh_documentation], [get_sorted_docs]),
    - [python/tools/CacheLauncher/main.py] (what [get_logger] and [main] read
      from the configuration) and [python/tools/NinjaAPI/main.py] (the script),

    together with the part of CPython's [json] package the configuration handler
    calls ([json.dump] with [indent=4] and [json.load]).

    Python values are an inductive type, exceptions are the [Raise] branch of a
    result type, the configuration file and the network are explicit state.

    Outside the model: the interpreter's limits (the recursion limit, the limit
    on the number of digits of an integer literal), the errors of the file
    system and of the text encoding, logging, and the rounding of binary
    floating point (a finite float is the decimal literal that denotes it, a
    time is a rational number of seconds). *)

From Stdlib Require Import ZArith List Bool String Ascii Lia QArith.
From Stdlib Require DecimalPos DecimalFacts.
Import ListNotations.
Local Open Scope Z_scope.

(* ================================================================== *)
(** * Python values *)
(* ================================================================== *)

Module Py.

(** A Python [str] is its sequence of code points. *)
Definition str := list Z.

(** The code points of an ASCII literal. *)
Definition lit (s : string) : str :=
  map (fun a => Z.of_N (N_of_ascii a)) (list_ascii_of_string s).

Fixpoint str_eqb (a b : str) : bool :=
  match a, b with
  | [], [] => true
  | x :: a', y :: b' => (x =? y) && str_eqb a' b'
  | _, _ => false
  end.

(** [s.startswith(prefix)] *)
Fixpoint startswith (s prefix : str) {struct prefix} : bool :=
  match prefix, s with
  | [], _ => true
  | p :: prefix', c :: s' => (p =? c) && startswith s' prefix'
  | _ :: _, [] => false
  end.

(** [sub in s] for two strings: substring test. *)
Fixpoint str_contains (s sub : str) : bool :=
  startswith s sub ||
  match s with
  | [] => false
  | _ :: s' => str_contains s' sub
  end.

(** A Python [float].  A finite float is carried as a decimal literal that
    denotes it (its [repr] for a value built by the program, the literal read
    for a value produced by [json.load]), and two finite floats are compared by
    their literals: equal literals denote equal floats, which is the direction
    the results below use. *)
Inductive pyfloat : Type :=
| FNaN
| FInf
| FNegInf
| FFinite (repr : str).

(** The values the two tools handle: the JSON-representable types, tuples, and a
    plain [object()] standing for a value of any other class (it is not iterable,
    not subscriptable and not JSON serializable).  A [dict] is the list of its
    items in insertion order. *)
#[local] Unset Elimination Schemes.
Inductive pyval : Type :=
| PNone
| PBool (b : bool)
| PInt (z : Z)
| PFloat (f : pyfloat)
| PStr (s : str)
| PList (l : list pyval)
| PTuple (l : list pyval)
| PDict (items : list (pyval * pyval))
| PObject.
#[local] Set Elimination Schemes.

(** Induction over values, with the hypothesis available for every element of a
    list or tuple and for every key and value of a dict. *)
Section PyvalInd.
Variable P : pyval -> Prop.
Hypothesis HNone : P PNone.
Hypothesis HBool : forall b, P (PBool b).
Hypothesis HInt : forall z, P (PInt z).
Hypothesis HFloat : forall f, P (PFloat f).
Hypothesis HStr : forall s, P (PStr s).
Hypothesis HList : forall l, Forall P l -> P (PList l).
Hypothesis HTuple : forall l, Forall P l -> P (PTuple l).
Hypothesis HDict :
  forall items, Forall (fun kv => P (fst kv) /\ P (snd kv)) items -> P (PDict items).
Hypothesis HObject : P PObject.

Fixpoint pyval_ind (v : pyval) : P v :=
  match v with
  | PNone => HNone
  | PBool b => HBool b
  | PInt z => HInt z
  | PFloat f => HFloat f
  | PStr s => HStr s
  | PList l =>
      HList l ((fix all (l : list pyval) : Forall P l :=
                  match l with
                  | [] => Forall_nil P
                  | x :: l' => Forall_cons x (pyval_ind x) (all l')
                  end) l)
  | PTuple l =>
      HTuple l ((fix all (l : list pyval) : Forall P l :=
                   match l with
                   | [] => Forall_nil P
                   | x :: l' => Forall_cons x (pyval_ind x) (all l')
                   end) l)
  | PDict items =>
      HDict items
        ((fix all (d : list (pyval * pyval))
            : Forall (fun kv => P (fst kv) /\ P (snd kv)) d :=
            match d with
            | [] => Forall_nil _
            | (k, v) :: d' =>
                Forall_cons (k, v) (conj (pyval_ind k) (pyval_ind v)) (all d')
            end) items)
  | PObject => HObject
  end.
End PyvalInd.

(** The exceptions raised by the modelled code.  Several are one Python class
    told apart by message; the comment gives the class. *)
Inductive exn : Type :=
| FileNotFoundError                    (* FileNotFoundError *)
| ConfigParseError                     (* ValueError("Error decoding JSON: ...") *)
| ConfigValidationError                (* ValueError("Configuration data is invalid.") *)
| ConfigSaveValidationError            (* ValueError("Cannot save invalid configuration data.") *)
| ConfigSerializationError             (* ValueError("Error saving JSON: ...") *)
| TypeError
| KeyError
| AttributeError
| JSONDecodeError                      (* json.JSONDecodeError, a ValueError *)
| MissingEnvironment (vars : list string) (* ValueError("The following environment variables are not set: ...") *)
| InvalidEnvironmentValue              (* ValueError("Invalid NINJA_ENVIRONMENT. ...") *)
| OverflowError
| HTTPError (status : Z)               (* requests.HTTPError from raise_for_status *)
| ConnectionError.                     (* requests.ConnectionError: no response *)

Inductive result (A : Type) : Type :=
| Ok (a : A)
| Raise (e : exn).
Arguments Ok {A} a.
Arguments Raise {A} e.

Definition bind {A B} (r : result A) (k : A -> result B) : result B :=
  match r with
  | Ok a => k a
  | Raise e => Raise e
  end.

Declare Scope py_scope.
Delimit Scope py_scope with py.
Notation "x <- r ;; k" := (bind r (fun x => k))
  (at level 61, r at next level, right associativity) : py_scope.

(** ** Equality of values ([==]) *)

(** [bool] is a subclass of [int]: [True == 1]. *)
Definition int_of_bool (b : bool) : Z := if b then 1 else 0.

Definition pyfloat_eqb (a b : pyfloat) : bool :=
  match a, b with
  | FInf, FInf | FNegInf, FNegInf => true
  | FFinite x, FFinite y => str_eqb x y
  | _, _ => false                                   (* nan != nan *)
  end.

(** [hash(v)] succeeds: lists and dicts are unhashable, a tuple is hashable when
    its elements are. *)
Fixpoint hashable (v : pyval) : bool :=
  match v with
  | PList _ | PDict _ => false
  | PTuple l => forallb hashable l
  | _ => true
  end.

(** [a == b] for two hashable values, as the dict lookup compares keys.
    [object()] instances are equal only to themselves; the model keeps no
    identity for them and treats two of them as different.  A float is equal
    to no [int] here: the keys of the dicts below are strings. *)
Fixpoint key_eqb (a b : pyval) {struct a} : bool :=
  match a, b with
  | PNone, PNone => true
  | PBool x, PBool y => Bool.eqb x y
  | PBool x, PInt y => int_of_bool x =? y
  | PInt x, PBool y => x =? int_of_bool y
  | PInt x, PInt y => x =? y
  | PFloat x, PFloat y => pyfloat_eqb x y
  | PStr x, PStr y => str_eqb x y
  | PTuple x, PTuple y =>
      (fix all2 (l m : list pyval) : bool :=
         match l, m with
         | [], [] => true
         | u :: l', w :: m' => key_eqb u w && all2 l' m'
         | _, _ => false
         end) x y
  | _, _ => false
  end.

(** ** Dict operations *)

Definition dict := list (pyval * pyval).

(** [d[k]] on the items of a dict: the value of the first item whose key equals
    [k]. *)
Fixpoint dict_lookup (d : dict) (k : pyval) : option pyval :=
  match d with
  | [] => None
  | (k', v) :: d' => if key_eqb k' k then Some v else dict_lookup d' k
  end.

(** [d[k] = v]: an existing key keeps its place (and its key object), a new one
    goes last. *)
Fixpoint dict_set (d : dict) (k v : pyval) : dict :=
  match d with
  | [] => [(k, v)]
  | (k', v') :: d' =>
      if key_eqb k' k then (k', v) :: d' else (k', v') :: dict_set d' k v
  end.

(** [dict(pairs)]. *)
Definition dict_of_pairs (pairs : list (pyval * pyval)) : dict :=
  fold_left (fun d kv => dict_set d (fst kv) (snd kv)) pairs [].

Definition keys (d : dict) : list pyval := map fst d.

(** ** The operations on values the two tools use *)

Local Open Scope py_scope.

(** [key in container] for a [str] key. *)
Definition py_contains (container : pyval) (key : str) : result bool :=
  match container with
  | PDict d =>
      Ok match dict_lookup d (PStr key) with Some _ => true | None => false end
  | PList l | PTuple l => Ok (existsb (key_eqb (PStr key)) l)
  | PStr s => Ok (str_contains s key)
  | PNone | PBool _ | PInt _ | PFloat _ | PObject => Raise TypeError
  end.

(** [container[key]] for a [str] key: a dict is looked up; a [str] is no index
    of a list, tuple or string, and the other values are not subscriptable. *)
Definition py_getitem (container : pyval) (key : str) : result pyval :=
  match container with
  | PDict d =>
      match dict_lookup d (PStr key) with
      | Some v => Ok v
      | None => Raise KeyError
      end
  | PList _ | PTuple _ | PStr _
  | PNone | PBool _ | PInt _ | PFloat _ | PObject => Raise TypeError
  end.

(** [container.get(key, default)]: only a dict has the method. *)
Definition py_get (container : pyval) (key : str) (default : pyval) : result pyval :=
  match container with
  | PDict d =>
      Ok match dict_lookup d (PStr key) with Some v => v | None => default end
  | _ => Raise AttributeError
  end.

(** [container.items()]. *)
Definition py_items (container : pyval) : result (list (pyval * pyval)) :=
  match container with
  | PDict d => Ok d
  | _ => Raise AttributeError
  end.

(** [for x in container]: the elements of a list or tuple, the keys of a dict,
    the one-character strings of a string. *)
Definition py_iter (container : pyval) : result (list pyval) :=
  match container with
  | PList l | PTuple l => Ok l
  | PDict d => Ok (keys d)
  | PStr s => Ok (map (fun c => PStr [c]) s)
  | PNone | PBool _ | PInt _ | PFloat _ | PObject => Raise TypeError
  end.

Inductive pytype : Type := Tstr | Tdict | Tbool.

Definition isinstance (v : pyval) (t : pytype) : bool :=
  match t, v with
  | Tstr, PStr _ => true
  | Tdict, PDict _ => true
  | Tbool, PBool _ => true
  | _, _ => false
  end.

End Py.

(* ================================================================== *)
(** * The [json] package: [json.dump(obj, fp, indent=4)] and [json.load(fp)] *)
(* ================================================================== *)

Module Json.
Import Py.

(** ** Encoder ([json/encoder.py]) *)

(** One lowercase hexadecimal digit. *)
Definition hex_digit (d : Z) : Z := if d <? 10 then 48 + d else 87 + d.

(** ['\\u{0:04x}'.format(n)] *)
Definition u_escape (n : Z) : str :=
  [92; 117; hex_digit (Z.shiftr n 12 mod 16); hex_digit (Z.shiftr n 8 mod 16);
   hex_digit (Z.shiftr n 4 mod 16); hex_digit (n mod 16)].

(** The replacement [py_encode_basestring_ascii] makes for one character:
    [ESCAPE_ASCII] matches a backslash, a double quote and everything outside
    [' '..'~']; [ESCAPE_DCT] has the short escapes, the rest is [\uXXXX], as a
    surrogate pair above the basic plane. *)
Definition escape_char (c : Z) : str :=
  if c =? 92 then [92; 92]
  else if c =? 34 then [92; 34]
  else if (32 <=? c) && (c <=? 126) then [c]
  else if c =? 8 then [92; 98]
  else if c =? 12 then [92; 102]
  else if c =? 10 then [92; 110]
  else if c =? 13 then [92; 114]
  else if c =? 9 then [92; 116]
  else if c <? 65536 then u_escape c
  else
    let n := c - 65536 in
    let s1 := Z.lor 55296 (Z.land (Z.shiftr n 10) 1023) in
    let s2 := Z.lor 56320 (Z.land n 1023) in
    u_escape s1 ++ u_escape s2.

Definition encode_basestring_ascii (s : str) : str :=
  [34] ++ flat_map escape_char s ++ [34].

(** The decimal digits of a [Decimal.uint], most significant first. *)
Fixpoint uint_digits (u : Decimal.uint) : str :=
  match u with
  | Decimal.Nil => []
  | Decimal.D0 u' => 48 :: uint_digits u'
  | Decimal.D1 u' => 49 :: uint_digits u'
  | Decimal.D2 u' => 50 :: uint_digits u'
  | Decimal.D3 u' => 51 :: uint_digits u'
  | Decimal.D4 u' => 52 :: uint_digits u'
  | Decimal.D5 u' => 53 :: uint_digits u'
  | Decimal.D6 u' => 54 :: uint_digits u'
  | Decimal.D7 u' => 55 :: uint_digits u'
  | Decimal.D8 u' => 56 :: uint_digits u'
  | Decimal.D9 u' => 57 :: uint_digits u'
  end.

(** [int.__repr__] *)
Definition intstr (z : Z) : str :=
  match z with
  | Z0 => [48]
  | Zpos p => uint_digits (Pos.to_uint p)
  | Zneg p => 45 :: uint_digits (Pos.to_uint p)
  end.

(** [floatstr] with [allow_nan=True]. *)
Definition floatstr (f : pyfloat) : str :=
  match f with
  | FNaN => lit "NaN"
  | FInf => lit "Infinity"
  | FNegInf => lit "-Infinity"
  | FFinite repr => repr
  end.

(** What [json.dump] has written to the file so far, and the exception that
    stopped it, if any: the chunks the generator [_iterencode] yields are written
    one by one, so the text yielded before a [raise] is in the file. *)
Definition emit := (str * option exn)%type.

Definition yield (s : str) : emit := (s, None).
Definition throw (e : exn) : emit := ([], Some e).
Definition seq (a b : emit) : emit :=
  match a with
  | (out, None) => (out ++ fst b, snd b)
  | (out, Some e) => (out, Some e)
  end.
Infix ";;;" := seq (at level 62, right associativity).

(** ['\n' + _indent * _current_indent_level] with [_indent = ' ' * 4]. *)
Definition newline_indent (level : nat) : str := 10 :: repeat 32 (4 * level).

(** A dict key as [_iterencode_dict] converts it; [None] is the [TypeError]
    "keys must be str, int, float, bool or None". *)
Definition key_text (k : pyval) : option str :=
  match k with
  | PStr s => Some s
  | PFloat f => Some (floatstr f)
  | PBool true => Some (lit "true")
  | PBool false => Some (lit "false")
  | PNone => Some (lit "null")
  | PInt z => Some (intstr z)
  | PList _ | PTuple _ | PDict _ | PObject => None
  end.

(** The loops of [_iterencode_list] and [_iterencode_dict] of
    [_make_iterencode] for [indent=4] (so [item_separator = ','] and
    [key_separator = ': ']), with no [skipkeys] and no [sort_keys].
    [iterencode] is the encoder of the elements, one level deeper, and
    [separator] is [item_separator + newline_indent]. *)
Section Loops.
Variable iterencode : pyval -> emit.
Variable separator : str.

(** [for value in lst: ...] *)
Fixpoint list_items (lst : list pyval) (first : bool) {struct lst} : emit :=
  match lst with
  | [] => yield []
  | value :: lst' =>
      (if first then yield [] else yield separator) ;;;
      iterencode value ;;;
      list_items lst' false
  end.

(** [for key, value in items: ...]: the key is converted (or rejected) before
    the separator is written. *)
Fixpoint dict_items (items : list (pyval * pyval)) (first : bool) {struct items}
  : emit :=
  match items with
  | [] => yield []
  | (key, value) :: items' =>
      match key_text key with
      | None => throw TypeError
      | Some k =>
          (if first then yield [] else yield separator) ;;;
          yield (encode_basestring_ascii k) ;;;
          yield (lit ": ") ;;;
          iterencode value ;;;
          dict_items items' false
      end
  end.
End Loops.

Definition _iterencode_list (iterencode : pyval -> emit) (level : nat)
  (lst : list pyval) : emit :=
  match lst with
  | [] => yield (lit "[]")
  | _ :: _ =>
      yield [91] ;;; yield (newline_indent (S level)) ;;;
      list_items iterencode (44 :: newline_indent (S level)) lst true ;;;
      yield (newline_indent level) ;;; yield [93]
  end.

Definition _iterencode_dict (iterencode : pyval -> emit) (level : nat)
  (dct : list (pyval * pyval)) : emit :=
  match dct with
  | [] => yield (lit "{}")
  | _ :: _ =>
      yield [123] ;;; yield (newline_indent (S level)) ;;;
      dict_items iterencode (44 :: newline_indent (S level)) dct true ;;;
      yield (newline_indent level) ;;; yield [125]
  end.

(** [_iterencode] with [ensure_ascii], [allow_nan] and no [default] hook: a
    value of any other class makes [JSONEncoder.default] raise [TypeError]. *)
Fixpoint _iterencode (o : pyval) (level : nat) {struct o} : emit :=
  match o with
  | PStr s => yield (encode_basestring_ascii s)
  | PNone => yield (lit "null")
  | PBool true => yield (lit "true")
  | PBool false => yield (lit "false")
  | PInt z => yield (intstr z)
  | PFloat f => yield (floatstr f)
  | PList lst => _iterencode_list (fun value => _iterencode value (S level)) level lst
  | PTuple lst => _iterencode_list (fun value => _iterencode value (S level)) level lst
  | PDict dct => _iterencode_dict (fun value => _iterencode value (S level)) level dct
  | PObject => throw TypeError
  end.

(** [json.dump(obj, fp, indent=4)]: the text written to [fp] and the exception
    raised, if any. *)
Definition dump (obj : pyval) : emit := _iterencode obj 0.

(** ** Decoder ([json/decoder.py], [json/scanner.py]) *)

(** The outcome of scanning a prefix of the input: a value and the input left,
    a [JSONDecodeError] (or the [StopIteration] the callers turn into one), or
    the recursion budget of the model exhausted. *)
Inductive parse (A : Type) : Type :=
| Parsed (a : A) (rest : str)
| Failed
| OutOfFuel.
Arguments Parsed {A} a rest.
Arguments Failed {A}.
Arguments OutOfFuel {A}.

Definition parse_map {A B} (f : A -> B) (r : parse A) : parse B :=
  match r with
  | Parsed a rest => Parsed (f a) rest
  | Failed => Failed
  | OutOfFuel => OutOfFuel
  end.

(** [WHITESPACE_STR = ' \t\n\r'] *)
Definition is_ws (c : Z) : bool :=
  (c =? 32) || (c =? 9) || (c =? 10) || (c =? 13).

(** [_w(s, end).end()]: skip the whitespace at the front. *)
Fixpoint skip_ws (s : str) : str :=
  match s with
  | c :: s' => if is_ws c then skip_ws s' else s
  | [] => []
  end.

Definition is_digit (c : Z) : bool := (48 <=? c) && (c <=? 57).

(** The value of a hexadecimal digit. *)
Definition hex_value (c : Z) : option Z :=
  if is_digit c then Some (c - 48)
  else if (97 <=? c) && (c <=? 102) then Some (c - 87)
  else if (65 <=? c) && (c <=? 70) then Some (c - 55)
  else None.

(** [_decode_uXXXX]: four hexadecimal digits. *)
Definition decode_uXXXX (h1 h2 h3 h4 : Z) : option Z :=
  match hex_value h1, hex_value h2, hex_value h3, hex_value h4 with
  | Some a, Some b, Some c, Some d => Some (((a * 16 + b) * 16 + c) * 16 + d)
  | _, _, _, _ => None
  end.

(** [BACKSLASH]: the one-character escapes. *)
Definition backslash (esc : Z) : option Z :=
  if esc =? 34 then Some 34
  else if esc =? 92 then Some 92
  else if esc =? 47 then Some 47
  else if esc =? 98 then Some 8
  else if esc =? 102 then Some 12
  else if esc =? 110 then Some 10
  else if esc =? 114 then Some 13
  else if esc =? 116 then Some 9
  else None.

Definition append_char (c : Z) (r : parse str) : parse str :=
  parse_map (cons c) r.

(** [scanstring(s, end, strict=True)], [s] starting after the opening quote:
    the decoded string and the input after the closing quote.  A [\uXXXX] high
    surrogate directly followed by a [\uXXXX] low surrogate is one character. *)
Fixpoint scanstring (s : str) : parse str :=
  match s with
  | [] => Failed                                  (* unterminated string *)
  | c :: s1 =>
      if c =? 34 then Parsed [] s1
      else if (0 <=? c) && (c <? 32) then Failed  (* invalid control character *)
      else if c =? 92 then
        match s1 with
        | [] => Failed
        | esc :: s2 =>
            if esc =? 117 then
              match s2 with
              | h1 :: h2 :: h3 :: h4 :: s6 =>
                  match decode_uXXXX h1 h2 h3 h4 with
                  | None => Failed
                  | Some uni =>
                      if (55296 <=? uni) && (uni <=? 56319) then
                        match s6 with
                        | b :: u :: s8 =>
                            if (b =? 92) && (u =? 117) then
                              match s8 with
                              | g1 :: g2 :: g3 :: g4 :: s12 =>
                                  match decode_uXXXX g1 g2 g3 g4 with
                                  | None => Failed
                                  | Some uni2 =>
                                      if (56320 <=? uni2) && (uni2 <=? 57343) then
                                        append_char
                                          (65536 + Z.lor (Z.shiftl (uni - 55296) 10)
                                                         (uni2 - 56320))
                                          (scanstring s12)
                                      else append_char uni (scanstring s6)
                                  end
                              | _ => Failed
                              end
                            else append_char uni (scanstring s6)
                        | _ => append_char uni (scanstring s6)
                        end
                      else append_char uni (scanstring s6)
                  end
              | _ => Failed
              end
            else
              match backslash esc with
              | Some char => append_char char (scanstring s2)
              | None => Failed
              end
        end
      else append_char c (scanstring s1)
  end.

(** The longest prefix of decimal digits, and the rest. *)
Fixpoint span_digits (s : str) : str * str :=
  match s with
  | c :: s' =>
      if is_digit c then let (ds, rest) := span_digits s' in (c :: ds, rest)
      else ([], s)
  | [] => ([], [])
  end.

(** [int(digits)] for a string of decimal digits. *)
Definition int_of_digits (ds : str) : Z :=
  fold_left (fun acc d => acc * 10 + (d - 48)) ds 0.

(** The integer part of [NUMBER_RE], an optional minus sign and then either a
    single zero or a nonzero digit and more digits: sign, digits, rest. *)
Definition match_integer (s : str) : option (bool * str * str) :=
  let (neg, s1) :=
    match s with
    | c :: s' => if c =? 45 then (true, s') else (false, s)
    | [] => (false, s)
    end in
  match s1 with
  | c :: s2 =>
      if c =? 48 then Some (neg, [48], s2)
      else if is_digit c then
        let (ds, rest) := span_digits s2 in Some (neg, c :: ds, rest)
      else None
  | [] => None
  end.

(** The optional fraction of [NUMBER_RE]: a point and at least one digit. *)
Definition match_frac (s : str) : str * str :=
  match s with
  | c :: s1 =>
      if c =? 46 then
        match span_digits s1 with
        | ([], _) => ([], s)
        | (ds, rest) => (46 :: ds, rest)
        end
      else ([], s)
  | [] => ([], s)
  end.

(** The optional exponent of [NUMBER_RE]: [e] or [E], an optional sign and at
    least one digit. *)
Definition match_exp (s : str) : str * str :=
  match s with
  | e :: s1 =>
      if (e =? 101) || (e =? 69) then
        let (sign, s2) :=
          match s1 with
          | c :: s' => if (c =? 45) || (c =? 43) then ([c], s') else ([], s1)
          | [] => ([], s1)
          end in
        match span_digits s2 with
        | ([], _) => ([], s)
        | (ds, rest) => (e :: sign ++ ds, rest)
        end
      else ([], s)
  | [] => ([], s)
  end.

(** [match_number] and the conversion that follows it in [_scan_once]:
    [parse_int] without fraction and exponent, [parse_float] of the whole
    literal otherwise. *)
Definition match_number (s : str) : option (pyval * str) :=
  match match_integer s with
  | None => None
  | Some (neg, ds, s1) =>
      let (frac, s2) := match_frac s1 in
      let (exp, s3) := match_exp s2 in
      let integer := if neg then 45 :: ds else ds in
      match frac, exp with
      | [], [] =>
          Some (PInt (if neg then - int_of_digits ds else int_of_digits ds), s3)
      | _, _ => Some (PFloat (FFinite (integer ++ frac ++ exp)), s3)
      end
  end.

(** [_scan_once], [JSONObject] and [JSONArray].  [fuel] bounds the depth of the
    calls; [object_items] starts after the opening quote of a key and
    [array_items] at a value. *)
Fixpoint scan_once (fuel : nat) (s : str) {struct fuel} : parse pyval :=
  match fuel with
  | O => OutOfFuel
  | S fuel' =>
      match s with
      | [] => Failed
      | nextchar :: s' =>
          if nextchar =? 34 then parse_map PStr (scanstring s')
          else if nextchar =? 123 then
            match skip_ws s' with
            | c :: s1 =>
                if c =? 125 then Parsed (PDict []) s1
                else if c =? 34 then
                  parse_map (fun pairs => PDict (dict_of_pairs pairs))
                            (object_items fuel' s1)
                else Failed
            | [] => Failed
            end
          else if nextchar =? 91 then
            match skip_ws s' with
            | c :: s1 =>
                if c =? 93 then Parsed (PList []) s1
                else parse_map PList (array_items fuel' (c :: s1))
            | [] => Failed
            end
          else if startswith s (lit "null") then Parsed PNone (skipn 4 s)
          else if startswith s (lit "true") then Parsed (PBool true) (skipn 4 s)
          else if startswith s (lit "false") then Parsed (PBool false) (skipn 5 s)
          else
            match match_number s with
            | Some (res, rest) => Parsed res rest
            | None =>
                if startswith s (lit "NaN") then Parsed (PFloat FNaN) (skipn 3 s)
                else if startswith s (lit "Infinity") then
                  Parsed (PFloat FInf) (skipn 8 s)
                else if startswith s (lit "-Infinity") then
                  Parsed (PFloat FNegInf) (skipn 9 s)
                else Failed
            end
      end
  end

with object_items (fuel : nat) (s : str) {struct fuel}
  : parse (list (pyval * pyval)) :=
  match fuel with
  | O => OutOfFuel
  | S fuel' =>
      match scanstring s with
      | Parsed key s1 =>
          match skip_ws s1 with
          | colon :: s2 =>
              if colon =? 58 then
                match scan_once fuel' (skip_ws s2) with
                | Parsed value s3 =>
                    match skip_ws s3 with
                    | c :: s4 =>
                        if c =? 125 then Parsed [(PStr key, value)] s4
                        else if c =? 44 then
                          match skip_ws s4 with
                          | q :: s5 =>
                              if q =? 34 then
                                parse_map (cons (PStr key, value))
                                          (object_items fuel' s5)
                              else Failed
                          | [] => Failed
                          end
                        else Failed
                    | [] => Failed
                    end
                | Failed => Failed
                | OutOfFuel => OutOfFuel
                end
              else Failed
          | [] => Failed
          end
      | Failed => Failed
      | OutOfFuel => OutOfFuel
      end
  end

with array_items (fuel : nat) (s : str) {struct fuel} : parse (list pyval) :=
  match fuel with
  | O => OutOfFuel
  | S fuel' =>
      match scan_once fuel' s with
      | Parsed value s1 =>
          match skip_ws s1 with
          | c :: s2 =>
              if c =? 93 then Parsed [value] s2
              else if c =? 44 then
                parse_map (cons value) (array_items fuel' (skip_ws s2))
              else Failed
          | [] => Failed
          end
      | Failed => Failed
      | OutOfFuel => OutOfFuel
      end
  end.

(** [json.loads(s)]: no byte order mark, one value between optional
    whitespace, nothing after it.  Every failure is a [JSONDecodeError].  The
    recursion budget is more than the scanner can use on [s]
    ([JsonFacts.loads_budget]). *)
Definition loads (s : str) : result pyval :=
  if startswith s [65279] then Raise JSONDecodeError
  else
    match scan_once (S (2 * List.length s)) (skip_ws s) with
    | Parsed obj rest =>
        match skip_ws rest with
        | [] => Ok obj
        | _ :: _ => Raise JSONDecodeError           (* extra data *)
        end
    | Failed | OutOfFuel => Raise JSONDecodeError
    end.

End Json.

(* ================================================================== *)
(** * CacheLauncher: [source/config_handler.py] *)
(* ================================================================== *)

Module ConfigHandler.
Import Py.
Local Open Scope py_scope.

(** The file at [config_path]: its text, if it exists, and the modes in which it
    has been opened so far. *)
Inductive mode : Type := ModeR | ModeW.

Record filesystem : Type := {
  file : option str;
  opens : list mode
}.

(** [open(self.config_path, m)]: mode ['w'] creates or truncates the file. *)
Definition open_file (fs : filesystem) (m : mode) : filesystem :=
  {| file := match m with ModeR => file fs | ModeW => Some [] end;
     opens := opens fs ++ [m] |}.

(** [config_file.write(chunk)] for all the chunks [json.dump] yields. *)
Definition write_file (fs : filesystem) (text : str) : filesystem :=
  {| file := Some (match file fs with Some old => old ++ text | None => text end);
     opens := opens fs |}.

(** One of the four loops of [_config_isvalid]:
    [for key, expected_type in keys:
       if key not in container or not isinstance(container[key], expected_type):
         return False]
    [Ok true] when the loop runs to its end. *)
Fixpoint check_keys (container : pyval) (keys : list (str * pytype)) : result bool :=
  match keys with
  | [] => Ok true
  | (key, expected_type) :: keys' =>
      present <- py_contains container key ;;
      if negb present then Ok false
      else
        value <- py_getitem container key ;;
        if negb (isinstance value expected_type) then Ok false
        else check_keys container keys'
  end.

Definition required_keys : list (str * pytype) :=
  [(lit "appName", Tstr); (lit "version", Tstr); (lit "settings", Tdict);
   (lit "paths", Tdict)].
Definition settings_keys : list (str * pytype) :=
  [(lit "ui", Tdict); (lit "logLevel", Tstr)].
Definition ui_keys : list (str * pytype) :=
  [(lit "gui", Tbool); (lit "theme", Tstr)].
Definition paths_keys : list (str * pytype) :=
  [(lit "cacheDirectory", Tstr); (lit "logFile", Tstr)].

(** [ConfigHandler._config_isvalid] *)
Definition _config_isvalid (config_data : pyval) : result bool :=
  top <- check_keys config_data required_keys ;;
  if negb top then Ok false
  else
    settings <- py_get config_data (lit "settings") (PDict []) ;;
    in_settings <- check_keys settings settings_keys ;;
    if negb in_settings then Ok false
    else
      ui <- py_get settings (lit "ui") (PDict []) ;;
      in_ui <- check_keys ui ui_keys ;;
      if negb in_ui then Ok false
      else
        paths <- py_get config_data (lit "paths") (PDict []) ;;
        in_paths <- check_keys paths paths_keys ;;
        if negb in_paths then Ok false
        else Ok true.

(** [try: body except cls as e: raise ValueError(...) from e] *)
Definition except {A} (body : result A) (caught : exn) (raised : exn) : result A :=
  match body with
  | Ok a => Ok a
  | Raise e =>
      match e, caught with
      | JSONDecodeError, JSONDecodeError => Raise raised
      | TypeError, TypeError => Raise raised
      | _, _ => Raise e
      end
  end.

(** [ConfigHandler.get_config] *)
Definition get_config (fs : filesystem) : result pyval * filesystem :=
  match file fs with
  | None => (Raise FileNotFoundError, fs)
  | Some content =>
      let fs := open_file fs ModeR in
      (except
         (config_data <- Json.loads content ;;
          valid <- _config_isvalid config_data ;;
          if negb valid then Raise ConfigValidationError
          else Ok config_data)
         JSONDecodeError ConfigParseError,
       fs)
  end.

(** [ConfigHandler.save_config] *)
Definition save_config (fs : filesystem) (config_data : pyval)
  : result unit * filesystem :=
  match _config_isvalid config_data with
  | Raise e => (Raise e, fs)
  | Ok false => (Raise ConfigSaveValidationError, fs)
  | Ok true =>
      let fs := open_file fs ModeW in
      let (text, stopped) := Json.dump config_data in
      let fs := write_file fs text in
      (except
         match stopped with
         | None => Ok tt
         | Some e => Raise e
         end
         TypeError ConfigSerializationError,
       fs)
  end.

End ConfigHandler.

(* ================================================================== *)
(** * CacheLauncher: what [main.py] reads from the configuration *)
(* ================================================================== *)

Module CacheLauncher.
Import Py.
Local Open Scope py_scope.

(** [s.upper()] on ASCII letters; the case mapping of the other characters is
    not modelled, and no result below depends on which function this is. *)
Definition str_upper (s : str) : str :=
  map (fun c => if (97 <=? c) && (c <=? 122) then c - 32 else c) s.

(** [v.upper()]: a method of [str]. *)
Definition py_upper (v : pyval) : result str :=
  match v with
  | PStr s => Ok (str_upper s)
  | _ => Raise AttributeError
  end.

(** [get_logger]: [log_file = config["paths"]["logFile"]] *)
Definition log_file (config : pyval) : result pyval :=
  paths <- py_getitem config (lit "paths") ;;
  py_getitem paths (lit "logFile").

(** [get_logger]: [log_level = config["settings"]["logLevel"].upper()] *)
Definition log_level (config : pyval) : result str :=
  settings <- py_getitem config (lit "settings") ;;
  level <- py_getitem settings (lit "logLevel") ;;
  py_upper level.

(** [main]: the four fields it prints, [config['appName']],
    [config['version']], [config['settings']] and [config['paths']]. *)
Definition banner (config : pyval) : result (pyval * pyval * pyval * pyval) :=
  appName <- py_getitem config (lit "appName") ;;
  version <- py_getitem config (lit "version") ;;
  settings <- py_getitem config (lit "settings") ;;
  paths <- py_getitem config (lit "paths") ;;
  Ok (appName, version, settings, paths).

End CacheLauncher.

(* ================================================================== *)
(** * NinjaAPI: [ninja_api_auth.py] *)
(* ================================================================== *)

Module NinjaAPI.
Import Py.
Local Open Scope py_scope.

(** ** [OAUTHResponse] *)

(** Times are exact rationals, in seconds: the rounding of binary floating
    point is not modelled. *)
Definition time := Q.

(** The dataclass checks no field type: a field holds whatever the token
    endpoint sent. *)
Record OAUTHResponse : Type := {
  access_token : pyval;
  token_type : pyval;
  expires_in : pyval;
  scope : pyval;
  obtained_at : time                (* [field(default_factory=time.time)] *)
}.

(** A float that is the sum of [obtained_at] and a number. *)
Inductive instant : Type :=
| Finite (t : Q)
| PlusInfinity
| MinusInfinity
| NotANumber.

(** The value of a decimal literal: integer part, fraction, power of ten. *)
Definition literal_value (repr : str) : Q :=
  match Json.match_integer repr with
  | None => 0
  | Some (neg, ds, s1) =>
      let (frac, s2) := Json.match_frac s1 in
      let (exp, _) := Json.match_exp s2 in
      let fraction := tl frac in
      let exponent :=
        match tl exp with
        | c :: ds' =>
            if c =? 45 then - Json.int_of_digits ds'
            else if c =? 43 then Json.int_of_digits ds'
            else Json.int_of_digits (c :: ds')
        | [] => 0%Z
        end in
      let mantissa :=
        (inject_Z (Json.int_of_digits (ds ++ fraction))
         / inject_Z (10 ^ Z.of_nat (List.length fraction)))%Q in
      let magnitude :=
        (if 0 <=? exponent then mantissa * inject_Z (10 ^ exponent)
         else mantissa / inject_Z (10 ^ (- exponent)))%Q in
      if neg then (- magnitude)%Q else magnitude
  end.

(** The integers that convert to [float]: those that round to a finite double.
    The others are an [OverflowError], "int too large to convert to float". *)
Definition converts_to_float (z : Z) : bool := Z.abs z <? 2 ^ 1024 - 2 ^ 970.

(** [self.obtained_at + self.expires_in]: a float plus an [int], [bool] or
    [float]; anything else is a [TypeError]. *)
Definition expiry (o : OAUTHResponse) : result instant :=
  match expires_in o with
  | PInt z =>
      if converts_to_float z then Ok (Finite (obtained_at o + inject_Z z))
      else Raise OverflowError
  | PBool b => Ok (Finite (obtained_at o + inject_Z (int_of_bool b)))
  | PFloat (FFinite repr) => Ok (Finite (obtained_at o + literal_value repr))
  | PFloat FInf => Ok PlusInfinity
  | PFloat FNegInf => Ok MinusInfinity
  | PFloat FNaN => Ok NotANumber
  | PNone | PStr _ | PList _ | PTuple _ | PDict _ | PObject => Raise TypeError
  end.

Definition Qlt_bool (a b : Q) : bool := negb (Qle_bool b a).

(** [OAUTHResponse.is_expired], with [now] the value of [time.time()]. *)
Definition is_expired (now : time) (o : OAUTHResponse) : result bool :=
  deadline <- expiry o ;;
  Ok match deadline with
     | Finite t => Qlt_bool t now
     | MinusInfinity => true
     | PlusInfinity | NotANumber => false
     end.

(** ** The world of the client: environment, clock, network, objects *)

Inductive verb : Type := GET | POST | PUT | DELETE | PATCH.

(** [**kwargs] of [request]: the timeout, if given, and the rest. *)
Record options : Type := {
  timeout : option pyval;
  other : list (str * pyval)
}.

(** A request that left the process. *)
Inductive sent : Type :=
| TokenRequest (url : str) (client_id client_secret : option str)
    (* requests.post(self._token_url, data=payload, headers=..., timeout=10) *)
| ApiRequest (method : verb) (base_url : option str) (path : str)
    (authorization : pyval * pyval) (timeout : pyval) (other : list (str * pyval)).
    (* getattr(requests, method)(url=urljoin(base_url, path), headers=..., ...) *)

(** What comes back: the status and the outcome of [response.json()]. *)
Record response : Type := {
  status_code : Z;
  json : result pyval
}.

(** The environment variables, the clock, what the network will answer to the
    requests to come (the time each answer takes, and the answer, [None] for a
    connection that fails), the requests sent so far, and the credential
    objects created so far, in order of creation. *)
Record world : Type := {
  environ : string -> option str;
  clock : time;
  network : list (Q * option response);
  wire : list sent;
  heap : list OAUTHResponse
}.

(** A reference to a credential object: its position in [heap]. *)
Definition ref := nat.

(** [NinjaRMMAPI]: the attributes of the instance. *)
Record NinjaRMMAPI : Type := {
  _environment : option str;
  _client_id : option str;
  _client_secret : option str;
  _base_url : option str;
  _docs_path : option str;
  _token_url : str;
  _oauth : ref;
  documentation : pyval
}.

(** A method of the client: from the instance and the world to a result, the
    instance and the world, both of which keep what was done before a raise. *)
Definition Method (A : Type) : Type :=
  NinjaRMMAPI -> world -> result A * NinjaRMMAPI * world.

Definition ret {A} (a : A) : Method A := fun self w => (Ok a, self, w).
Definition raise {A} (e : exn) : Method A := fun self w => (Raise e, self, w).
Definition then_ {A B} (m : Method A) (k : A -> Method B) : Method B :=
  fun self w =>
    match m self w with
    | (Ok a, self', w') => k a self' w'
    | (Raise e, self', w') => (Raise e, self', w')
    end.
Definition lift {A} (r : result A) : Method A :=
  fun self w => (r, self, w).

Declare Scope method_scope.
Delimit Scope method_scope with method.
Notation "x <-- m ;; k" := (then_ m (fun x => k))
  (at level 61, m at next level, right associativity) : method_scope.
Notation "m ;;; k" := (then_ m (fun _ => k))
  (at level 61, right associativity) : method_scope.

(** [time.time()] *)
Definition time_time : Method time := fun self w => (Ok (clock w), self, w).

(** One HTTP exchange: the request goes out, the clock advances, the scripted
    answer comes back. *)
Definition exchange (request : sent) : Method response :=
  fun self w =>
    match network w with
    | [] =>
        (Raise ConnectionError, self,
         {| environ := environ w; clock := clock w; network := [];
            wire := wire w ++ [request]; heap := heap w |})
    | (elapsed, answer) :: rest =>
        let w' := {| environ := environ w; clock := (clock w + elapsed)%Q;
                     network := rest; wire := wire w ++ [request];
                     heap := heap w |} in
        match answer with
        | Some r => (Ok r, self, w')
        | None => (Raise ConnectionError, self, w')
        end
    end.

(** [response.raise_for_status()] *)
Definition raise_for_status (r : response) : result unit :=
  if (400 <=? status_code r) && (status_code r <? 600)
  then Raise (HTTPError (status_code r))
  else Ok tt.

(** The constructor call [OAUTHResponse(...)]: a new object. *)
Definition new_credential (o : OAUTHResponse) : Method ref :=
  fun self w =>
    (Ok (List.length (heap w)), self,
     {| environ := environ w; clock := clock w; network := network w;
        wire := wire w; heap := heap w ++ [o] |}).

(** [self._oauth], dereferenced. *)
Definition current_credential : Method OAUTHResponse :=
  fun self w =>
    match nth_error (heap w) (_oauth self) with
    | Some o => (Ok o, self, w)
    | None => (Raise AttributeError, self, w)
    end.

(** [self._oauth = r] *)
Definition set_oauth (r : ref) : Method unit :=
  fun self w =>
    (Ok tt,
     {| _environment := _environment self; _client_id := _client_id self;
        _client_secret := _client_secret self; _base_url := _base_url self;
        _docs_path := _docs_path self; _token_url := _token_url self;
        _oauth := r; documentation := documentation self |},
     w).

(** [self.documentation = d] *)
Definition set_documentation (d : pyval) : Method unit :=
  fun self w =>
    (Ok tt,
     {| _environment := _environment self; _client_id := _client_id self;
        _client_secret := _client_secret self; _base_url := _base_url self;
        _docs_path := _docs_path self; _token_url := _token_url self;
        _oauth := _oauth self; documentation := d |},
     w).

Local Open Scope method_scope.

(** [NinjaRMMAPI._request_credentials] *)
Definition _request_credentials : Method ref :=
  fun self =>
    (response <-- exchange (TokenRequest (_token_url self) (_client_id self)
                                         (_client_secret self)) ;;
     lift (raise_for_status response) ;;;
     body <-- lift (json response) ;;
     access_token <-- lift (py_getitem body (lit "access_token")) ;;
     token_type <-- lift (py_getitem body (lit "token_type")) ;;
     expires_in <-- lift (py_getitem body (lit "expires_in")) ;;
     scope <-- lift (py_getitem body (lit "scope")) ;;
     now <-- time_time ;;
     new_credential {| access_token := access_token; token_type := token_type;
                       expires_in := expires_in; scope := scope;
                       obtained_at := now |}) self.

(** [NinjaRMMAPI._authenticate] *)
Definition _authenticate : Method unit :=
  oauth <-- current_credential ;;
  now <-- time_time ;;
  expired <-- lift (is_expired now oauth) ;;
  if expired then
    fresh <-- _request_credentials ;;
    set_oauth fresh
  else ret tt.

(** [NinjaRMMAPI.request]; [verb] is the [Literal] type of [method]. *)
Definition request (method : verb) (path : str) (kwargs : options) : Method pyval :=
  _authenticate ;;;
  oauth <-- current_credential ;;
  (fun self =>
     (response <-- exchange
        (ApiRequest method (_base_url self) path
                    (token_type oauth, access_token oauth)
                    match timeout kwargs with Some t => t | None => PInt 10 end
                    (other kwargs)) ;;
      lift (raise_for_status response) ;;;
      lift (json response)) self).

(** [NinjaRMMAPI.refresh_documentation].  With [docs_path] unset, [request]
    authenticates and then fails to join the path: ['/'.join] takes no
    [None]. *)
Definition refresh_documentation : Method unit :=
  fun self =>
    match _docs_path self with
    | Some path =>
        (docs <-- request GET path {| timeout := None; other := [] |} ;;
         set_documentation docs) self
    | None => (_authenticate ;;; raise TypeError) self
    end.

(** [f"{value}"] for what [os.getenv] returned. *)
Definition format_value (value : option str) : str :=
  match value with Some s => s | None => lit "None" end.

(** [not value] for what [os.getenv] returned. *)
Definition unset (value : option str) : bool :=
  match value with
  | None | Some [] => true
  | Some (_ :: _) => false
  end.

Definition required_variables : list string :=
  ["NINJA_ENVIRONMENT"; "NINJA_CLIENT_ID"; "NINJA_CLIENT_SECRET";
   "NINJA_BASE_URL"; "NINJA_DOCS_PATH"]%string.

Definition valid_environments : list str :=
  [lit "app"; lit "us2"; lit "ca"; lit "eu"; lit "oc"].

(** [self._environment in valid_environments] *)
Definition in_valid_environments (value : option str) : bool :=
  match value with
  | Some s => existsb (str_eqb s) valid_environments
  | None => false
  end.

(** [NinjaRMMAPI.__init__]: the instance, or the exception, and the world
    after the call. *)
Definition __init__ (w : world) : result NinjaRMMAPI * world :=
  let missing_env_vars :=
    filter (fun var => unset (environ w var)) required_variables in
  match missing_env_vars with
  | _ :: _ => (Raise (MissingEnvironment missing_env_vars), w)
  | [] =>
      if negb (in_valid_environments (environ w "NINJA_ENVIRONMENT"))
      then (Raise InvalidEnvironmentValue, w)
      else
        let self :=
          {| _environment := environ w "NINJA_ENVIRONMENT";
             _client_id := environ w "NINJA_CLIENT_ID";
             _client_secret := environ w "NINJA_CLIENT_SECRET";
             _base_url := environ w "NINJA_BASE_URL";
             _docs_path := environ w "NINJA_DOCS_PATH";
             _token_url := lit "https://"
                           ++ format_value (environ w "NINJA_ENVIRONMENT")
                           ++ lit ".ninjarmm.com/ws/oauth/token";
             _oauth := O;
             documentation := PDict [] |} in
        match (fresh <-- _request_credentials ;;
               set_oauth fresh ;;;
               set_documentation (PDict []) ;;;
               refresh_documentation) self w with
        | (Ok _, self', w') => (Ok self', w')
        | (Raise e, _, w') => (Raise e, w')
        end
  end.

(** ** [get_sorted_docs] *)

Local Close Scope method_scope.

(** [s.lower()] on ASCII letters; the case mapping of the other characters is
    not modelled, and no result below depends on which function this is. *)
Definition str_lower (s : str) : str :=
  map (fun c => if (65 <=? c) && (c <=? 90) then c + 32 else c) s.

(** [v.lower()]: a method of [str]. *)
Definition py_lower (v : pyval) : result str :=
  match v with
  | PStr s => Ok (str_lower s)
  | _ => Raise AttributeError
  end.

(** [for x in xs: state = body(state, x)], stopping at the first raise. *)
Fixpoint for_each {A S} (xs : list A) (body : S -> A -> result S) (state : S)
  : result S :=
  match xs with
  | [] => Ok state
  | x :: xs' => state' <- body state x ;; for_each xs' body state'
  end.

(** [container[key] = value] on a dict. *)
Definition py_setitem (container key value : pyval) : result pyval :=
  match container with
  | PDict d =>
      if hashable key then Ok (PDict (dict_set d key value)) else Raise TypeError
  | _ => Raise TypeError
  end.

(** [container.setdefault(key, default)]: the value found or inserted, and the
    container after the call. *)
Definition py_setdefault (container key default : pyval) : result (pyval * pyval) :=
  match container with
  | PDict d =>
      if hashable key then
        match dict_lookup d key with
        | Some v => Ok (v, container)
        | None => Ok (default, PDict (dict_set d key default))
        end
      else Raise TypeError
  | _ => Raise AttributeError
  end.

(** One step of the dict comprehension that builds [sorted_docs["paths"]]:
    [tag["name"].lower(): {"description": tag["description"], "methods": {}}] *)
Definition declare_tag (paths : dict) (tag : pyval) : result dict :=
  name <- py_getitem tag (lit "name") ;;
  key <- py_lower name ;;
  description <- py_getitem tag (lit "description") ;;
  Ok (dict_set paths (PStr key)
        (PDict [(PStr (lit "description"), description);
                (PStr (lit "methods"), PDict [])])).

(** The record stored for an operation. *)
Definition operation_record (path details : pyval) : result pyval :=
  summary <- py_get details (lit "summary") (PStr []) ;;
  description <- py_get details (lit "description") (PStr []) ;;
  parameters <- py_get details (lit "parameters") (PList []) ;;
  requestBody <- py_get details (lit "requestBody") (PDict []) ;;
  responses <- py_get details (lit "responses") (PDict []) ;;
  Ok (PDict [(PStr (lit "path"), path);
             (PStr (lit "summary"), summary);
             (PStr (lit "description"), description);
             (PStr (lit "parameters"), parameters);
             (PStr (lit "requestBody"), requestBody);
             (PStr (lit "responses"), responses)]).

(** The body of the innermost loop,
    [sorted_docs["paths"][tag.lower()]["methods"].setdefault(method, {})
       [details["operationId"]] = {...}]
    on [paths = sorted_docs["paths"]]: the right-hand side is evaluated first,
    then the target from left to right; the dicts reached on the way are
    updated in place, which here is rebuilding [paths] around them. *)
Definition add_operation (path method details : pyval) (paths : dict) (tag : pyval)
  : result dict :=
  record <- operation_record path details ;;
  key <- py_lower tag ;;
  entry <- py_getitem (PDict paths) key ;;
  methods <- py_getitem entry (lit "methods") ;;
  found <- py_setdefault methods method (PDict []) ;;
  let (operations, methods) := found in
  operation_id <- py_getitem details (lit "operationId") ;;
  operations <- py_setitem operations operation_id record ;;
  methods <- py_setitem methods method operations ;;
  entry <- py_setitem entry (PStr (lit "methods")) methods ;;
  Ok (dict_set paths (PStr key) entry).

(** [NinjaRMMAPI.get_sorted_docs], as a function of [self.documentation]. *)
Definition get_sorted_docs (documentation : pyval) : result pyval :=
  openapi_version <- py_get documentation (lit "openapi") (PStr []) ;;
  info <- py_get documentation (lit "info") (PDict []) ;;
  security <- py_get documentation (lit "security") (PList []) ;;
  tags <- py_get documentation (lit "tags") (PList []) ;;
  declared <- py_getitem documentation (lit "tags") ;;
  declared <- py_iter declared ;;
  paths <- for_each declared declare_tag [] ;;
  components <- py_get documentation (lit "components") (PDict []) ;;
  documented <- py_getitem documentation (lit "paths") ;;
  documented <- py_items documented ;;
  paths <- for_each documented
             (fun paths item =>
                let (path, methods) := item in
                methods <- py_items methods ;;
                for_each methods
                  (fun paths item =>
                     let (method, details) := item in
                     tags <- py_getitem details (lit "tags") ;;
                     tags <- py_iter tags ;;
                     for_each tags (add_operation path method details) paths)
                  paths)
             paths ;;
  Ok (PDict [(PStr (lit "openapi_version"), openapi_version);
             (PStr (lit "info"), info);
             (PStr (lit "security"), security);
             (PStr (lit "tags"), tags);
             (PStr (lit "paths"), PDict paths);
             (PStr (lit "components"), components)]).

End NinjaAPI.

(* ================================================================== *)
(** * NinjaAPI: the script [main.py] *)
(* ================================================================== *)

Module NinjaMain.
Import Py NinjaAPI.
Local Open Scope py_scope.

(** [sorted_docs["paths"]["system"]["methods"]["get"]["getOrganizations"]["path"]] *)
Definition organizations_path (sorted_docs : pyval) : result pyval :=
  paths <- py_getitem sorted_docs (lit "paths") ;;
  system <- py_getitem paths (lit "system") ;;
  methods <- py_getitem system (lit "methods") ;;
  get <- py_getitem methods (lit "get") ;;
  operation <- py_getitem get (lit "getOrganizations") ;;
  py_getitem operation (lit "path").

(** [api.request("get", path)] for the value found: [request] authenticates
    and then joins the path, and ['/'.join] takes strings only. *)
Definition request_path (path : pyval) : Method pyval :=
  match path with
  | PStr p => request GET p {| timeout := None; other := [] |}
  | _ => then_ _authenticate (fun _ => raise TypeError)
  end.

(** The script: build the client, index the documentation, request the path
    of [getOrganizations] and print the answer, then write the index to
    [ninja_api_docs.json] with [json.dump(sorted_docs, file, indent=4)].
    What is printed is not kept. *)
Definition main (w : world) (fs : ConfigHandler.filesystem)
  : result unit * world * ConfigHandler.filesystem :=
  match __init__ w with
  | (Raise e, w) => (Raise e, w, fs)
  | (Ok api, w) =>
      match (sorted_docs <- get_sorted_docs (documentation api) ;;
             path <- organizations_path sorted_docs ;;
             Ok (sorted_docs, path)) with
      | Raise e => (Raise e, w, fs)
      | Ok (sorted_docs, path) =>
          match request_path path api w with
          | (Raise e, _, w) => (Raise e, w, fs)
          | (Ok _, _, w) =>
              let fs := ConfigHandler.open_file fs ConfigHandler.ModeW in
              let (text, stopped) := Json.dump sorted_docs in
              let fs := ConfigHandler.write_file fs text in
              (match stopped with
               | None => Ok tt
               | Some e => Raise e
               end, w, fs)
          end
      end
  end.

End NinjaMain.

(* ================================================================== *)
(** * [json.load] reads back what [json.dump] wrote *)
(* ================================================================== *)

Module JsonFacts.
Import Py Json.

(** ** Definitions *)

Definition is_high_surrogate (c : Z) : bool := (55296 <=? c) && (c <=? 56319).
Definition is_low_surrogate (c : Z) : bool := (56320 <=? c) && (c <=? 57343).

(** A string of code points in range in which no high surrogate is directly
    followed by a low surrogate. *)
Fixpoint str_ok (s : str) : bool :=
  match s with
  | [] => true
  | c :: s' =>
      (0 <=? c) && (c <=? 1114111) &&
      negb (is_high_surrogate c &&
            match s' with d :: _ => is_low_surrogate d | [] => false end) &&
      str_ok s'
  end.

(** The text [t] does not start with the escape of a low surrogate. *)
Definition not_low_escape (t : str) : Prop :=
  (forall t', t <> 92 :: 117 :: t') \/
  (exists g1 g2 g3 g4 t' uni2,
      t = 92 :: 117 :: g1 :: g2 :: g3 :: g4 :: t' /\
      decode_uXXXX g1 g2 g3 g4 = Some uni2 /\
      is_low_surrogate uni2 = false).

(** The text after a value in the output of [json.dump]: nothing, a newline or
    a comma. *)
Definition delimited (rest : str) : Prop :=
  match rest with
  | [] => True
  | c :: _ => c = 10 \/ c = 44
  end.

(** [repr] is a number literal with a fraction or an exponent, as the [repr]
    of a finite float is. *)
Definition float_literal (repr : str) : bool :=
  match match_number repr with
  | Some (PFloat (FFinite r), []) => str_eqb r repr
  | _ => false
  end.

Definition no_digit_ahead (rest : str) : Prop :=
  match rest with [] => True | c :: _ => is_digit c = false end.

(** No later item has an equal key. *)
Fixpoint unique_keys (d : dict) : bool :=
  match d with
  | [] => true
  | (k, _) :: d' =>
      match dict_lookup d' k with None => true | Some _ => false end
      && unique_keys d'
  end.

(** The values [json.load] can return and [json.dump] writes back unchanged:
    [None], booleans, integers, floats other than NaN (which is not equal to
    itself), strings, lists, and dicts with distinct string keys. *)
Fixpoint json_value (v : pyval) : bool :=
  match v with
  | PNone | PBool _ | PInt _ => true
  | PFloat (FFinite repr) => float_literal repr
  | PFloat FInf | PFloat FNegInf => true
  | PStr s => str_ok s
  | PList l => forallb json_value l
  | PDict d =>
      forallb (fun kv =>
                 match fst kv with PStr k => str_ok k | _ => false end
                 && json_value (snd kv)) d
      && unique_keys d
  | PFloat FNaN | PTuple _ | PObject => false
  end.

(** A bound on the depth of the calls [scan_once] makes to read a value back. *)
Fixpoint weight (v : pyval) : nat :=
  match v with
  | PList l | PTuple l => S (fold_right (fun x n => S (weight x + n)) O l)
  | PDict d => S (fold_right (fun kv n => S (weight (snd kv) + n)) O d)
  | _ => 1%nat
  end.

(** The text of a value starts with a visible ASCII character that closes no
    list. *)
Definition starts_value (text : str) : Prop :=
  exists c t, text = c :: t /\ 33 <= c <= 123 /\ c <> 93.

(** [v] is written without error, and the text written reads back as [v]. *)
Definition reads_back (v : pyval) : Prop :=
  forall level, exists text,
    _iterencode v level = (text, None) /\
    starts_value text /\
    (weight v <= List.length text)%nat /\
    forall rest fuel, (weight v <= fuel)%nat -> delimited rest ->
      scan_once fuel (text ++ rest) = Parsed v rest.

Definition items_weight (l : list pyval) : nat :=
  fold_right (fun x n => S (weight x + n)) O l.

Definition dict_weight (d : dict) : nat :=
  fold_right (fun kv n => S (weight (snd kv) + n)) O d.

Definition json_item (kv : pyval * pyval) : bool :=
  match fst kv with PStr k => str_ok k | _ => false end && json_value (snd kv).

Definition str_key (kv : pyval * pyval) : Prop := exists k, fst kv = PStr k.

(** No value of another class, and no dict key that is a list, tuple, dict or
    such a value. *)
Fixpoint serializable (v : pyval) : bool :=
  match v with
  | PList l | PTuple l => forallb serializable l
  | PDict d =>
      forallb (fun kv =>
                 match key_text (fst kv) with Some _ => true | None => false end
                 && serializable (snd kv)) d
  | PObject => false
  | _ => true
  end.

Definition outcome (ok : bool) : option exn := if ok then None else Some TypeError.

(** The scan [r] of an input of length [n] did not run out of fuel and, if it
    succeeded, consumed something. *)
Definition within_budget {A} (r : parse A) (n : nat) : Prop :=
  r <> OutOfFuel /\
  forall a rest, r = Parsed a rest -> (List.length rest < n)%nat.

(** ** Equality of strings *)

Lemma str_eqb_refl s : str_eqb s s = true.
Proof. induction s; cbn; [reflexivity|]. rewrite Z.eqb_refl. exact IHs. Qed.

Lemma str_eqb_eq a b : str_eqb a b = true <-> a = b.
Proof.
  revert b. induction a as [|x a IH]; intros [|y b]; cbn; split; intros H;
    try reflexivity; try discriminate.
  - apply andb_true_iff in H. destruct H as [H1 H2].
    apply Z.eqb_eq in H1. apply IH in H2. subst. reflexivity.
  - injection H as -> ->. rewrite Z.eqb_refl. apply IH. reflexivity.
Qed.

Lemma str_eqb_sym a b : str_eqb a b = str_eqb b a.
Proof.
  revert b. induction a as [|x a IH]; intros [|y b]; cbn; try reflexivity.
  rewrite Z.eqb_sym, IH. reflexivity.
Qed.

(** ** Strings *)

Lemma hex_value_digit d : 0 <= d < 16 -> hex_value (hex_digit d) = Some d.
Proof.
  intros H. unfold hex_value, hex_digit, is_digit.
  destruct (d <? 10) eqn:E.
  - apply Z.ltb_lt in E.
    replace ((48 <=? 48 + d) && (48 + d <=? 57)) with true
      by (symmetry; apply andb_true_iff; split; apply Z.leb_le; lia).
    f_equal; lia.
  - apply Z.ltb_ge in E.
    replace ((48 <=? 87 + d) && (87 + d <=? 57)) with false
      by (symmetry; apply andb_false_iff; right; apply Z.leb_gt; lia).
    replace ((97 <=? 87 + d) && (87 + d <=? 102)) with true
      by (symmetry; apply andb_true_iff; split; apply Z.leb_le; lia).
    f_equal; lia.
Qed.

Lemma decode_u_escape n rest :
  0 <= n < 65536 ->
  exists h1 h2 h3 h4,
    u_escape n ++ rest = 92 :: 117 :: h1 :: h2 :: h3 :: h4 :: rest /\
    decode_uXXXX h1 h2 h3 h4 = Some n.
Proof.
  intros H. unfold u_escape. do 4 eexists. split; [reflexivity|].
  unfold decode_uXXXX.
  rewrite !Z.shiftr_div_pow2 by lia.
  change (2 ^ 12) with 4096. change (2 ^ 8) with 256. change (2 ^ 4) with 16.
  rewrite !hex_value_digit by (apply Z.mod_pos_bound; lia).
  f_equal. Z.div_mod_to_equations. lia.
Qed.

Lemma lor_disjoint a b :
  0 <= b < 1024 -> a mod 1024 = 0 -> Z.lor a b = a + b.
Proof.
  intros Hb Ha.
  assert (L : Z.land a b = 0).
  { rewrite <- (Z.mod_small b 1024) by lia.
    change 1024 with (2 ^ 10). rewrite <- Z.land_ones by lia.
    rewrite (Z.land_comm b), Z.land_assoc, (Z.land_ones a) by lia.
    change (2 ^ 10) with 1024. rewrite Ha. reflexivity. }
  rewrite <- Z.lxor_lor by exact L.
  symmetry. apply Z.add_nocarry_lxor. exact L.
Qed.

Lemma scanstring_u_escape c t :
  0 <= c < 65536 ->
  (is_high_surrogate c = true -> not_low_escape t) ->
  scanstring (u_escape c ++ t) = append_char c (scanstring t).
Proof.
  intros Hc Ht.
  destruct (decode_u_escape c t Hc) as (h1 & h2 & h3 & h4 & E & D).
  rewrite E. cbn [scanstring].
  change (92 =? 34) with false. change ((0 <=? 92) && (92 <? 32)) with false.
  change (92 =? 92) with true. change (117 =? 117) with true. cbv iota.
  rewrite D.
  fold (is_high_surrogate c).
  destruct (is_high_surrogate c) eqn:Hh; [|reflexivity].
  destruct (Ht eq_refl) as [N | (g1 & g2 & g3 & g4 & t' & uni2 & Et & Du & Hl)].
  - destruct t as [|b [|u s8]]; try reflexivity.
    destruct ((b =? 92) && (u =? 117)) eqn:B; [|reflexivity].
    apply andb_true_iff in B. destruct B as [B1 B2].
    apply Z.eqb_eq in B1, B2. subst. exfalso. apply (N s8). reflexivity.
  - subst t. change ((92 =? 92) && (117 =? 117)) with true. cbv iota.
    rewrite Du. fold (is_low_surrogate uni2). rewrite Hl. reflexivity.
Qed.

Lemma surrogate_halves c :
  65536 <= c <= 1114111 ->
  let n := c - 65536 in
  let s1 := Z.lor 55296 (Z.land (Z.shiftr n 10) 1023) in
  let s2 := Z.lor 56320 (Z.land n 1023) in
  55296 <= s1 <= 56319 /\ 56320 <= s2 <= 57343 /\
  65536 + Z.lor (Z.shiftl (s1 - 55296) 10) (s2 - 56320) = c.
Proof.
  intros Hc n s1 s2.
  assert (H1 : Z.land (Z.shiftr n 10) 1023 = n / 1024).
  { change 1023 with (Z.ones 10). rewrite Z.land_ones, Z.shiftr_div_pow2 by lia.
    change (2 ^ 10) with 1024. apply Z.mod_small. subst n.
    split; [apply Z.div_pos; lia | apply Z.div_lt_upper_bound; lia]. }
  assert (H2 : Z.land n 1023 = n mod 1024).
  { change 1023 with (Z.ones 10). rewrite Z.land_ones by lia. reflexivity. }
  assert (B1 : 0 <= n / 1024 < 1024).
  { subst n. split; [apply Z.div_pos; lia | apply Z.div_lt_upper_bound; lia]. }
  assert (B2 : 0 <= n mod 1024 < 1024) by (apply Z.mod_pos_bound; lia).
  assert (E1 : s1 = 55296 + n / 1024).
  { subst s1. rewrite H1. apply lor_disjoint; [lia | reflexivity]. }
  assert (E2 : s2 = 56320 + n mod 1024).
  { subst s2. rewrite H2. apply lor_disjoint; [lia | reflexivity]. }
  rewrite E1, E2. repeat split; try lia.
  replace (55296 + n / 1024 - 55296) with (n / 1024) by lia.
  replace (56320 + n mod 1024 - 56320) with (n mod 1024) by lia.
  rewrite lor_disjoint.
  - rewrite Z.shiftl_mul_pow2 by lia. change (2 ^ 10) with 1024.
    pose proof (Z.div_mod n 1024 ltac:(lia)). subst n. lia.
  - lia.
  - rewrite Z.shiftl_mul_pow2 by lia. change (2 ^ 10) with 1024.
    apply Z.mod_mul. lia.
Qed.

Lemma scanstring_escape_char c t :
  0 <= c <= 1114111 ->
  (is_high_surrogate c = true -> not_low_escape t) ->
  scanstring (escape_char c ++ t) = append_char c (scanstring t).
Proof.
  intros Hc Ht. unfold escape_char.
  destruct (c =? 92) eqn:E92; [apply Z.eqb_eq in E92; subst; reflexivity|].
  destruct (c =? 34) eqn:E34; [apply Z.eqb_eq in E34; subst; reflexivity|].
  destruct ((32 <=? c) && (c <=? 126)) eqn:Epr.
  { apply andb_true_iff in Epr. destruct Epr as [P1 P2].
    apply Z.leb_le in P1, P2.
    cbn [app scanstring]. rewrite E34, E92.
    replace ((0 <=? c) && (c <? 32)) with false; [reflexivity|].
    symmetry. apply andb_false_iff. right. apply Z.ltb_ge. lia. }
  destruct (c =? 8) eqn:E8; [apply Z.eqb_eq in E8; subst; reflexivity|].
  destruct (c =? 12) eqn:E12; [apply Z.eqb_eq in E12; subst; reflexivity|].
  destruct (c =? 10) eqn:E10; [apply Z.eqb_eq in E10; subst; reflexivity|].
  destruct (c =? 13) eqn:E13; [apply Z.eqb_eq in E13; subst; reflexivity|].
  destruct (c =? 9) eqn:E9; [apply Z.eqb_eq in E9; subst; reflexivity|].
  destruct (c <? 65536) eqn:Ebmp.
  { apply Z.ltb_lt in Ebmp. apply scanstring_u_escape; [lia | exact Ht]. }
  apply Z.ltb_ge in Ebmp.
  destruct (surrogate_halves c ltac:(lia)) as (S1 & S2 & Ec).
  cbv zeta in S1, S2, Ec.
  set (s1 := Z.lor 55296 (Z.land (Z.shiftr (c - 65536) 10) 1023)) in *.
  set (s2 := Z.lor 56320 (Z.land (c - 65536) 1023)) in *.
  rewrite <- app_assoc.
  destruct (decode_u_escape s1 (u_escape s2 ++ t) ltac:(lia)) as (h1 & h2 & h3 & h4 & E & D).
  destruct (decode_u_escape s2 t ltac:(lia)) as (g1 & g2 & g3 & g4 & E' & D').
  rewrite E, E'. cbn [scanstring].
  change (92 =? 34) with false. change ((0 <=? 92) && (92 <? 32)) with false.
  change (92 =? 92) with true. change (117 =? 117) with true. cbv iota.
  rewrite D.
  replace ((55296 <=? s1) && (s1 <=? 56319)) with true
    by (symmetry; apply andb_true_iff; split; apply Z.leb_le; lia).
  change ((92 =? 92) && (117 =? 117)) with true. cbv iota.
  rewrite D'.
  replace ((56320 <=? s2) && (s2 <=? 57343)) with true
    by (symmetry; apply andb_true_iff; split; apply Z.leb_le; lia).
  rewrite Ec. reflexivity.
Qed.

(** What follows a character that is not a low surrogate is no escaped low
    surrogate. *)
Lemma not_low_escape_char c t :
  0 <= c <= 1114111 -> is_low_surrogate c = false ->
  not_low_escape (escape_char c ++ t).
Proof.
  intros Hc Hl. unfold escape_char.
  destruct (c =? 92) eqn:E92; [left; intros t' H; discriminate H|].
  destruct (c =? 34) eqn:E34; [left; intros t' H; discriminate H|].
  destruct ((32 <=? c) && (c <=? 126)) eqn:Epr.
  { left. intros t' H. cbn [app] in H. injection H as H _.
    subst c. discriminate E92. }
  destruct (c =? 8) eqn:E8; [left; intros t' H; discriminate H|].
  destruct (c =? 12) eqn:E12; [left; intros t' H; discriminate H|].
  destruct (c =? 10) eqn:E10; [left; intros t' H; discriminate H|].
  destruct (c =? 13) eqn:E13; [left; intros t' H; discriminate H|].
  destruct (c =? 9) eqn:E9; [left; intros t' H; discriminate H|].
  right.
  destruct (c <? 65536) eqn:Ebmp.
  { apply Z.ltb_lt in Ebmp.
    destruct (decode_u_escape c t ltac:(lia)) as (h1 & h2 & h3 & h4 & E & D).
    exists h1, h2, h3, h4, t, c. auto. }
  apply Z.ltb_ge in Ebmp.
  destruct (surrogate_halves c ltac:(lia)) as (S1 & S2 & Ec).
  cbv zeta in S1, S2, Ec.
  set (s1 := Z.lor 55296 (Z.land (Z.shiftr (c - 65536) 10) 1023)) in *.
  set (s2 := Z.lor 56320 (Z.land (c - 65536) 1023)) in *.
  rewrite <- app_assoc.
  destruct (decode_u_escape s1 (u_escape s2 ++ t) ltac:(lia)) as (h1 & h2 & h3 & h4 & E & D).
  exists h1, h2, h3, h4, (u_escape s2 ++ t), s1. repeat split; auto.
  unfold is_low_surrogate. apply andb_false_iff. left. apply Z.leb_gt. lia.
Qed.

Theorem scanstring_escape s rest :
  str_ok s = true ->
  scanstring (flat_map escape_char s ++ 34 :: rest) = Parsed s rest.
Proof.
  induction s as [|c s IH]; intros Hok.
  - reflexivity.
  - cbn [str_ok] in Hok. apply andb_true_iff in Hok. destruct Hok as [Hok Hs].
    apply andb_true_iff in Hok. destruct Hok as [Hc Hsur].
    apply andb_true_iff in Hc. destruct Hc as [C1 C2].
    apply Z.leb_le in C1, C2.
    cbn [flat_map]. rewrite <- app_assoc.
    rewrite scanstring_escape_char, IH; auto.
    intros Hh. rewrite Hh in Hsur. cbn [andb] in Hsur.
    destruct s as [|d s'].
    + left. intros t' H. discriminate H.
    + cbn [flat_map]. rewrite <- app_assoc.
      apply negb_true_iff in Hsur.
      cbn [str_ok] in Hs.
      apply andb_true_iff in Hs. destruct Hs as [Hs _].
      apply andb_true_iff in Hs. destruct Hs as [Hs _].
      apply andb_true_iff in Hs. destruct Hs as [D1 D2].
      apply Z.leb_le in D1, D2.
      apply not_low_escape_char; auto.
Qed.

(** ** Integers *)

Lemma uint_digits_are_digits u :
  Forall (fun c => is_digit c = true) (uint_digits u).
Proof. induction u; cbn [uint_digits]; constructor; auto. Qed.

Lemma span_digits_app ds rest :
  Forall (fun c => is_digit c = true) ds ->
  match rest with [] => True | c :: _ => is_digit c = false end ->
  span_digits (ds ++ rest) = (ds, rest).
Proof.
  intros Hds Hrest. induction Hds as [|d ds Hd _ IH]; cbn [app span_digits].
  - destruct rest as [|c rest]; [reflexivity|]. cbn [span_digits]. rewrite Hrest. reflexivity.
  - rewrite Hd, IH. reflexivity.
Qed.

Lemma fold_digits_acc u acc :
  fold_left (fun a d => a * 10 + (d - 48)) (uint_digits u) (Zpos acc)
  = Zpos (Pos.of_uint_acc u acc).
Proof.
  revert acc. induction u; intros acc; cbn [uint_digits fold_left Pos.of_uint_acc];
    try reflexivity; rewrite <- IHu; f_equal; lia.
Qed.

Lemma int_of_uint_digits u : int_of_digits (uint_digits u) = Z.of_N (Pos.of_uint u).
Proof.
  unfold int_of_digits.
  induction u; cbn [uint_digits fold_left Pos.of_uint]; try reflexivity;
    try exact IHu;
    match goal with
    | |- fold_left _ _ ?a = _ =>
        let v := eval cbv in a in change a with v
    end; rewrite fold_digits_acc; reflexivity.
Qed.

Lemma to_uint_head p :
  exists d ds, uint_digits (Pos.to_uint p) = d :: ds /\ 49 <= d <= 57.
Proof.
  pose proof (DecimalPos.Unsigned.to_of (Pos.to_uint p)) as H.
  rewrite DecimalPos.Unsigned.of_to in H. cbn [N.to_uint] in H.
  pose proof (DecimalPos.Unsigned.to_uint_nonzero p) as NZ.
  destruct (Pos.to_uint p) as [|u|u|u|u|u|u|u|u|u|u] eqn:E;
    try (cbn [uint_digits]; do 2 eexists; split; [reflexivity | lia]).
  - exfalso. apply (DecimalPos.Unsigned.to_uint_nonnil p). exact E.
  - exfalso. rewrite DecimalFacts.unorm_D0 in H.
    assert (Hu : u = Decimal.Nil \/ u <> Decimal.Nil)
      by (destruct u; [left; reflexivity | right; discriminate ..]).
    destruct Hu as [-> | Hu].
    + apply NZ. reflexivity.
    + pose proof (DecimalFacts.nb_digits_unorm u Hu) as L.
      rewrite <- H in L. cbn [Decimal.nb_digits] in L. lia.
Qed.

Lemma match_frac_delimited rest : delimited rest -> match_frac rest = ([], rest).
Proof.
  destruct rest as [|c rest]; [reflexivity|]. intros [-> | ->]; reflexivity.
Qed.

Lemma match_exp_delimited rest : delimited rest -> match_exp rest = ([], rest).
Proof.
  destruct rest as [|c rest]; [reflexivity|]. intros [-> | ->]; reflexivity.
Qed.

Lemma delimited_no_digit rest :
  delimited rest -> match rest with [] => True | c :: _ => is_digit c = false end.
Proof.
  destruct rest as [|c rest]; [trivial|]. intros [-> | ->]; reflexivity.
Qed.

Lemma match_integer_digits (neg : bool) p rest :
  delimited rest ->
  match_integer ((if neg then [45] else []) ++ uint_digits (Pos.to_uint p) ++ rest)
  = Some (neg, uint_digits (Pos.to_uint p), rest).
Proof.
  intros Hr. destruct (to_uint_head p) as (d & ds & E & Hd).
  pose proof (uint_digits_are_digits (Pos.to_uint p)) as F.
  rewrite E in *. inversion F as [|? ? Fd Fds]; subst.
  assert (Sp : span_digits (ds ++ rest) = (ds, rest))
    by (apply span_digits_app; [assumption | apply delimited_no_digit; assumption]).
  assert (N48 : (d =? 48) = false) by (apply Z.eqb_neq; lia).
  unfold match_integer. destruct neg; cbn [app].
  - change (45 =? 45) with true. cbv iota. rewrite N48, Fd, Sp. reflexivity.
  - replace (d =? 45) with false by (symmetry; apply Z.eqb_neq; lia).
    rewrite N48, Fd, Sp. reflexivity.
Qed.

Theorem match_number_intstr z rest :
  delimited rest -> match_number (intstr z ++ rest) = Some (PInt z, rest).
Proof.
  intros Hr. unfold match_number.
  destruct z as [|p|p]; cbn [intstr].
  - cbn. rewrite match_frac_delimited, match_exp_delimited by assumption. reflexivity.
  - pose proof (match_integer_digits false p rest Hr) as M. cbn [app] in M. rewrite M.
    rewrite match_frac_delimited, match_exp_delimited by assumption.
    rewrite int_of_uint_digits, DecimalPos.Unsigned.of_to. reflexivity.
  - pose proof (match_integer_digits true p rest Hr) as M. cbn [app] in M |- *. rewrite M.
    rewrite match_frac_delimited, match_exp_delimited by assumption.
    rewrite int_of_uint_digits, DecimalPos.Unsigned.of_to. reflexivity.
Qed.

(** ** Floats *)

Lemma span_digits_append s rest :
  no_digit_ahead rest ->
  span_digits (s ++ rest) = (fst (span_digits s), snd (span_digits s) ++ rest).
Proof.
  intros H. induction s as [|c s IH]; cbn [app span_digits].
  - destruct rest as [|c rest]; [reflexivity|]. cbn [span_digits]. cbn in H.
    rewrite H. reflexivity.
  - destruct (is_digit c); [|reflexivity].
    rewrite IH. destruct (span_digits s). reflexivity.
Qed.

Lemma match_integer_append s rest neg ds r :
  no_digit_ahead rest ->
  match_integer s = Some (neg, ds, r) ->
  match_integer (s ++ rest) = Some (neg, ds, r ++ rest).
Proof.
  intros H. unfold match_integer.
  destruct s as [|c s]; [discriminate|]. cbn [app].
  destruct (c =? 45).
  - destruct s as [|c' s']; [discriminate|]. cbn [app].
    destruct (c' =? 48); [intros E; inversion E; reflexivity|].
    destruct (is_digit c'); [|discriminate].
    rewrite (span_digits_append s' rest H). destruct (span_digits s').
    cbn [fst snd]. intros E; inversion E; reflexivity.
  - destruct (c =? 48); [intros E; inversion E; reflexivity|].
    destruct (is_digit c); [|discriminate].
    rewrite (span_digits_append s rest H). destruct (span_digits s).
    cbn [fst snd]. intros E; inversion E; reflexivity.
Qed.

Lemma delimited_no_digit_ahead rest : delimited rest -> no_digit_ahead rest.
Proof. apply delimited_no_digit. Qed.

Lemma match_frac_append s rest :
  delimited rest ->
  match_frac (s ++ rest) = (fst (match_frac s), snd (match_frac s) ++ rest).
Proof.
  intros H. unfold match_frac. destruct s as [|c s1]; cbn [app].
  - rewrite (match_frac_delimited rest H) || (fold (match_frac rest);
      rewrite (match_frac_delimited rest H)). reflexivity.
  - destruct (c =? 46); [|reflexivity].
    rewrite (span_digits_append s1 rest (delimited_no_digit_ahead _ H)).
    destruct (span_digits s1) as [[|d ds] r]; reflexivity.
Qed.

Lemma match_exp_append s rest :
  delimited rest ->
  match_exp (s ++ rest) = (fst (match_exp s), snd (match_exp s) ++ rest).
Proof.
  intros H. pose proof (delimited_no_digit_ahead _ H) as N.
  unfold match_exp. destruct s as [|e s1]; cbn [app].
  - fold (match_exp rest). rewrite (match_exp_delimited rest H). reflexivity.
  - destruct ((e =? 101) || (e =? 69)); [|reflexivity].
    destruct s1 as [|c s']; cbn [app].
    + destruct rest as [|c rest]; [reflexivity|].
      destruct H as [-> | ->]; reflexivity.
    + destruct ((c =? 45) || (c =? 43)).
      * rewrite (span_digits_append s' rest N).
        destruct (span_digits s') as [[|d ds] r]; reflexivity.
      * rewrite app_comm_cons, (span_digits_append (c :: s') rest N).
        destruct (span_digits (c :: s')) as [[|d ds] r]; reflexivity.
Qed.

Lemma match_number_append s rest v :
  delimited rest ->
  match_number s = Some (v, []) ->
  match_number (s ++ rest) = Some (v, rest).
Proof.
  intros H. unfold match_number.
  destruct (match_integer s) as [[[neg ds] s1]|] eqn:I; [|discriminate].
  rewrite (match_integer_append s rest neg ds s1 (delimited_no_digit_ahead _ H) I).
  rewrite (match_frac_append s1 rest H).
  destruct (match_frac s1) as [frac s2]. cbn [fst snd].
  rewrite (match_exp_append s2 rest H).
  destruct (match_exp s2) as [exp s3]. cbn [fst snd].
  destruct frac, exp; intros E; inversion E; reflexivity.
Qed.

Lemma float_literal_reads_back repr rest :
  float_literal repr = true -> delimited rest ->
  match_number (repr ++ rest) = Some (PFloat (FFinite repr), rest) /\
  exists c t, repr = c :: t /\ (c = 45 \/ 48 <= c <= 57).
Proof.
  unfold float_literal. intros F H.
  destruct (match_number repr) as [[v r]|] eqn:M; [|discriminate F].
  destruct v as [| | |[| | |r']| | | | |]; try discriminate F.
  destruct r; [|discriminate F]. apply str_eqb_eq in F. subst r'.
  split; [apply match_number_append; assumption|].
  unfold match_number in M.
  destruct (match_integer repr) as [[[neg ds] s1]|] eqn:I; [|discriminate M].
  unfold match_integer in I. destruct repr as [|c t]; [discriminate I|].
  exists c, t. split; [reflexivity|].
  destruct (c =? 45) eqn:E; [left; lia|]. right.
  destruct (c =? 48) eqn:E0; [lia|].
  destruct (is_digit c) eqn:D; [|discriminate I].
  unfold is_digit in D. lia.
Qed.

(** ** Lists and dicts *)

Lemma starts_value_not_ws c : 33 <= c <= 123 -> is_ws c = false.
Proof. intros H. unfold is_ws. lia. Qed.

Lemma skip_ws_newline_indent n c t :
  is_ws c = false -> skip_ws (newline_indent n ++ c :: t) = c :: t.
Proof.
  intros Hc. unfold newline_indent. cbn [app skip_ws].
  change (is_ws 10) with true. cbv iota.
  induction (4 * n)%nat as [|k IH]; cbn [repeat app skip_ws].
  - rewrite Hc. reflexivity.
  - change (is_ws 32) with true. cbv iota. exact IH.
Qed.

Lemma skip_ws_head c t : is_ws c = false -> skip_ws (c :: t) = c :: t.
Proof. intros H. cbn [skip_ws]. rewrite H. reflexivity. Qed.

Lemma delimited_newline n t : delimited (newline_indent n ++ t).
Proof. left. reflexivity. Qed.

Lemma delimited_comma t : delimited (44 :: t).
Proof. right. reflexivity. Qed.

Lemma list_items_reads_back level l :
  Forall (fun v => json_value v = true -> reads_back v) l ->
  forallb json_value l = true ->
  exists T,
    list_items (fun x => _iterencode x (S level)) (44 :: newline_indent (S level))
               l false = (T, None) /\
    (items_weight l <= List.length T)%nat /\
    forall v text rest fuel,
      (forall rest' f, (weight v <= f)%nat -> delimited rest' ->
                       scan_once f (text ++ rest') = Parsed v rest') ->
      (S (weight v + items_weight l) <= fuel)%nat ->
      array_items fuel (text ++ T ++ newline_indent level ++ 93 :: rest)
      = Parsed (v :: l) rest.
Proof.
  intros HF. induction HF as [|v2 l H2 _ IH]; intros Hj.
  - exists []. split; [reflexivity|]. split; [cbn; lia|].
    intros v text rest fuel Hv Hfuel.
    destruct fuel as [|fuel]; [lia|]. cbn [array_items app].
    rewrite Hv; [| cbn [items_weight fold_right] in Hfuel; lia | apply delimited_newline].
    rewrite skip_ws_newline_indent by reflexivity.
    reflexivity.
  - cbn [forallb] in Hj. apply andb_true_iff in Hj. destruct Hj as [Hj2 Hjl].
    destruct (IH Hjl) as (T & ET & WT & HT).
    destruct (H2 Hj2 (S level)) as (text2 & E2 & (c2 & t2 & -> & Hws & _) & W2 & R2).
    apply starts_value_not_ws in Hws.
    exists (44 :: newline_indent (S level) ++ (c2 :: t2) ++ T).
    split; [|split].
    + cbn [list_items]. rewrite E2, ET. reflexivity.
    + cbn [items_weight fold_right List.length] in *. rewrite !length_app.
      fold (items_weight l). cbn [List.length] in *. lia.
    + intros v text rest fuel Hv Hfuel.
      destruct fuel as [|fuel]; [lia|]. cbn [array_items].
      cbn [items_weight fold_right] in Hfuel. fold (items_weight l) in Hfuel.
      rewrite Hv; [| lia | apply delimited_comma].
      cbn [app]. rewrite skip_ws_head by reflexivity.
      change (44 =? 93) with false. change (44 =? 44) with true. cbv iota.
      rewrite <- !app_assoc. cbn [app]. rewrite <- !app_assoc.
      rewrite skip_ws_newline_indent by exact Hws.
      rewrite (app_comm_cons t2 _ c2).
      rewrite (HT v2 (c2 :: t2) rest fuel); [reflexivity | exact R2 | lia].
Qed.

Lemma dict_items_reads_back level d :
  Forall (fun kv => (json_value (fst kv) = true -> reads_back (fst kv)) /\
                    (json_value (snd kv) = true -> reads_back (snd kv))) d ->
  forallb json_item d = true ->
  exists T,
    dict_items (fun x => _iterencode x (S level)) (44 :: newline_indent (S level))
               d false = (T, None) /\
    (dict_weight d <= List.length T)%nat /\
    forall k v text rest fuel,
      str_ok k = true ->
      starts_value text ->
      (forall rest' f, (weight v <= f)%nat -> delimited rest' ->
                       scan_once f (text ++ rest') = Parsed v rest') ->
      (S (weight v + dict_weight d) <= fuel)%nat ->
      object_items fuel (flat_map escape_char k ++ 34 :: 58 :: 32 :: text ++ T ++
                         newline_indent level ++ 125 :: rest)
      = Parsed ((PStr k, v) :: d) rest.
Proof.
  intros HF. induction HF as [|[key2 v2] d [_ H2] _ IH]; intros Hj.
  - exists []. split; [reflexivity|]. split; [cbn; lia|].
    intros k v text rest fuel Hk (c & t & -> & Hws & _) Hv Hfuel.
    apply starts_value_not_ws in Hws.
    destruct fuel as [|fuel]; [lia|]. cbn [object_items app].
    rewrite scanstring_escape by exact Hk.
    rewrite skip_ws_head by reflexivity.
    change (58 =? 58) with true. cbv iota.
    cbn [skip_ws]. change (is_ws 32) with true. cbv iota. rewrite Hws.
    rewrite (app_comm_cons t _ c).
    rewrite Hv; [| cbn [dict_weight fold_right] in Hfuel; lia | apply delimited_newline].
    rewrite skip_ws_newline_indent by reflexivity.
    reflexivity.
  - cbn [forallb] in Hj. apply andb_true_iff in Hj. destruct Hj as [Hj2 Hjl].
    unfold json_item in Hj2. cbn [fst snd] in Hj2, H2.
    apply andb_true_iff in Hj2. destruct Hj2 as [Hk2 Hv2].
    destruct key2 as [| | | |k2| | | |]; try discriminate Hk2.
    destruct (IH Hjl) as (T & ET & WT & HT).
    destruct (H2 Hv2 (S level)) as (text2 & E2 & SV2 & W2 & R2).
    exists (44 :: newline_indent (S level) ++ encode_basestring_ascii k2 ++
            lit ": " ++ text2 ++ T).
    split; [|split].
    + cbn [dict_items key_text]. rewrite E2, ET. reflexivity.
    + cbn [dict_weight fold_right List.length snd] in *. rewrite !length_app.
      fold (dict_weight d). lia.
    + intros k v text rest fuel Hk (c & t & -> & Hws & _) Hv Hfuel.
      apply starts_value_not_ws in Hws.
      destruct fuel as [|fuel]; [lia|]. cbn [object_items app].
      cbn [dict_weight fold_right snd] in Hfuel. fold (dict_weight d) in Hfuel.
      rewrite scanstring_escape by exact Hk.
      rewrite skip_ws_head by reflexivity.
      change (58 =? 58) with true. cbv iota.
      cbn [skip_ws]. change (is_ws 32) with true. cbv iota. rewrite Hws.
      rewrite (app_comm_cons t _ c).
      rewrite Hv; [| lia | apply delimited_comma].
      cbn [app]. rewrite skip_ws_head by reflexivity.
      change (44 =? 125) with false. change (44 =? 44) with true. cbv iota.
      unfold encode_basestring_ascii.
      change (lit ": ") with [58; 32].
      repeat (rewrite <- ?app_assoc; cbn [app]).
      rewrite skip_ws_newline_indent by reflexivity.
      change (34 =? 34) with true. cbv iota.
      cbn [app].
      rewrite (HT k2 v2 text2 rest fuel); [reflexivity | exact Hk2 | exact SV2 | exact R2 | lia].
Qed.

(** ** [dict(pairs)] of distinct string keys keeps the pairs *)

Lemma dict_set_new d k v : dict_lookup d k = None -> dict_set d k v = d ++ [(k, v)].
Proof.
  induction d as [|[k' v'] d IH]; cbn [dict_lookup dict_set app]; intros H.
  - reflexivity.
  - destruct (key_eqb k' k); [discriminate H|]. rewrite IH by exact H. reflexivity.
Qed.

Lemma dict_lookup_snoc d k v k' :
  dict_lookup d k' = None -> key_eqb k k' = false ->
  dict_lookup (d ++ [(k, v)]) k' = None.
Proof.
  induction d as [|[k0 v0] d IH]; cbn [dict_lookup app]; intros H E.
  - rewrite E. reflexivity.
  - destruct (key_eqb k0 k'); [discriminate H|]. apply IH; assumption.
Qed.

Lemma dict_lookup_none d k :
  dict_lookup d k = None -> Forall (fun kv => key_eqb (fst kv) k = false) d.
Proof.
  induction d as [|[k' v'] d IH]; cbn [dict_lookup]; intros H; constructor.
  - cbn [fst]. destruct (key_eqb k' k); [discriminate H | reflexivity].
  - apply IH. destruct (key_eqb k' k); [discriminate H | exact H].
Qed.

Lemma dict_of_pairs_acc pairs : forall acc,
  Forall str_key pairs -> unique_keys pairs = true ->
  Forall (fun kv => dict_lookup acc (fst kv) = None) pairs ->
  fold_left (fun d kv => dict_set d (fst kv) (snd kv)) pairs acc = acc ++ pairs.
Proof.
  induction pairs as [|[k v] pairs IH]; intros acc Hs Hu Hacc; cbn [fold_left].
  - rewrite app_nil_r. reflexivity.
  - inversion Hs as [|? ? [ks Hk] Hs']; subst. cbn [fst snd] in *. subst k.
    inversion Hacc as [|? ? Hk Hacc']; subst. cbn [fst] in Hk.
    cbn [unique_keys] in Hu. apply andb_true_iff in Hu. destruct Hu as [Hn Hu].
    destruct (dict_lookup pairs (PStr ks)) eqn:L; [discriminate Hn|].
    rewrite dict_set_new by exact Hk.
    rewrite IH; [rewrite <- app_assoc; reflexivity | exact Hs' | exact Hu |].
    apply dict_lookup_none in L.
    rewrite Forall_forall in *. intros [k' v'] Hin.
    destruct (Hs' _ Hin) as [ks' Hk']. cbn [fst] in *. subst k'.
    apply dict_lookup_snoc; [apply (Hacc' _ Hin)|].
    specialize (L _ Hin). cbn [fst key_eqb] in *.
    rewrite str_eqb_sym. exact L.
Qed.

Lemma dict_of_pairs_unique d :
  Forall str_key d -> unique_keys d = true -> dict_of_pairs d = d.
Proof.
  intros Hs Hu. unfold dict_of_pairs.
  rewrite dict_of_pairs_acc; [reflexivity | exact Hs | exact Hu |].
  apply Forall_forall. intros kv _. reflexivity.
Qed.

Lemma json_items_str_keys d : forallb json_item d = true -> Forall str_key d.
Proof.
  intros H. apply Forall_forall. intros [k v] Hin.
  rewrite forallb_forall in H. specialize (H _ Hin).
  unfold json_item in H. cbn [fst] in H.
  destruct k; try discriminate H. eexists; reflexivity.
Qed.

(** ** The round trip *)

Lemma intstr_head z :
  exists c t, intstr z = c :: t /\ (c = 45 \/ 48 <= c <= 57).
Proof.
  destruct z as [|p|p]; cbn [intstr].
  - exists 48, []. split; [reflexivity | lia].
  - destruct (to_uint_head p) as (d & ds & E & Hd). exists d, ds. split; [exact E | lia].
  - eexists 45, _. split; [reflexivity | lia].
Qed.

Lemma scan_once_number c t fuel :
  (c = 45 \/ 48 <= c <= 57) ->
  scan_once (S fuel) (c :: t)
  = match match_number (c :: t) with
    | Some (res, rest) => Parsed res rest
    | None =>
        if startswith (c :: t) (lit "NaN") then Parsed (PFloat FNaN) (skipn 3 (c :: t))
        else if startswith (c :: t) (lit "Infinity") then
               Parsed (PFloat FInf) (skipn 8 (c :: t))
        else if startswith (c :: t) (lit "-Infinity") then
               Parsed (PFloat FNegInf) (skipn 9 (c :: t))
        else Failed
    end.
Proof.
  intros Hc. cbn [scan_once].
  replace (c =? 34) with false by (symmetry; apply Z.eqb_neq; lia).
  replace (c =? 123) with false by (symmetry; apply Z.eqb_neq; lia).
  replace (c =? 91) with false by (symmetry; apply Z.eqb_neq; lia).
  change (lit "null") with [110; 117; 108; 108].
  change (lit "true") with [116; 114; 117; 101].
  change (lit "false") with [102; 97; 108; 115; 101].
  cbn [startswith].
  replace (110 =? c) with false by (symmetry; apply Z.eqb_neq; lia).
  replace (116 =? c) with false by (symmetry; apply Z.eqb_neq; lia).
  replace (102 =? c) with false by (symmetry; apply Z.eqb_neq; lia).
  reflexivity.
Qed.

Theorem iterencode_reads_back v : json_value v = true -> reads_back v.
Proof.
  induction v as [| b | z | f | s | l IH | l IH | d IH |] using pyval_ind;
    intros Hj level; try discriminate Hj.
  - (* None *)
    exists (lit "null"). split; [reflexivity|]. split; [|split].
    + exists 110, (lit "ull"). repeat split; (lia || discriminate).
    + cbn; lia.
    + intros rest [|fuel] Hf _; [cbn in Hf; lia | reflexivity].
  - (* bool *)
    destruct b.
    + exists (lit "true"). split; [reflexivity|]. split; [|split].
      * exists 116, (lit "rue"). repeat split; (lia || discriminate).
      * cbn; lia.
      * intros rest [|fuel] Hf _; [cbn in Hf; lia | reflexivity].
    + exists (lit "false"). split; [reflexivity|]. split; [|split].
      * exists 102, (lit "alse"). repeat split; (lia || discriminate).
      * cbn; lia.
      * intros rest [|fuel] Hf _; [cbn in Hf; lia | reflexivity].
  - (* int *)
    exists (intstr z). split; [reflexivity|].
    destruct (intstr_head z) as (c & t & E & Hc).
    split; [|split].
    + exists c, t. split; [exact E|].
      repeat split; lia.
    + rewrite E. cbn; lia.
    + intros rest [|fuel] Hf Hr; [cbn in Hf; lia|].
      pose proof (match_number_intstr z rest Hr) as M.
      rewrite E in *. cbn [app] in *.
      rewrite scan_once_number by exact Hc. rewrite M. reflexivity.
  - (* float *)
    destruct f as [| | |repr]; [discriminate Hj | | |].
    + exists (lit "Infinity"). split; [reflexivity|]. split; [|split].
      * exists 73, (lit "nfinity"). repeat split; (lia || discriminate).
      * cbn; lia.
      * intros rest [|fuel] Hf _; [cbn in Hf; lia | reflexivity].
    + exists (lit "-Infinity"). split; [reflexivity|]. split; [|split].
      * exists 45, (lit "Infinity"). repeat split; (lia || discriminate).
      * cbn; lia.
      * intros rest [|fuel] Hf _; [cbn in Hf; lia | reflexivity].
    + cbn [json_value] in Hj.
      exists repr. split; [reflexivity|].
      destruct (float_literal_reads_back repr [] Hj I) as (_ & c & t & E & Hc).
      split; [|split].
      * exists c, t. split; [exact E|]. repeat split; lia.
      * rewrite E. cbn; lia.
      * intros rest [|fuel] Hf Hr; [cbn in Hf; lia|].
        destruct (float_literal_reads_back repr rest Hj Hr) as (M & _).
        rewrite E in *. cbn [app] in *.
        rewrite scan_once_number by exact Hc. rewrite M. reflexivity.
  - (* str *)
    exists (encode_basestring_ascii s). split; [reflexivity|]. split; [|split].
    + eexists 34, _. repeat split; (lia || discriminate).
    + cbn; lia.
    + intros rest [|fuel] Hf _; [cbn in Hf; lia|].
      unfold encode_basestring_ascii. cbn [app scan_once].
      change (34 =? 34) with true. cbv iota.
      rewrite <- app_assoc. cbn [app].
      rewrite scanstring_escape by exact Hj. reflexivity.
  - (* list *)
    cbn [json_value] in Hj.
    destruct l as [|v l].
    { exists (lit "[]"). split; [reflexivity|]. split; [|split].
      - exists 91, [93]. repeat split; (lia || discriminate).
      - cbn; lia.
      - intros rest [|fuel] Hf _; [cbn in Hf; lia | reflexivity]. }
    inversion IH as [|? ? Hv Hl]; subst.
    cbn [forallb] in Hj. apply andb_true_iff in Hj. destruct Hj as [Hjv Hjl].
    destruct (Hv Hjv (S level)) as (text & Ev & (c & t & -> & Hws & H93) & Wv & Rv).
    apply starts_value_not_ws in Hws.
    destruct (list_items_reads_back level l Hl Hjl) as (T & ET & WT & RT).
    exists (91 :: newline_indent (S level) ++ (c :: t) ++ T ++ newline_indent level ++ [93]).
    split; [|split; [|split]].
    + cbn [_iterencode _iterencode_list list_items]. rewrite Ev, ET.
      unfold seq, yield. cbn [fst snd].
      repeat (rewrite <- ?app_assoc; cbn [app]). reflexivity.
    + eexists 91, _. repeat split; (lia || discriminate).
    + cbn [weight List.length]. fold (items_weight (v :: l)).
      cbn [items_weight fold_right]. fold (items_weight l).
      rewrite !length_app. cbn [List.length] in *. lia.
    + intros rest [|fuel] Hf Hr.
      { cbn in Hf; lia. }
      cbn [weight] in Hf. fold (items_weight (v :: l)) in Hf.
      cbn [items_weight fold_right] in Hf. fold (items_weight l) in Hf.
      cbn [app scan_once].
      change (91 =? 34) with false. change (91 =? 123) with false.
      change (91 =? 91) with true. cbv iota.
      repeat (rewrite <- ?app_assoc; cbn [app]).
      rewrite skip_ws_newline_indent by exact Hws.
      replace (c =? 93) with false by (symmetry; apply Z.eqb_neq; exact H93).
      rewrite (app_comm_cons t _ c).
      rewrite (RT v (c :: t) rest fuel); [reflexivity | exact Rv | lia].
  - (* dict *)
    cbn [json_value] in Hj. apply andb_true_iff in Hj. destruct Hj as [Hj Hu].
    fold json_item in Hj. change (forallb json_item d = true) in Hj.
    destruct d as [|[key v] d].
    { exists (lit "{}"). split; [reflexivity|]. split; [|split].
      - exists 123, [125]. repeat split; (lia || discriminate).
      - cbn; lia.
      - intros rest [|fuel] Hf _; [cbn in Hf; lia | reflexivity]. }
    pose proof (json_items_str_keys _ Hj) as Hkeys.
    inversion IH as [|? ? [_ Hv] Hd]; subst. cbn [snd] in Hv.
    cbn [forallb] in Hj. apply andb_true_iff in Hj. destruct Hj as [Hjv Hjd].
    unfold json_item in Hjv. cbn [fst snd] in Hjv.
    apply andb_true_iff in Hjv. destruct Hjv as [Hk Hjv].
    destruct key as [| | | |k| | | |]; try discriminate Hk.
    destruct (Hv Hjv (S level)) as (text & Ev & SV & Wv & Rv).
    destruct (dict_items_reads_back level d Hd Hjd) as (T & ET & WT & RT).
    exists (123 :: newline_indent (S level) ++ encode_basestring_ascii k ++ lit ": " ++
            text ++ T ++ newline_indent level ++ [125]).
    split; [|split; [|split]].
    + cbn [_iterencode _iterencode_dict dict_items key_text]. rewrite Ev, ET.
      unfold seq, yield. cbn [fst snd].
      repeat (rewrite <- ?app_assoc; cbn [app]). reflexivity.
    + eexists 123, _. repeat split; (lia || discriminate).
    + cbn [weight List.length]. fold (dict_weight ((PStr k, v) :: d)).
      cbn [dict_weight fold_right snd]. fold (dict_weight d).
      rewrite !length_app. cbn [List.length] in *. lia.
    + intros rest [|fuel] Hf Hr.
      { cbn in Hf; lia. }
      cbn [weight] in Hf. fold (dict_weight ((PStr k, v) :: d)) in Hf.
      cbn [dict_weight fold_right snd] in Hf. fold (dict_weight d) in Hf.
      cbn [app scan_once].
      change (123 =? 34) with false. change (123 =? 123) with true. cbv iota.
      unfold encode_basestring_ascii. change (lit ": ") with [58; 32].
      repeat (rewrite <- ?app_assoc; cbn [app]).
      rewrite skip_ws_newline_indent by reflexivity.
      change (34 =? 125) with false. change (34 =? 34) with true. cbv iota.
      rewrite (RT k v text rest fuel); [| exact Hk | exact SV | exact Rv | lia].
      cbn [parse_map]. rewrite dict_of_pairs_unique by assumption. reflexivity.
Qed.

(** Whatever [json.dump] writes for a JSON value, [json.loads] reads back as
    that value. *)
Theorem loads_dump v :
  json_value v = true ->
  exists text, dump v = (text, None) /\ loads text = Ok v.
Proof.
  intros Hj.
  destruct (iterencode_reads_back v Hj O) as (text & E & (c & t & -> & Hc & _) & W & R).
  exists (c :: t). split; [exact E|].
  unfold loads. cbn [startswith].
  replace (65279 =? c) with false by (symmetry; apply Z.eqb_neq; lia).
  cbn [andb]. rewrite skip_ws_head by (apply starts_value_not_ws; exact Hc).
  rewrite <- (app_nil_r (c :: t)) at 2.
  rewrite R; [reflexivity | lia | exact I].
Qed.

(** ** When [json.dump] fails *)

Lemma snd_seq (a b : emit) :
  snd (a ;;; b) = match snd a with None => snd b | Some e => Some e end.
Proof. destruct a as [out [e|]]; reflexivity. Qed.

Lemma list_items_outcome enc sep l :
  Forall (fun v => snd (enc v) = outcome (serializable v)) l ->
  forall first, snd (list_items enc sep l first) = outcome (forallb serializable l).
Proof.
  induction 1 as [|v l Hv _ IH]; intros first; cbn [list_items forallb].
  - reflexivity.
  - rewrite !snd_seq, Hv, IH.
    destruct first; cbn [yield snd]; destruct (serializable v); reflexivity.
Qed.

Lemma dict_items_outcome enc sep d :
  Forall (fun kv => snd (enc (snd kv)) = outcome (serializable (snd kv))) d ->
  forall first,
    snd (dict_items enc sep d first)
    = outcome (forallb (fun kv =>
                 match key_text (fst kv) with Some _ => true | None => false end
                 && serializable (snd kv)) d).
Proof.
  induction 1 as [|[k v] d Hv _ IH]; intros first; cbn [dict_items forallb fst snd].
  - reflexivity.
  - cbn [snd] in Hv. destruct (key_text k) as [ks|]; [|reflexivity].
    rewrite !snd_seq, Hv, IH.
    destruct first; cbn [yield snd andb]; destruct (serializable v); reflexivity.
Qed.

(** [json.dump] fails exactly on the values that are not [serializable], and
    then with [TypeError]. *)
Theorem iterencode_outcome v : forall level,
  snd (_iterencode v level) = outcome (serializable v).
Proof.
  induction v as [| b | z | f | s | l IH | l IH | d IH |] using pyval_ind;
    intros level; try reflexivity.
  - destruct b; reflexivity.
  - cbn [_iterencode serializable]. destruct l as [|v l]; [reflexivity|].
    unfold _iterencode_list. rewrite !snd_seq. cbn [yield snd].
    rewrite list_items_outcome.
    + destruct (forallb serializable (v :: l)); reflexivity.
    + eapply Forall_impl; [|exact IH]. cbv beta. intros a Ha. apply Ha.
  - cbn [_iterencode serializable]. destruct l as [|v l]; [reflexivity|].
    unfold _iterencode_list. rewrite !snd_seq. cbn [yield snd].
    rewrite list_items_outcome.
    + destruct (forallb serializable (v :: l)); reflexivity.
    + eapply Forall_impl; [|exact IH]. cbv beta. intros a Ha. apply Ha.
  - cbn [_iterencode serializable]. destruct d as [|kv d]; [reflexivity|].
    unfold _iterencode_dict. rewrite !snd_seq. cbn [yield snd].
    rewrite dict_items_outcome.
    + match goal with |- context [forallb ?f ?l] => destruct (forallb f l) end;
        reflexivity.
    + eapply Forall_impl; [|exact IH]. cbv beta. intros a [_ Ha]. apply Ha.
Qed.

(** ** The recursion budget of [loads] is never exhausted *)

Lemma skip_ws_length s : (List.length (skip_ws s) <= List.length s)%nat.
Proof.
  induction s as [|c s IH]; cbn [skip_ws]; [lia|].
  destruct (is_ws c); cbn [List.length]; lia.
Qed.

Lemma append_char_inv c r a rest :
  append_char c r = Parsed a rest -> exists a', r = Parsed a' rest.
Proof. destruct r; cbn; intros H; try discriminate. injection H as _ ->. eauto. Qed.

Lemma scanstring_shorter n : forall s a rest,
  (List.length s <= n)%nat ->
  scanstring s = Parsed a rest -> (List.length rest < List.length s)%nat.
Proof.
  induction n as [|n IH]; intros s a rest Hn H.
  - destruct s; [discriminate H | cbn in Hn; lia].
  - destruct s as [|c s1]; [discriminate H|]. cbn [scanstring] in H.
    cbn [List.length] in *.
    repeat match type of H with
    | Parsed _ _ = Parsed _ _ => injection H as _ <-; lia
    | Failed = _ => discriminate H
    | append_char _ (scanstring ?t) = Parsed _ _ =>
        apply append_char_inv in H; destruct H as [a' H];
        apply IH in H; cbn [List.length] in *; lia
    | (if ?b then _ else _) = _ => destruct b
    | match ?x with _ => _ end = _ => destruct x; cbn [List.length] in *
    end.
Qed.

Lemma scanstring_budget s : scanstring s <> OutOfFuel.
Proof.
  assert (G : forall n s, (List.length s <= n)%nat -> scanstring s <> OutOfFuel).
  { clear s. induction n as [|n IH]; intros s Hn.
    - destruct s; [discriminate | cbn in Hn; lia].
    - destruct s as [|c s1]; [discriminate|]. cbn [scanstring].
      cbn [List.length] in *.
      repeat match goal with
      | |- Parsed _ _ <> _ => discriminate
      | |- Failed <> _ => discriminate
      | |- append_char _ (scanstring ?t) <> _ =>
          let E := fresh in
          pose proof (IH t) as E; destruct (scanstring t);
          [discriminate | discriminate | exfalso; apply E; [cbn [List.length] in *; lia | reflexivity]]
      | |- (if ?b then _ else _) <> _ => destruct b
      | |- match ?x with _ => _ end <> _ => destruct x; cbn [List.length] in *
      end. }
  apply (G (List.length s)). lia.
Qed.

Lemma span_digits_length s :
  (List.length (snd (span_digits s)) <= List.length s)%nat.
Proof.
  induction s as [|c s IH]; cbn [span_digits]; [cbn; lia|].
  destruct (is_digit c); [|cbn; lia].
  destruct (span_digits s) as [ds rest]. cbn [snd List.length] in *. lia.
Qed.

Lemma match_frac_length s : (List.length (snd (match_frac s)) <= List.length s)%nat.
Proof.
  unfold match_frac. destruct s as [|c s1]; [cbn; lia|].
  destruct (c =? 46); [|cbn; lia].
  pose proof (span_digits_length s1) as L.
  destruct (span_digits s1) as [[|d ds] rest]; cbn [snd List.length] in *; lia.
Qed.

Lemma match_exp_length s : (List.length (snd (match_exp s)) <= List.length s)%nat.
Proof.
  unfold match_exp. destruct s as [|e s1]; [cbn; lia|].
  destruct ((e =? 101) || (e =? 69)); [|cbn; lia].
  destruct s1 as [|c s'].
  - cbn. lia.
  - destruct ((c =? 45) || (c =? 43)).
    + pose proof (span_digits_length s') as L.
      destruct (span_digits s') as [[|d ds] rest]; cbn [snd List.length] in *; lia.
    + pose proof (span_digits_length (c :: s')) as L.
      destruct (span_digits (c :: s')) as [[|d ds] rest]; cbn [snd List.length] in *; lia.
Qed.

Lemma match_integer_shorter s neg ds rest :
  match_integer s = Some (neg, ds, rest) -> (List.length rest < List.length s)%nat.
Proof.
  unfold match_integer. intros H.
  destruct s as [|c s']; [discriminate H|].
  destruct (c =? 45).
  - destruct s' as [|c' s2]; [discriminate H|].
    destruct (c' =? 48); [inversion H; subst; cbn [List.length]; lia|].
    destruct (is_digit c'); [|discriminate H].
    pose proof (span_digits_length s2) as L.
    destruct (span_digits s2) as [ds' rest'].
    inversion H; subst. cbn [snd List.length] in *. lia.
  - destruct (c =? 48); [inversion H; subst; cbn [List.length]; lia|].
    destruct (is_digit c); [|discriminate H].
    pose proof (span_digits_length s') as L.
    destruct (span_digits s') as [ds' rest'].
    inversion H; subst. cbn [snd List.length] in *. lia.
Qed.

Lemma match_number_shorter s v rest :
  match_number s = Some (v, rest) -> (List.length rest < List.length s)%nat.
Proof.
  unfold match_number. intros H.
  destruct (match_integer s) as [[[neg ds] s1]|] eqn:E; [|discriminate H].
  apply match_integer_shorter in E.
  pose proof (match_frac_length s1) as L1.
  destruct (match_frac s1) as [frac s2]. cbn [snd] in L1.
  pose proof (match_exp_length s2) as L2.
  destruct (match_exp s2) as [exp s3]. cbn [snd] in L2.
  destruct frac, exp; injection H as _ <-; lia.
Qed.

Lemma parse_map_inv {A B} (f : A -> B) r b rest :
  parse_map f r = Parsed b rest -> exists a, r = Parsed a rest.
Proof. destruct r; cbn; intros H; try discriminate. injection H as _ ->. eauto. Qed.

Lemma parse_map_budget {A B} (f : A -> B) r :
  r <> OutOfFuel -> parse_map f r <> OutOfFuel.
Proof. destruct r; cbn; congruence. Qed.

Lemma skip_ws_cons s c t :
  skip_ws s = c :: t -> (S (List.length t) <= List.length s)%nat.
Proof.
  intros H. pose proof (skip_ws_length s) as L. rewrite H in L. exact L.
Qed.

Lemma within_budget_map {A B} (f : A -> B) r n :
  within_budget r n -> within_budget (parse_map f r) n.
Proof.
  intros [H1 H2]. split; [apply parse_map_budget; exact H1|].
  intros b rest E. apply parse_map_inv in E. destruct E as [a E]. eapply H2, E.
Qed.

Lemma within_budget_weaken {A} (r : parse A) n m :
  (n <= m)%nat -> within_budget r n -> within_budget r m.
Proof. intros L [H1 H2]. split; [exact H1|]. intros a rest E. specialize (H2 _ _ E). lia. Qed.

Lemma within_budget_parsed {A} (a : A) rest n :
  (List.length rest < n)%nat -> within_budget (Parsed a rest) n.
Proof. intros L. split; [discriminate|]. intros a' r E. injection E as _ <-. exact L. Qed.

Lemma within_budget_failed {A} n : within_budget (@Failed A) n.
Proof. split; [discriminate|]. intros a r E. discriminate E. Qed.

Lemma skipn_shorter (n : nat) (s : str) :
  (0 < n)%nat -> s <> [] -> (List.length (skipn n s) < List.length s)%nat.
Proof.
  intros Hn Hs. rewrite length_skipn. destruct s; [congruence|]. cbn [List.length]. lia.
Qed.

Lemma scan_budget fuel :
  (forall s, (2 * List.length s < fuel)%nat ->
             within_budget (scan_once fuel s) (List.length s)) /\
  (forall s, (2 * List.length s < fuel)%nat ->
             within_budget (object_items fuel s) (List.length s)) /\
  (forall s, (2 * List.length s + 1 < fuel)%nat ->
             within_budget (array_items fuel s) (List.length s)).
Proof.
  induction fuel as [|fuel (IHs & IHo & IHa)].
  { repeat split; intros; lia. }
  split; [|split]; intros s Hs.
  - (* scan_once *)
    cbn [scan_once]. destruct s as [|c s']; [apply within_budget_failed|].
    cbn [List.length] in *.
    destruct (c =? 34).
    { apply within_budget_map. split; [apply scanstring_budget|].
      intros a rest E. apply (scanstring_shorter (List.length s')) in E; lia. }
    destruct (c =? 123).
    { destruct (skip_ws s') as [|c1 s1] eqn:W; [apply within_budget_failed|].
      apply skip_ws_cons in W.
      destruct (c1 =? 125); [apply within_budget_parsed; lia|].
      destruct (c1 =? 34); [|apply within_budget_failed].
      apply within_budget_map.
      apply (within_budget_weaken _ (List.length s1)); [lia|]. apply IHo. lia. }
    destruct (c =? 91).
    { destruct (skip_ws s') as [|c1 s1] eqn:W; [apply within_budget_failed|].
      apply skip_ws_cons in W.
      destruct (c1 =? 93); [apply within_budget_parsed; lia|].
      apply within_budget_map.
      apply (within_budget_weaken _ (List.length (c1 :: s1)));
        [cbn [List.length]; lia|].
      apply IHa. cbn [List.length]. lia. }
    assert (Sk : forall {A} (a : A) n, (0 < n)%nat ->
              within_budget (Parsed a (skipn n (c :: s'))) (S (List.length s'))).
    { intros A a n Hn. apply within_budget_parsed.
      change (S (List.length s')) with (List.length (c :: s')).
      apply skipn_shorter; [exact Hn | discriminate]. }
    destruct (startswith (c :: s') (lit "null")); [apply Sk; lia|].
    destruct (startswith (c :: s') (lit "true")); [apply Sk; lia|].
    destruct (startswith (c :: s') (lit "false")); [apply Sk; lia|].
    destruct (match_number (c :: s')) as [[res rest]|] eqn:M.
    { apply match_number_shorter in M. apply within_budget_parsed. exact M. }
    destruct (startswith (c :: s') (lit "NaN")); [apply Sk; lia|].
    destruct (startswith (c :: s') (lit "Infinity")); [apply Sk; lia|].
    destruct (startswith (c :: s') (lit "-Infinity")); [apply Sk; lia|].
    apply within_budget_failed.
  - (* object_items *)
    cbn [object_items].
    pose proof (scanstring_budget s) as B.
    destruct (scanstring s) as [key s1| |] eqn:K;
      [|apply within_budget_failed|congruence].
    apply (scanstring_shorter (List.length s)) in K; [|lia].
    destruct (skip_ws s1) as [|colon s2] eqn:W1; [apply within_budget_failed|].
    apply skip_ws_cons in W1.
    destruct (colon =? 58); [|apply within_budget_failed].
    pose proof (skip_ws_length s2) as W2.
    destruct (IHs (skip_ws s2) ltac:(lia)) as [Bv Pv].
    destruct (scan_once fuel (skip_ws s2)) as [value s3| |];
      [|apply within_budget_failed|congruence].
    specialize (Pv _ _ eq_refl).
    destruct (skip_ws s3) as [|c s4] eqn:W3; [apply within_budget_failed|].
    apply skip_ws_cons in W3.
    destruct (c =? 125); [apply within_budget_parsed; lia|].
    destruct (c =? 44); [|apply within_budget_failed].
    destruct (skip_ws s4) as [|q s5] eqn:W4; [apply within_budget_failed|].
    apply skip_ws_cons in W4.
    destruct (q =? 34); [|apply within_budget_failed].
    apply within_budget_map.
    apply (within_budget_weaken _ (List.length s5)); [lia|]. apply IHo. lia.
  - (* array_items *)
    cbn [array_items].
    destruct (IHs s ltac:(lia)) as [Bv Pv].
    destruct (scan_once fuel s) as [value s1| |];
      [|apply within_budget_failed|congruence].
    specialize (Pv _ _ eq_refl).
    destruct (skip_ws s1) as [|c s2] eqn:W1; [apply within_budget_failed|].
    apply skip_ws_cons in W1.
    destruct (c =? 93); [apply within_budget_parsed; lia|].
    destruct (c =? 44); [|apply within_budget_failed].
    apply within_budget_map.
    pose proof (skip_ws_length s2) as W2.
    apply (within_budget_weaken _ (List.length (skip_ws s2))); [lia|].
    apply IHa. lia.
Qed.

(** [loads] gives the scanner a budget it cannot exhaust: a [JSONDecodeError]
    of the model is one of the scanner, never a lack of fuel. *)
Theorem loads_budget s :
  scan_once (S (2 * List.length s)) (skip_ws s) <> OutOfFuel.
Proof.
  pose proof (skip_ws_length s) as L.
  apply (proj1 (scan_budget (S (2 * List.length s)))). lia.
Qed.

End JsonFacts.

(* ================================================================== *)
(** * The configuration handler: validation, failure, round trip *)
(* ================================================================== *)

Module ConfigHandlerFacts.
Import Py Json JsonFacts ConfigHandler.
Local Open Scope py_scope.

(** ** Definitions *)

(** The field [name] of [d] is present and has type [t]. *)
Definition has_field (d : dict) (name : string) (t : pytype) : bool :=
  match dict_lookup d (PStr (lit name)) with
  | Some v => isinstance v t
  | None => false
  end.

(** The object stored under [name], empty when there is none. *)
Definition object_field (d : dict) (name : string) : dict :=
  match dict_lookup d (PStr (lit name)) with
  | Some (PDict o) => o
  | _ => []
  end.

(** The schema as the specification words it: [appName: string],
    [version: string], [settings: object] with [ui: object] ([gui: boolean],
    [theme: string]) and [logLevel: string], [paths: object] with
    [cacheDirectory: string] and [logFile: string]. *)
Definition satisfies_schema (d : dict) : bool :=
  has_field d "appName" Tstr && has_field d "version" Tstr &&
  has_field d "settings" Tdict && has_field d "paths" Tdict &&
  (let settings := object_field d "settings" in
   has_field settings "ui" Tdict && has_field settings "logLevel" Tstr &&
   (let ui := object_field settings "ui" in
    has_field ui "gui" Tbool && has_field ui "theme" Tstr)) &&
  (let paths := object_field d "paths" in
   has_field paths "cacheDirectory" Tstr && has_field paths "logFile" Tstr).

Definition sample_ui : dict :=
  [(PStr (lit "gui"), PBool true); (PStr (lit "theme"), PStr (lit "dark"))].
Definition sample_settings : dict :=
  [(PStr (lit "ui"), PDict sample_ui); (PStr (lit "logLevel"), PStr (lit "INFO"))].
Definition sample_paths : dict :=
  [(PStr (lit "cacheDirectory"), PStr (lit "cache"));
   (PStr (lit "logFile"), PStr (lit "logs/app.log"))].
Definition sample_config : dict :=
  [(PStr (lit "appName"), PStr (lit "CacheLauncher"));
   (PStr (lit "version"), PStr (lit "1.0"));
   (PStr (lit "settings"), PDict sample_settings);
   (PStr (lit "paths"), PDict sample_paths)].

(** A store holding the sample document, as [save_config] leaves it. *)
Definition sample_store : filesystem :=
  {| file := Some (fst (dump (PDict sample_config))); opens := [ModeW] |}.

Definition invalid_config : dict :=
  [(PStr (lit "appName"), PStr (lit "CacheLauncher")); (PStr (lit "version"), PInt 1)].

Definition unserializable_config : dict :=
  sample_config ++ [(PStr (lit "handle"), PObject)].

Definition tuple_config : dict :=
  sample_config ++ [(PStr (lit "recent"), PTuple [PStr (lit "a"); PStr (lit "b")])].

(** The sample document with a key added at the top level and in each of
    [settings], [ui] and [paths]. *)
Definition extended_config : dict :=
  [(PStr (lit "appName"), PStr (lit "CacheLauncher"));
   (PStr (lit "notes"), PList [PInt 1; PNone]);
   (PStr (lit "version"), PStr (lit "1.0"));
   (PStr (lit "settings"),
    PDict [(PStr (lit "ui"),
            PDict (sample_ui ++ [(PStr (lit "scale"), PInt 2)]));
           (PStr (lit "locale"), PStr (lit "en"));
           (PStr (lit "logLevel"), PStr (lit "INFO"))]);
   (PStr (lit "paths"),
    PDict (sample_paths ++ [(PStr (lit "tmp"), PDict [])]))].

(** The sample document with an [object()] under an extra key of [ui]. *)
Definition widget_config : dict :=
  [(PStr (lit "appName"), PStr (lit "CacheLauncher"));
   (PStr (lit "version"), PStr (lit "1.0"));
   (PStr (lit "settings"),
    PDict [(PStr (lit "ui"),
            PDict (sample_ui ++ [(PStr (lit "widget"), PObject)]));
           (PStr (lit "logLevel"), PStr (lit "INFO"))]);
   (PStr (lit "paths"), PDict sample_paths)].

(** ** The validator decides the schema *)

Lemma check_keys_dict d keys :
  check_keys (PDict d) keys
  = Ok (forallb (fun kt =>
                   match dict_lookup d (PStr (fst kt)) with
                   | Some v => isinstance v (snd kt)
                   | None => false
                   end) keys).
Proof.
  induction keys as [|[key t] keys IH]; cbn [check_keys forallb fst snd].
  - reflexivity.
  - cbn [py_contains py_getitem bind hashable].
    destruct (dict_lookup d (PStr key)) as [v|]; cbn [negb andb bind].
    + destruct (isinstance v t); cbn [negb andb]; [exact IH | reflexivity].
    + reflexivity.
Qed.

Lemma get_object_field d name v :
  dict_lookup d (PStr (lit name)) = Some v -> isinstance v Tdict = true ->
  py_get (PDict d) (lit name) (PDict []) = Ok (PDict (object_field d name)).
Proof.
  intros L T. unfold py_get, object_field. rewrite L.
  destruct v; try discriminate T. reflexivity.
Qed.

(** On a dict the validator raises nothing and decides the schema. *)
Theorem config_isvalid_dict d : _config_isvalid (PDict d) = Ok (satisfies_schema d).
Proof.
  unfold _config_isvalid, satisfies_schema, required_keys, settings_keys, ui_keys,
    paths_keys, has_field.
  rewrite check_keys_dict. cbn [forallb fst snd bind].
  destruct (dict_lookup d (PStr (lit "appName"))) as [v1|]; [|reflexivity].
  destruct (isinstance v1 Tstr); [|reflexivity].
  destruct (dict_lookup d (PStr (lit "version"))) as [v2|]; [|reflexivity].
  destruct (isinstance v2 Tstr); [|reflexivity].
  destruct (dict_lookup d (PStr (lit "settings"))) as [v3|] eqn:L3; [|reflexivity].
  destruct (isinstance v3 Tdict) eqn:T3; [|reflexivity].
  destruct (dict_lookup d (PStr (lit "paths"))) as [v4|] eqn:L4;
    [|cbn [andb negb]; reflexivity].
  destruct (isinstance v4 Tdict) eqn:T4; [|cbn [andb negb]; reflexivity].
  cbn [andb negb].
  rewrite (get_object_field d "settings" v3 L3 T3). cbn [bind].
  rewrite check_keys_dict. cbn [forallb fst snd bind andb].
  set (settings := object_field d "settings").
  destruct (dict_lookup settings (PStr (lit "ui"))) as [v5|] eqn:L5; [|reflexivity].
  destruct (isinstance v5 Tdict) eqn:T5; [|reflexivity].
  destruct (dict_lookup settings (PStr (lit "logLevel"))) as [v6|];
    [|cbn [andb negb]; reflexivity].
  destruct (isinstance v6 Tstr); [|cbn [andb negb]; reflexivity].
  cbn [andb negb].
  rewrite (get_object_field settings "ui" v5 L5 T5). cbn [bind].
  rewrite check_keys_dict. cbn [forallb fst snd bind andb].
  set (ui := object_field settings "ui").
  destruct (dict_lookup ui (PStr (lit "gui"))) as [v7|]; [|reflexivity].
  destruct (isinstance v7 Tbool); [|reflexivity].
  destruct (dict_lookup ui (PStr (lit "theme"))) as [v8|];
    [|cbn [andb negb]; reflexivity].
  destruct (isinstance v8 Tstr); [|cbn [andb negb]; reflexivity].
  cbn [andb negb].
  rewrite (get_object_field d "paths" v4 L4 T4). cbn [bind].
  rewrite check_keys_dict. cbn [forallb fst snd bind andb].
  set (paths := object_field d "paths").
  destruct (dict_lookup paths (PStr (lit "cacheDirectory"))) as [v9|]; [|reflexivity].
  destruct (isinstance v9 Tstr); [|reflexivity].
  destruct (dict_lookup paths (PStr (lit "logFile"))) as [v10|];
    [|cbn [andb negb]; reflexivity].
  destruct (isinstance v10 Tstr); reflexivity.
Qed.

(** ** Saving and reading back *)

Lemma save_config_dict fs d :
  save_config fs (PDict d)
  = if satisfies_schema d then
      (match snd (dump (PDict d)) with
       | None => Ok tt
       | Some TypeError => Raise ConfigSerializationError
       | Some e => Raise e
       end,
       {| file := Some (fst (dump (PDict d))); opens := opens fs ++ [ModeW] |})
    else (Raise ConfigSaveValidationError, fs).
Proof.
  unfold save_config. rewrite config_isvalid_dict.
  destruct (satisfies_schema d); [|reflexivity].
  destruct (dump (PDict d)) as [text [e|]]; cbn [fst snd]; [|reflexivity].
  unfold except. destruct e; reflexivity.
Qed.

(** A JSON document that satisfies the schema is read back as written. *)
Lemma save_get_roundtrip fs d :
  satisfies_schema d = true -> json_value (PDict d) = true ->
  fst (save_config fs (PDict d)) = Ok tt /\
  fst (get_config (snd (save_config fs (PDict d)))) = Ok (PDict d).
Proof.
  intros Hs Hj. rewrite save_config_dict, Hs.
  destruct (loads_dump (PDict d) Hj) as (text & E & L).
  rewrite E. cbn [fst snd]. split; [reflexivity|].
  unfold get_config. cbn [file fst]. rewrite L. cbn [bind].
  rewrite config_isvalid_dict, Hs. reflexivity.
Qed.

(** C1 (amended).  [save_config] applied to a dict that fails validation raises
    the validation error and leaves the store as it was, the file neither opened
    nor written.  Applied to a dict that passes validation but holds a value
    [json.dump] cannot serialize, it raises the serialization error after the
    file has been opened for writing: the previous content is gone and the file
    holds the text written before the failure. *)
Theorem save_config_failures fs d :
  (_config_isvalid (PDict d) = Ok false ->
   save_config fs (PDict d) = (Raise ConfigSaveValidationError, fs)) /\
  (_config_isvalid (PDict d) = Ok true -> serializable (PDict d) = false ->
   save_config fs (PDict d)
   = (Raise ConfigSerializationError,
      {| file := Some (fst (dump (PDict d))); opens := opens fs ++ [ModeW] |})).
Proof.
  rewrite config_isvalid_dict, save_config_dict. split.
  - intros H. injection H as ->. reflexivity.
  - intros H Hser. injection H as ->.
    unfold dump. rewrite iterencode_outcome, Hser. reflexivity.
Qed.

Lemma save_config_failures_witness :
  save_config sample_store (PDict invalid_config)
  = (Raise ConfigSaveValidationError, sample_store) /\
  save_config sample_store (PDict unserializable_config)
  = (Raise ConfigSerializationError,
     {| file := Some (fst (dump (PDict unserializable_config)));
        opens := [ModeW; ModeW] |}).
Proof.
  split.
  - apply (proj1 (save_config_failures sample_store invalid_config)).
    vm_compute. reflexivity.
  - apply (proj2 (save_config_failures sample_store unserializable_config));
      vm_compute; reflexivity.
Defined.

(** C1 as stated fails: a document that passes validation and holds an
    unserializable value makes [save_config] raise the serialization error, and
    the stored text is no longer the one stored before. *)
Lemma save_config_partial_write_counterexample :
  _config_isvalid (PDict unserializable_config) = Ok true /\
  serializable (PDict unserializable_config) = false /\
  fst (save_config sample_store (PDict unserializable_config))
  = Raise ConfigSerializationError /\
  file (snd (save_config sample_store (PDict unserializable_config)))
  <> file sample_store.
Proof.
  repeat split; try (vm_compute; reflexivity).
  vm_compute. intros H. discriminate H.
Qed.




(** C3 fails on the code: a file holding the JSON text [null] parses, the
    parsed document is no object, and [get_config] raises [TypeError] (from
    ["appName" not in config_data]) instead of the validation error. *)
Theorem get_config_null_raises_TypeError :
  get_config {| file := Some (lit "null"); opens := [] |}
  = (Raise TypeError, {| file := Some (lit "null"); opens := [ModeR] |}).
Proof. vm_compute. reflexivity. Qed.

(** [get_config] on an absent file, on a file that does not parse, and on a
    file that holds a JSON object. *)
Lemma get_config_absent fs :
  file fs = None -> get_config fs = (Raise FileNotFoundError, fs).
Proof. intros F. unfold get_config. rewrite F. reflexivity. Qed.

Lemma get_config_unparsable fs content :
  file fs = Some content -> loads content = Raise JSONDecodeError ->
  fst (get_config fs) = Raise ConfigParseError.
Proof. intros F L. unfold get_config. rewrite F. cbn [fst]. rewrite L. reflexivity. Qed.

Lemma get_config_object fs content d :
  file fs = Some content -> loads content = Ok (PDict d) ->
  fst (get_config fs)
  = if satisfies_schema d then Ok (PDict d) else Raise ConfigValidationError.
Proof.
  intros F L. unfold get_config. rewrite F. cbn [fst]. rewrite L. cbn [bind].
  rewrite config_isvalid_dict. destruct (satisfies_schema d); reflexivity.
Qed.

(** ** Extra keys *)

Lemma dict_lookup_app d extra k v :
  dict_lookup d k = Some v -> dict_lookup (d ++ extra) k = Some v.
Proof.
  induction d as [|[k' v'] d IH]; cbn [dict_lookup app]; intros H.
  - discriminate H.
  - destruct (key_eqb k' k); [exact H | apply IH; exact H].
Qed.

Lemma has_field_app d extra name t :
  has_field d name t = true -> has_field (d ++ extra) name t = true.
Proof.
  unfold has_field. destruct (dict_lookup d (PStr (lit name))) as [v|] eqn:L.
  - rewrite (dict_lookup_app _ extra _ _ L). trivial.
  - discriminate.
Qed.

Lemma object_field_app d extra name :
  has_field d name Tdict = true ->
  object_field (d ++ extra) name = object_field d name.
Proof.
  unfold has_field, object_field.
  destruct (dict_lookup d (PStr (lit name))) as [v|] eqn:L; [|discriminate].
  rewrite (dict_lookup_app _ extra _ _ L). reflexivity.
Qed.

(** Items added after those of a valid document leave it valid, whatever their
    keys and values. *)
Lemma satisfies_schema_app d extra :
  satisfies_schema d = true -> satisfies_schema (d ++ extra) = true.
Proof.
  unfold satisfies_schema. cbv zeta. intros H.
  destruct (has_field d "appName" Tstr) eqn:A; [|discriminate H].
  destruct (has_field d "version" Tstr) eqn:V; [|discriminate H].
  destruct (has_field d "settings" Tdict) eqn:S; [|discriminate H].
  destruct (has_field d "paths" Tdict) eqn:P; [|discriminate H].
  rewrite !object_field_app by assumption.
  rewrite !has_field_app by assumption.
  exact H.
Qed.




End ConfigHandlerFacts.

(* ================================================================== *)
(** * The API client: expiry, construction, token refresh, documentation index *)
(* ================================================================== *)

Module NinjaAPIFacts.
Import Py JsonFacts NinjaAPI.
Local Open Scope py_scope.

(** ** Definitions *)

Definition sample_credential : OAUTHResponse :=
  {| access_token := PStr (lit "abc"); token_type := PStr (lit "Bearer");
     expires_in := PInt 3600; scope := PStr (lit "monitoring management control");
     obtained_at := 1000%Q |}.

(** An environment with the five variables set, and a name for the region. *)
Definition sample_environ (region : str) : string -> option str :=
  fun var =>
    if String.eqb var "NINJA_ENVIRONMENT" then Some region
    else if String.eqb var "NINJA_CLIENT_ID" then Some (lit "id")
    else if String.eqb var "NINJA_CLIENT_SECRET" then Some (lit "secret")
    else if String.eqb var "NINJA_BASE_URL" then Some (lit "https://app.ninjarmm.com")
    else if String.eqb var "NINJA_DOCS_PATH" then Some (lit "/apidocs/core")
    else None.

(** A world in which the token endpoint and the documentation endpoint would
    answer, had they been asked. *)
Definition sample_world (region : str) : world :=
  {| environ := sample_environ region;
     clock := 1000%Q;
     network :=
       [(1%Q, Some {| status_code := 200;
                      json := Ok (PDict [(PStr (lit "access_token"), PStr (lit "abc"));
                                         (PStr (lit "token_type"), PStr (lit "Bearer"));
                                         (PStr (lit "expires_in"), PInt 3600);
                                         (PStr (lit "scope"), PStr (lit "monitoring"))]) |});
        (1%Q, Some {| status_code := 200; json := Ok (PDict []) |})];
     wire := [];
     heap := [] |}.

(** The credential request [self] sends. *)
Definition token_request (self : NinjaRMMAPI) : sent :=
  TokenRequest (_token_url self) (_client_id self) (_client_secret self).

(** The request [request method path kwargs] sends with credential [o]. *)
Definition api_request (self : NinjaRMMAPI) (method : verb) (path : str)
  (kwargs : options) (o : OAUTHResponse) : sent :=
  ApiRequest method (_base_url self) path (token_type o, access_token o)
             match timeout kwargs with Some t => t | None => PInt 10 end
             (other kwargs).

(** [request] once [_authenticate] has returned. *)
Definition send_request (method : verb) (path : str) (kwargs : options)
  : Method pyval :=
  then_ current_credential
    (fun oauth self =>
       then_ (exchange (api_request self method path kwargs oauth))
         (fun response =>
            then_ (lift (raise_for_status response))
                  (fun _ => lift (json response))) self).

(** A client whose credential is the first object of the heap. *)
Definition sample_client : NinjaRMMAPI :=
  {| _environment := Some (lit "app"); _client_id := Some (lit "id");
     _client_secret := Some (lit "secret");
     _base_url := Some (lit "https://app.ninjarmm.com");
     _docs_path := Some (lit "/apidocs/core");
     _token_url := lit "https://app.ninjarmm.com/ws/oauth/token";
     _oauth := O; documentation := PDict [] |}.

(** A world that holds the sample credential, whose clock shows [now] and
    whose network answers a credential request and one request more. *)
Definition world_at (now : time) : world :=
  {| environ := sample_environ (lit "app"); clock := now;
     network := network (sample_world (lit "app"));
     wire := []; heap := [sample_credential] |}.

Definition no_options : options := {| timeout := None; other := [] |}.

(** An entry of [sorted_docs["paths"]]: the lowercased tag, the description,
    and for each HTTP method the operations recorded, by identifier. *)
Record entry : Type := {
  e_key : str;
  e_description : pyval;
  e_methods : list (str * dict)
}.

Definition index := list entry.

Definition methods_object (ms : list (str * dict)) : pyval :=
  PDict (map (fun m => (PStr (fst m), PDict (snd m))) ms).

Definition entry_object (e : entry) : pyval :=
  PDict [(PStr (lit "description"), e_description e);
         (PStr (lit "methods"), methods_object (e_methods e))].

(** The dict an index stands for. *)
Definition index_dict (A : index) : dict :=
  map (fun e => (PStr (e_key e), entry_object e)) A.

Fixpoint find_entry (A : index) (k : str) : option entry :=
  match A with
  | [] => None
  | e :: A' => if str_eqb (e_key e) k then Some e else find_entry A' k
  end.

(** Replace the first entry with key [k], or add one at the end; the key kept
    is the one already there. *)
Fixpoint set_entry (A : index) (k : str) (description : pyval)
  (ms : list (str * dict)) : index :=
  match A with
  | [] => [{| e_key := k; e_description := description; e_methods := ms |}]
  | e :: A' =>
      if str_eqb (e_key e) k
      then {| e_key := e_key e; e_description := description; e_methods := ms |} :: A'
      else e :: set_entry A' k description ms
  end.

Fixpoint find_method (ms : list (str * dict)) (m : str) : option dict :=
  match ms with
  | [] => None
  | (m', ops) :: ms' => if str_eqb m' m then Some ops else find_method ms' m
  end.

Fixpoint set_method (ms : list (str * dict)) (m : str) (ops : dict)
  : list (str * dict) :=
  match ms with
  | [] => [(m, ops)]
  | (m', ops') :: ms' =>
      if str_eqb m' m then (m', ops) :: ms' else (m', ops') :: set_method ms' m ops
  end.

(** What the comprehension does with one declared tag. *)
Definition declare (A : index) (name : str) (description : pyval) : index :=
  set_entry A (str_lower name) description [].

(** What the innermost loop does for one tag of one operation. *)
Definition record_operation (A : index) (k m id : str) (record : pyval) : index :=
  match find_entry A k with
  | None => A
  | Some e =>
      let ops := match find_method (e_methods e) m with
                 | Some ops => ops
                 | None => []
                 end in
      set_entry A k (e_description e)
                (set_method (e_methods e) m (dict_set ops (PStr id) record))
  end.

(** The record found under tag [k], method [m] and identifier [id]. *)
Definition lookup_operation (A : index) (k m id : str) : option pyval :=
  match find_entry A k with
  | None => None
  | Some e =>
      match find_method (e_methods e) m with
      | None => None
      | Some ops => dict_lookup ops (PStr id)
      end
  end.

(** [t] is a tag object with a string name and a description. *)
Definition is_tag (t : pyval) (name : str) (description : pyval) : Prop :=
  py_getitem t (lit "name") = Ok (PStr name) /\
  py_getitem t (lit "description") = Ok description.

(** [details] is an operation object with a list of tag names and a string
    identifier. *)
Definition is_operation (details : pyval) (tags : list str) (id : str) : Prop :=
  py_getitem details (lit "tags") = Ok (PList (map PStr tags)) /\
  py_getitem details (lit "operationId") = Ok (PStr id).

(** An operation of the document, read: its method, the operation object, the
    tags the object lists and its identifier. *)
Record operation : Type := {
  op_method : str;
  op_details : pyval;
  op_tags : list str;
  op_id : str
}.

(** The items of [documentation["paths"]]: a path and its operations. *)
Definition path_item := (pyval * list operation)%type.

Definition well_formed (o : operation) : Prop :=
  is_operation (op_details o) (op_tags o) (op_id o).

Definition methods_of (ops : list operation) : pyval :=
  PDict (map (fun o => (PStr (op_method o), op_details o)) ops).

Definition paths_object (ps : list path_item) : pyval :=
  PDict (map (fun p => (fst p, methods_of (snd p))) ps).

(** The operations with their paths, in document order. *)
Definition operations (ps : list path_item) : list (pyval * operation) :=
  flat_map (fun p => map (fun o => (fst p, o)) (snd p)) ps.

(** The (path, operation, tag) triples the innermost loop body runs on. *)
Definition steps (ops : list (pyval * operation))
  : list (pyval * operation * str) :=
  flat_map (fun po => map (fun t => (fst po, snd po, t)) (op_tags (snd po))) ops.

(** The record stored for an operation. *)
Definition record_of (path : pyval) (o : operation) : pyval :=
  match operation_record path (op_details o) with
  | Ok record => record
  | Raise _ => PNone
  end.

(** The loops on the typed index: the index after all the steps, or the
    [KeyError] of the first step whose tag has no entry. *)
Fixpoint run (A : index) (todo : list (pyval * operation * str)) : result index :=
  match todo with
  | [] => Ok A
  | (path, o, t) :: todo' =>
      match find_entry A (str_lower t) with
      | Some _ =>
          run (record_operation A (str_lower t) (op_method o) (op_id o)
                                (record_of path o)) todo'
      | None => Raise KeyError
      end
  end.

Definition result_map {A B} (f : A -> B) (r : result A) : result B :=
  match r with
  | Ok a => Ok (f a)
  | Raise e => Raise e
  end.

(** [documentation] is a dict whose ["tags"] are the tag objects [tag_objects],
    declaring the names and descriptions [declared], and whose ["paths"] are
    the path items [ps], every operation of which lists its tags and has an
    identifier. *)
Definition describes (documentation : pyval) (tag_objects : list pyval)
  (declared : list (str * pyval)) (ps : list path_item) : Prop :=
  py_getitem documentation (lit "tags") = Ok (PList tag_objects) /\
  Forall2 (fun t d => is_tag t (fst d) (snd d)) tag_objects declared /\
  py_getitem documentation (lit "paths") = Ok (paths_object ps) /\
  Forall (fun p => Forall well_formed (snd p)) ps.

(** The keys of the entries made for the declared tags. *)
Definition declared_keys (declared : list (str * pyval)) : list str :=
  map (fun d => str_lower (fst d)) declared.

(** The index the comprehension builds. *)
Definition declared_index (declared : list (str * pyval)) : index :=
  fold_left (fun A d => declare A (fst d) (snd d)) declared [].

(** [documentation.get(key, default)] on a dict. *)
Definition field_or (documentation : pyval) (key : string) (default : pyval) : pyval :=
  match py_get documentation (lit key) default with
  | Ok v => v
  | Raise _ => default
  end.

(** The dict [get_sorted_docs] returns, given the index. *)
Definition sorted_object (documentation : pyval) (A : index) : pyval :=
  PDict [(PStr (lit "openapi_version"), field_or documentation "openapi" (PStr []));
         (PStr (lit "info"), field_or documentation "info" (PDict []));
         (PStr (lit "security"), field_or documentation "security" (PList []));
         (PStr (lit "tags"), field_or documentation "tags" (PList []));
         (PStr (lit "paths"), PDict (index_dict A));
         (PStr (lit "components"), field_or documentation "components" (PDict []))].

(** The step [s] files a record under tag [k], method [m], identifier [id]. *)
Definition files_under (s : pyval * operation * str) (k m id : str) : bool :=
  let '(_, o, t) := s in
  str_eqb (str_lower t) k && str_eqb (op_method o) m && str_eqb (op_id o) id.

(** The record of the last step that files under [k], [m], [id]. *)
Fixpoint last_record (todo : list (pyval * operation * str)) (k m id : str)
  : option pyval :=
  match todo with
  | [] => None
  | s :: todo' =>
      match last_record todo' k m id with
      | Some r => Some r
      | None =>
          if files_under s k m id then Some (record_of (fst (fst s)) (snd (fst s)))
          else None
      end
  end.

Definition new_entry (d : str * pyval) : entry :=
  {| e_key := str_lower (fst d); e_description := snd d; e_methods := [] |}.

(** [sorted_docs["paths"][tag]["methods"][method][id]] *)
Definition sorted_lookup (sorted : pyval) (tag method id : str) : result pyval :=
  paths <- py_getitem sorted (lit "paths") ;;
  entry <- py_getitem paths tag ;;
  methods <- py_getitem entry (lit "methods") ;;
  operations <- py_getitem methods method ;;
  py_getitem operations id.

(** [sorted_docs["paths"][tag]["description"]] *)
Definition sorted_description (sorted : pyval) (tag : str) : result pyval :=
  paths <- py_getitem sorted (lit "paths") ;;
  entry <- py_getitem paths tag ;;
  py_getitem entry (lit "description").

(** [list(sorted_docs["paths"])]: the keys of the index. *)
Definition sorted_tags (sorted : pyval) : result (list pyval) :=
  paths <- py_getitem sorted (lit "paths") ;;
  py_iter paths.

Definition tag_object (name description : string) : pyval :=
  PDict [(PStr (lit "name"), PStr (lit name));
         (PStr (lit "description"), PStr (lit description))].

Definition operation_object (tags : list string) (id : string) : pyval :=
  PDict [(PStr (lit "tags"), PList (map (fun t => PStr (lit t)) tags));
         (PStr (lit "operationId"), PStr (lit id));
         (PStr (lit "summary"), PStr (lit id))].

Definition sample_operation (method : string) (tags : list string) (id : string)
  : operation :=
  {| op_method := lit method; op_details := operation_object tags id;
     op_tags := map lit tags; op_id := lit id |}.

Definition document (tag_objects : list pyval) (ps : list path_item) : pyval :=
  PDict [(PStr (lit "openapi"), PStr (lit "3.0.1"));
         (PStr (lit "tags"), PList tag_objects);
         (PStr (lit "paths"), paths_object ps)].

(** Two tags, three operations. *)
Definition fixture_paths : list path_item :=
  [(PStr (lit "/v2/organizations"),
    [sample_operation "get" ["system"]%string "getOrganizations"]);
   (PStr (lit "/v2/devices"),
    [sample_operation "get" ["devices"]%string "getDevices";
     sample_operation "post" ["Devices"; "System"]%string "createDevice"])].

Definition fixture_tags : list pyval :=
  [tag_object "System" "Core system"; tag_object "Devices" "Device management"].

Definition fixture_declared : list (str * pyval) :=
  [(lit "System", PStr (lit "Core system"));
   (lit "Devices", PStr (lit "Device management"))].

Definition fixture : pyval := document fixture_tags fixture_paths.

(** An operation lists the tag [Backup], which no top-level tag declares. *)
Definition undeclared_paths : list path_item :=
  [(PStr (lit "/v2/backup"),
    [sample_operation "get" ["system"; "Backup"]%string "getBackupJobs"])].

(** Two declared tags that differ by case only. *)
Definition colliding_tags : list pyval :=
  [tag_object "System" "first"; tag_object "system" "second"].

(** A document with one declared tag and one operation, which lists no tags:
    the operation object has no ["tags"]. *)
Definition untagged_document : pyval :=
  PDict [(PStr (lit "openapi"), PStr (lit "3.0.1"));
         (PStr (lit "tags"), PList [tag_object "system" "only"]);
         (PStr (lit "paths"),
          PDict [(PStr (lit "/v2/ping"),
                  PDict [(PStr (lit "get"),
                          PDict [(PStr (lit "operationId"), PStr (lit "ping"));
                                 (PStr (lit "summary"), PStr (lit "Ping"))])])])].

(** ** Expiry *)

Lemma Qlt_bool_iff a b : Qlt_bool a b = true <-> (a < b)%Q.
Proof.
  unfold Qlt_bool. rewrite negb_true_iff. split.
  - intros H. apply Qnot_le_lt. intros L. apply Qle_bool_iff in L. congruence.
  - intros H. destruct (Qle_bool b a) eqn:E; [|reflexivity].
    apply Qle_bool_iff in E. exfalso. apply (Qlt_not_le _ _ H E).
Qed.



(** ** Construction *)

Lemma in_valid_environments_iff e :
  in_valid_environments (Some e) = true <-> In e valid_environments.
Proof.
  unfold in_valid_environments. rewrite existsb_exists. split.
  - intros (x & Hin & Heq). apply str_eqb_eq in Heq. subst. exact Hin.
  - intros Hin. exists e. split; [exact Hin | apply str_eqb_refl].
Qed.

Lemma filter_none {A} (f : A -> bool) l :
  (forall x, In x l -> f x = false) -> filter f l = [].
Proof.
  induction l as [|a l IH]; intros H; cbn [filter]; [reflexivity|].
  rewrite (H a (or_introl eq_refl)). apply IH. intros x Hx. apply H. right. exact Hx.
Qed.

(** C6.  When each of the five variables has a value (a non-empty one: the
    constructor counts an empty value as not set) and the environment name is
    not one of [app], [us2], [ca], [eu], [oc], the constructor raises the
    invalid-environment error and leaves the world as it was: nothing was
    sent. *)
Theorem invalid_environment_rejected (w : world) (name : str) :
  (forall var, In var required_variables -> unset (environ w var) = false) ->
  environ w "NINJA_ENVIRONMENT" = Some name ->
  ~ In name valid_environments ->
  __init__ w = (Raise InvalidEnvironmentValue, w) /\
  wire (snd (__init__ w)) = wire w.
Proof.
  intros Hset Hname Hnot.
  assert (E : __init__ w = (Raise InvalidEnvironmentValue, w)).
  { unfold __init__.
    replace (filter (fun var => unset (environ w var)) required_variables)
      with (@nil string).
    - destruct (in_valid_environments (environ w "NINJA_ENVIRONMENT")) eqn:V;
        [|reflexivity].
      rewrite Hname in V. apply in_valid_environments_iff in V. contradiction.
    - symmetry. apply filter_none. exact Hset. }
  rewrite E. split; reflexivity.
Qed.

Lemma invalid_environment_rejected_witness :
  __init__ (sample_world (lit "us3")) = (Raise InvalidEnvironmentValue, sample_world (lit "us3")) /\
  wire (snd (__init__ (sample_world (lit "us3")))) = [].
Proof.
  apply (invalid_environment_rejected (sample_world (lit "us3")) (lit "us3")).
  - intros var Hin. cbn in Hin.
    repeat (destruct Hin as [<- | Hin]; [reflexivity|]). contradiction.
  - reflexivity.
  - cbn. intros H. repeat (destruct H as [H | H]; [discriminate H|]). exact H.
Defined.

(** C10.  A required variable set to the empty string is reported as not set:
    the constructor raises the missing-variables error, that variable is among
    those it names, and nothing is sent.  So an empty environment name gives
    the missing-variables error, not the invalid-environment one. *)
Theorem empty_variable_is_missing (w : world) (var : string) :
  In var required_variables ->
  environ w var = Some [] ->
  exists vars,
    __init__ w = (Raise (MissingEnvironment vars), w) /\
    In var vars /\
    fst (__init__ w) <> Raise InvalidEnvironmentValue.
Proof.
  intros Hin Hempty.
  assert (M : In var (filter (fun v => unset (environ w v)) required_variables)).
  { apply filter_In. split; [exact Hin|]. rewrite Hempty. reflexivity. }
  unfold __init__.
  destruct (filter (fun v => unset (environ w v)) required_variables) as [|v vars] eqn:F.
  - destruct M.
  - exists (v :: vars). split; [reflexivity|]. split; [exact M|]. discriminate.
Qed.

Lemma empty_variable_is_missing_witness :
  exists vars,
    __init__ (sample_world []) = (Raise (MissingEnvironment vars), sample_world []) /\
    In "NINJA_ENVIRONMENT"%string vars /\
    fst (__init__ (sample_world [])) <> Raise InvalidEnvironmentValue.
Proof.
  apply (empty_variable_is_missing (sample_world []) "NINJA_ENVIRONMENT").
  - left. reflexivity.
  - reflexivity.
Defined.

(** ** Token refresh *)

Lemma exchange_wire rq self w :
  let out := exchange rq self w in
  wire (snd out) = wire w ++ [rq] /\ heap (snd out) = heap w /\ snd (fst out) = self.
Proof.
  unfold exchange. destruct (network w) as [|[elapsed [r|]] rest]; cbn; auto.
Qed.

(** [_request_credentials] sends one credential request and changes nothing
    else, unless it succeeds: then one object is added to the heap and its
    reference returned. *)
Lemma request_credentials_cases self w :
  let out := _request_credentials self w in
  wire (snd out) = wire w ++ [token_request self] /\
  snd (fst out) = self /\
  ((exists e, fst (fst out) = Raise e /\ heap (snd out) = heap w) \/
   (exists fresh, fst (fst out) = Ok (List.length (heap w)) /\
                  heap (snd out) = heap w ++ [fresh])).
Proof.
  unfold _request_credentials, then_, lift, time_time, new_credential.
  pose proof (exchange_wire (token_request self) self w) as (W & H & S).
  unfold token_request in *. cbv zeta in *.
  destruct (exchange _ self w) as [[[r|e] self1] w1]; cbn [fst snd] in *; subst self1.
  2:{ split; [exact W|]. split; [reflexivity|]. left. eauto. }
  destruct (raise_for_status r) as [[]|e]; cbn [fst snd].
  2:{ split; [exact W|]. split; [reflexivity|]. left. eauto. }
  destruct (json r) as [body|e]; cbn [fst snd].
  2:{ split; [exact W|]. split; [reflexivity|]. left. eauto. }
  repeat match goal with
  | |- context [py_getitem body ?k] =>
      destruct (py_getitem body k) as [?|?]; cbn [fst snd];
      [|split; [exact W|]; split; [reflexivity|]; left; eauto]
  end.
  split; [exact W|]. split; [reflexivity|]. right.
  cbn [heap]. rewrite H. eexists. split; reflexivity.
Qed.

Lemma nth_error_snoc {A} (l : list A) (x : A) :
  nth_error (l ++ [x]) (List.length l) = Some x.
Proof. rewrite nth_error_app2, Nat.sub_diag by lia. reflexivity. Qed.

Lemma nth_error_keep {A} (l extra : list A) i x :
  nth_error l i = Some x -> nth_error (l ++ extra) i = Some x.
Proof.
  intros H. rewrite nth_error_app1; [exact H|].
  apply nth_error_Some. congruence.
Qed.

Lemma authenticate_expired self w o :
  nth_error (heap w) (_oauth self) = Some o ->
  is_expired (clock w) o = Ok true ->
  _authenticate self w
  = match _request_credentials self w with
    | (Ok fresh, self1, w1) => set_oauth fresh self1 w1
    | (Raise e, self1, w1) => (Raise e, self1, w1)
    end.
Proof.
  intros Ho E. cbv [_authenticate then_ current_credential time_time lift].
  rewrite Ho, E. reflexivity.
Qed.

Lemma authenticate_valid self w o :
  nth_error (heap w) (_oauth self) = Some o ->
  is_expired (clock w) o = Ok false ->
  _authenticate self w = (Ok tt, self, w).
Proof.
  intros Ho E. cbv [_authenticate then_ current_credential time_time lift ret].
  rewrite Ho, E. reflexivity.
Qed.

Lemma request_unfold method path kwargs self w :
  request method path kwargs self w
  = match _authenticate self w with
    | (Ok _, self1, w1) => send_request method path kwargs self1 w1
    | (Raise e, self1, w1) => (Raise e, self1, w1)
    end.
Proof. reflexivity. Qed.

Lemma send_request_wire method path kwargs self w o :
  nth_error (heap w) (_oauth self) = Some o ->
  let out := send_request method path kwargs self w in
  wire (snd out) = wire w ++ [api_request self method path kwargs o] /\
  heap (snd out) = heap w /\ snd (fst out) = self.
Proof.
  intros Ho. cbv [send_request then_ current_credential]. rewrite Ho.
  pose proof (exchange_wire (api_request self method path kwargs o) self w)
    as (W & H & S). cbv zeta in *.
  destruct (exchange _ self w) as [[[r|e] self1] w1]; cbn [fst snd] in *.
  - unfold lift. destruct (raise_for_status r) as [[]|e]; cbn [fst snd]; auto.
  - auto.
Qed.



(** ** The documentation index, typed *)

Lemma dict_lookup_index A k :
  dict_lookup (index_dict A) (PStr k) = option_map entry_object (find_entry A k).
Proof.
  induction A as [|e A IH]; cbn [index_dict map dict_lookup find_entry key_eqb fst];
    [reflexivity|].
  destruct (str_eqb (e_key e) k); [reflexivity | exact IH].
Qed.

Lemma dict_set_index A k description ms :
  dict_set (index_dict A) (PStr k)
           (entry_object {| e_key := k; e_description := description; e_methods := ms |})
  = index_dict (set_entry A k description ms).
Proof.
  induction A as [|e A IH]; cbn [index_dict map dict_set set_entry key_eqb];
    [reflexivity|].
  destruct (str_eqb (e_key e) k); cbn [map]; [reflexivity|].
  f_equal. exact IH.
Qed.

Lemma dict_lookup_methods ms m :
  dict_lookup (map (fun x => (PStr (fst x), PDict (snd x))) ms) (PStr m)
  = option_map PDict (find_method ms m).
Proof.
  induction ms as [|[m' ops] ms IH]; cbn [map dict_lookup find_method key_eqb fst snd];
    [reflexivity|].
  destruct (str_eqb m' m); [reflexivity | exact IH].
Qed.

Lemma dict_set_methods ms m ops :
  dict_set (map (fun x => (PStr (fst x), PDict (snd x))) ms) (PStr m) (PDict ops)
  = map (fun x : str * dict => (PStr (fst x), PDict (snd x))) (set_method ms m ops).
Proof.
  induction ms as [|[m' ops'] ms IH]; cbn [map dict_set set_method key_eqb fst snd];
    [reflexivity|].
  destruct (str_eqb m' m); cbn [map fst snd]; [reflexivity|].
  f_equal. exact IH.
Qed.

(** [set_method] after [setdefault]. *)
Lemma set_method_twice ms m ops ops' :
  set_method (set_method ms m ops) m ops' = set_method ms m ops'.
Proof.
  induction ms as [|[m' o] ms IH]; cbn [set_method].
  - rewrite str_eqb_refl. reflexivity.
  - destruct (str_eqb m' m) eqn:E; cbn [set_method]; rewrite E; [reflexivity|].
    f_equal. exact IH.
Qed.

(** ** The shape of an OpenAPI document *)

Lemma declare_tag_index A t name description :
  is_tag t name description ->
  declare_tag (index_dict A) t = Ok (index_dict (declare A name description)).
Proof.
  intros [Hn Hd]. unfold declare_tag. rewrite Hn. cbn [bind py_lower].
  rewrite Hd. cbn [bind]. unfold declare.
  rewrite <- dict_set_index. reflexivity.
Qed.

(** An operation object is a dict, so its record can be built. *)
Lemma operation_record_ok path details tags id :
  is_operation details tags id ->
  exists record, operation_record path details = Ok record.
Proof.
  intros [Ht _]. destruct details; try discriminate Ht.
  unfold operation_record. cbn [py_get bind]. eexists. reflexivity.
Qed.

Lemma add_operation_index A path m details tags id record tag :
  is_operation details tags id ->
  operation_record path details = Ok record ->
  add_operation path (PStr m) details (index_dict A) (PStr tag)
  = match find_entry A (str_lower tag) with
    | Some _ => Ok (index_dict (record_operation A (str_lower tag) m id record))
    | None => Raise KeyError
    end.
Proof.
  intros [_ Hid] Hrec. unfold add_operation. rewrite Hrec.
  cbn [bind py_lower py_getitem hashable]. rewrite dict_lookup_index.
  unfold record_operation.
  destruct (find_entry A (str_lower tag)) as [e|]; cbn [option_map bind]; [|reflexivity].
  cbn [entry_object py_getitem hashable dict_lookup key_eqb str_eqb lit].
  change (str_eqb (lit "description") (lit "methods")) with false.
  change (str_eqb (lit "methods") (lit "methods")) with true. cbv iota.
  cbn [bind methods_object py_setdefault hashable].
  rewrite dict_lookup_methods.
  destruct (find_method (e_methods e) m) as [ops|] eqn:F; cbn [option_map bind].
  - rewrite Hid. cbn [bind py_setitem hashable methods_object entry_object].
    rewrite dict_set_methods. cbn [bind dict_set key_eqb].
    change (str_eqb (lit "description") (lit "methods")) with false.
    change (str_eqb (lit "methods") (lit "methods")) with true. cbv iota.
    rewrite <- dict_set_index. reflexivity.
  - rewrite Hid. cbn [bind py_setitem hashable methods_object entry_object].
    rewrite !dict_set_methods, set_method_twice. cbn [bind dict_set key_eqb].
    change (str_eqb (lit "description") (lit "methods")) with false.
    change (str_eqb (lit "methods") (lit "methods")) with true. cbv iota.
    rewrite <- dict_set_index. reflexivity.
Qed.

Lemma run_app A s1 s2 :
  run A (s1 ++ s2) = (A' <- run A s1 ;; run A' s2).
Proof.
  revert A. induction s1 as [|[[path o] t] s1 IH]; intros A; cbn [app run bind].
  - reflexivity.
  - destruct (find_entry A (str_lower t)); [apply IH | reflexivity].
Qed.

(** The innermost loop. *)
Lemma for_each_tags A path o tags :
  well_formed o ->
  for_each (map PStr tags) (add_operation path (PStr (op_method o)) (op_details o))
           (index_dict A)
  = result_map index_dict (run A (map (fun t => (path, o, t)) tags)).
Proof.
  intros W. revert A. induction tags as [|t tags IH]; intros A;
    cbn [map for_each run result_map]; [reflexivity|].
  destruct (operation_record_ok path _ _ _ W) as [record Hr].
  rewrite (add_operation_index A path _ _ _ _ record t W Hr).
  unfold record_of. rewrite Hr.
  destruct (find_entry A (str_lower t)); cbn [bind]; [apply IH | reflexivity].
Qed.

(** The loop over the methods of a path. *)
Lemma for_each_methods A path ops :
  Forall well_formed ops ->
  for_each (map (fun o => (PStr (op_method o), op_details o)) ops)
           (fun paths item =>
              let (method, details) := item in
              tags <- py_getitem details (lit "tags") ;;
              tags <- py_iter tags ;;
              for_each tags (add_operation path method details) paths)
           (index_dict A)
  = result_map index_dict (run A (steps (map (fun o => (path, o)) ops))).
Proof.
  intros W. revert A. induction W as [|o ops Wo _ IH]; intros A;
    cbn [map for_each steps flat_map]; [reflexivity|].
  fold (steps (map (fun o => (path, o)) ops)).
  destruct Wo as [Ht Hid]. rewrite Ht. cbn [bind py_iter fst snd].
  rewrite (for_each_tags A path o (op_tags o) (conj Ht Hid)).
  rewrite run_app.
  destruct (run A (map (fun t => (path, o, t)) (op_tags o))) as [A'|e];
    cbn [result_map bind]; [apply IH | reflexivity].
Qed.

(** The loop over the paths. *)
Lemma for_each_paths A (ps : list path_item) :
  Forall (fun p => Forall well_formed (snd p)) ps ->
  for_each (map (fun p => (fst p, methods_of (snd p))) ps)
           (fun paths item =>
              let (path, methods) := item in
              methods <- py_items methods ;;
              for_each methods
                (fun paths item =>
                   let (method, details) := item in
                   tags <- py_getitem details (lit "tags") ;;
                   tags <- py_iter tags ;;
                   for_each tags (add_operation path method details) paths)
                paths)
           (index_dict A)
  = result_map index_dict (run A (steps (operations ps))).
Proof.
  intros W. revert A. induction W as [|[path ops] ps Wp _ IH]; intros A;
    cbn [map for_each operations flat_map fst snd]; [reflexivity|].
  fold (operations ps). unfold steps. rewrite flat_map_app.
  fold (steps (map (fun o => (path, o)) ops)). fold (steps (operations ps)).
  cbn [methods_of py_items bind]. rewrite (for_each_methods A path ops Wp).
  rewrite run_app.
  destruct (run A (steps (map (fun o => (path, o)) ops))) as [A'|e];
    cbn [result_map bind]; [apply IH | reflexivity].
Qed.

Lemma for_each_declare tag_objects declared :
  Forall2 (fun t d => is_tag t (fst d) (snd d)) tag_objects declared ->
  forall A,
    for_each tag_objects declare_tag (index_dict A)
    = Ok (index_dict (fold_left (fun A d => declare A (fst d) (snd d)) declared A)).
Proof.
  induction 1 as [|t d ts ds Ht _ IH]; intros A; cbn [for_each fold_left];
    [reflexivity|].
  rewrite (declare_tag_index A t (fst d) (snd d) Ht). cbn [bind]. apply IH.
Qed.

(** [get_sorted_docs] on a document of that shape is [run] on its index. *)
Theorem get_sorted_docs_run documentation tag_objects declared ps :
  describes documentation tag_objects declared ps ->
  get_sorted_docs documentation
  = result_map (sorted_object documentation)
               (run (declared_index declared) (steps (operations ps))).
Proof.
  intros (Ht & Hd & Hp & Hw).
  destruct documentation as [| | | | | | |d|]; try discriminate Ht.
  unfold get_sorted_docs, sorted_object, field_or.
  cbn [py_get bind]. rewrite Ht. cbn [bind py_iter].
  change (@nil (pyval * pyval)) with (index_dict []) at 1.
  rewrite (for_each_declare _ _ Hd). cbn [bind]. rewrite Hp.
  cbn [bind paths_object py_items].
  fold (declared_index declared).
  rewrite (for_each_paths (declared_index declared) ps Hw).
  destruct (run (declared_index declared) (steps (operations ps)));
    reflexivity.
Qed.

(** ** Keys *)

Lemma find_entry_keys A k :
  find_entry A k <> None <-> In k (map e_key A).
Proof.
  induction A as [|e A IH]; cbn [find_entry map In].
  - split; [congruence | tauto].
  - destruct (str_eqb (e_key e) k) eqn:E.
    + apply str_eqb_eq in E. split; [auto | discriminate].
    + rewrite IH. split; [auto|]. intros [H|H]; [|exact H].
      subst. rewrite str_eqb_refl in E. discriminate E.
Qed.

Lemma set_entry_keys_present A k description ms :
  In k (map e_key A) -> map e_key (set_entry A k description ms) = map e_key A.
Proof.
  induction A as [|e A IH]; cbn [set_entry map In]; intros H; [destruct H|].
  destruct (str_eqb (e_key e) k) eqn:E; cbn [map e_key]; [reflexivity|].
  f_equal. apply IH. destruct H as [H|H]; [|exact H].
  subst. rewrite str_eqb_refl in E. discriminate E.
Qed.

Lemma set_entry_keys_absent A k description ms :
  ~ In k (map e_key A) ->
  map e_key (set_entry A k description ms) = map e_key A ++ [k].
Proof.
  induction A as [|e A IH]; cbn [set_entry map In app]; intros H; [reflexivity|].
  destruct (str_eqb (e_key e) k) eqn:E.
  - apply str_eqb_eq in E. exfalso. apply H. left. exact E.
  - cbn [map]. f_equal. apply IH. intros Hin. apply H. right. exact Hin.
Qed.

Lemma record_operation_keys A k m id record :
  map e_key (record_operation A k m id record) = map e_key A.
Proof.
  unfold record_operation. destruct (find_entry A k) as [e|] eqn:F; [|reflexivity].
  apply set_entry_keys_present. apply find_entry_keys. congruence.
Qed.

Lemma declared_index_keys_acc declared : forall A k,
  In k (map e_key (fold_left (fun A d => declare A (fst d) (snd d)) declared A))
  <-> In k (map e_key A) \/ In k (declared_keys declared).
Proof.
  induction declared as [|d ds IH]; intros A k; cbn [fold_left declared_keys map In].
  - tauto.
  - fold (declared_keys ds). rewrite IH. unfold declare.
    assert (Hd : In k (map e_key (set_entry A (str_lower (fst d)) (snd d) []))
                 <-> In k (map e_key A) \/ str_lower (fst d) = k).
    { destruct (in_dec (list_eq_dec Z.eq_dec) (str_lower (fst d)) (map e_key A))
        as [Hin|Hout].
      - rewrite set_entry_keys_present by exact Hin. split; [auto|].
        intros [H|H]; [exact H | subst; exact Hin].
      - rewrite set_entry_keys_absent by exact Hout. rewrite in_app_iff.
        cbn [In]. tauto. }
    rewrite Hd. tauto.
Qed.

Lemma declared_index_keys declared k :
  In k (map e_key (declared_index declared)) <-> In k (declared_keys declared).
Proof.
  unfold declared_index. rewrite declared_index_keys_acc. cbn [map In]. tauto.
Qed.

(** [run] stops with [KeyError] when a step names a tag that has no entry. *)
Lemma run_undeclared todo : forall A path o t,
  In (path, o, t) todo -> ~ In (str_lower t) (map e_key A) ->
  run A todo = Raise KeyError.
Proof.
  induction todo as [|[[path' o'] t'] todo IH]; intros A path o t Hin Hout;
    [destruct Hin|]. cbn [run].
  destruct (find_entry A (str_lower t')) as [e|] eqn:F; [|reflexivity].
  destruct Hin as [Heq|Hin].
  - injection Heq as -> -> ->. exfalso. apply Hout. apply find_entry_keys. congruence.
  - apply (IH _ path o t Hin). rewrite record_operation_keys. exact Hout.
Qed.

Lemma in_steps ops path o t :
  In (path, o, t) (steps ops) <-> In (path, o) ops /\ In t (op_tags o).
Proof.
  unfold steps. rewrite in_flat_map. split.
  - intros ([p' o'] & Hin & Hm). cbn [fst snd] in Hm.
    apply in_map_iff in Hm. destruct Hm as (t' & Heq & Ht).
    injection Heq as -> -> ->. auto.
  - intros [Hin Ht]. exists (path, o). split; [exact Hin|].
    cbn [fst snd]. apply in_map_iff. exists t. auto.
Qed.


(** ** Lookups after an update *)

Lemma key_eqb_str k s : key_eqb k (PStr s) = true -> k = PStr s.
Proof.
  destruct k; cbn [key_eqb]; try discriminate.
  intros H. apply str_eqb_eq in H. subst. reflexivity.
Qed.

Lemma dict_lookup_set_str d id v id' :
  dict_lookup (dict_set d (PStr id) v) (PStr id')
  = if str_eqb id id' then Some v else dict_lookup d (PStr id').
Proof.
  induction d as [|[k0 v0] d IH]; cbn [dict_set dict_lookup key_eqb].
  - destruct (str_eqb id id'); reflexivity.
  - destruct (key_eqb k0 (PStr id)) eqn:E.
    + apply key_eqb_str in E. subst k0. cbn [dict_lookup key_eqb].
      destruct (str_eqb id id'); reflexivity.
    + cbn [dict_lookup]. destruct (key_eqb k0 (PStr id')) eqn:E'.
      * apply key_eqb_str in E'. subst k0. cbn [key_eqb] in E.
        rewrite str_eqb_sym, E. reflexivity.
      * exact IH.
Qed.

Lemma find_set_method ms m ops m' :
  find_method (set_method ms m ops) m'
  = if str_eqb m m' then Some ops else find_method ms m'.
Proof.
  induction ms as [|[m0 o0] ms IH]; cbn [set_method find_method].
  - destruct (str_eqb m m'); reflexivity.
  - destruct (str_eqb m0 m) eqn:E.
    + apply str_eqb_eq in E. subst m0. cbn [find_method].
      destruct (str_eqb m m'); reflexivity.
    + cbn [find_method]. destruct (str_eqb m0 m') eqn:E'.
      * apply str_eqb_eq in E'. subst m0. rewrite str_eqb_sym, E. reflexivity.
      * exact IH.
Qed.

Lemma find_set_entry A k e description ms k' :
  find_entry A k = Some e ->
  find_entry (set_entry A k description ms) k'
  = if str_eqb k k'
    then Some {| e_key := e_key e; e_description := description; e_methods := ms |}
    else find_entry A k'.
Proof.
  induction A as [|e0 A IH]; cbn [set_entry find_entry]; intros F; [discriminate F|].
  destruct (str_eqb (e_key e0) k) eqn:E.
  - injection F as ->. apply str_eqb_eq in E. cbn [find_entry e_key].
    rewrite E. destruct (str_eqb k k'); reflexivity.
  - cbn [find_entry]. destruct (str_eqb (e_key e0) k') eqn:E'.
    + apply str_eqb_eq in E'. rewrite <- E', str_eqb_sym, E. reflexivity.
    + apply IH. exact F.
Qed.

(** The step of the loop, read through [lookup_operation]. *)
Lemma lookup_record_operation A k m id record k' m' id' :
  find_entry A k <> None ->
  lookup_operation (record_operation A k m id record) k' m' id'
  = if str_eqb k k' && str_eqb m m' && str_eqb id id' then Some record
    else lookup_operation A k' m' id'.
Proof.
  intros F. unfold record_operation, lookup_operation.
  destruct (find_entry A k) as [e|] eqn:Fe; [|congruence].
  rewrite (find_set_entry A k e _ _ k' Fe).
  destruct (str_eqb k k') eqn:Ek; cbn [andb]; [|reflexivity].
  apply str_eqb_eq in Ek. subst k'. rewrite Fe. cbn [e_methods].
  rewrite find_set_method.
  destruct (str_eqb m m') eqn:Em; cbn [andb]; [|reflexivity].
  apply str_eqb_eq in Em. subst m'.
  rewrite dict_lookup_set_str.
  destruct (str_eqb id id'); [reflexivity|].
  destruct (find_method (e_methods e) m); reflexivity.
Qed.

(** ** The index after the loops *)

Lemma run_lookup todo : forall A Af k m id,
  run A todo = Ok Af ->
  map e_key Af = map e_key A /\
  lookup_operation Af k m id
  = match last_record todo k m id with
    | Some r => Some r
    | None => lookup_operation A k m id
    end.
Proof.
  induction todo as [|[[path o] t] todo IH]; intros A Af k m id R; cbn [run] in R.
  - injection R as <-. split; reflexivity.
  - destruct (find_entry A (str_lower t)) as [e|] eqn:F; [|discriminate R].
    destruct (IH _ _ k m id R) as [K L]. split.
    + rewrite K. apply record_operation_keys.
    + rewrite L. cbn [last_record fst snd files_under].
      destruct (last_record todo k m id); [reflexivity|].
      rewrite lookup_record_operation by congruence.
      destruct (str_eqb (str_lower t) k && str_eqb (op_method o) m &&
                str_eqb (op_id o) id); reflexivity.
Qed.

Lemma run_declared todo : forall A,
  (forall path o t, In (path, o, t) todo -> In (str_lower t) (map e_key A)) ->
  exists Af, run A todo = Ok Af.
Proof.
  induction todo as [|[[path o] t] todo IH]; intros A H; cbn [run]; [eauto|].
  destruct (find_entry A (str_lower t)) as [e|] eqn:F.
  - apply IH. intros p' o' t' Hin. rewrite record_operation_keys.
    apply (H p' o' t'). right. exact Hin.
  - exfalso. apply (proj2 (find_entry_keys A (str_lower t))); [|exact F].
    apply (H path o t). left. reflexivity.
Qed.

Lemma last_record_some todo k m id r :
  last_record todo k m id = Some r ->
  exists s, In s todo /\ files_under s k m id = true /\
            r = record_of (fst (fst s)) (snd (fst s)).
Proof.
  induction todo as [|s todo IH]; cbn [last_record]; intros H; [discriminate H|].
  destruct (last_record todo k m id) as [r'|].
  - destruct (IH H) as (s' & Hin & Hf & Hr). exists s'. cbn [In]. auto.
  - destruct (files_under s k m id) eqn:E; [|discriminate H].
    injection H as <-. exists s. cbn [In]. auto.
Qed.

Lemma last_record_filed todo k m id s :
  In s todo -> files_under s k m id = true ->
  exists r, last_record todo k m id = Some r.
Proof.
  induction todo as [|s' todo IH]; cbn [last_record In]; intros Hin Hf; [destruct Hin|].
  destruct (last_record todo k m id) as [r'|] eqn:L; [eauto|].
  destruct Hin as [->|Hin].
  - rewrite Hf. eauto.
  - destruct (IH Hin Hf) as [r Hr]. discriminate Hr.
Qed.

Lemma run_descriptions todo : forall A Af k,
  run A todo = Ok Af ->
  option_map e_description (find_entry Af k)
  = option_map e_description (find_entry A k).
Proof.
  induction todo as [|[[path o] t] todo IH]; intros A Af k R; cbn [run] in R.
  - injection R as <-. reflexivity.
  - destruct (find_entry A (str_lower t)) as [e|] eqn:F; [|discriminate R].
    rewrite (IH _ _ k R). unfold record_operation. rewrite F.
    rewrite (find_set_entry A _ e _ _ k F).
    destruct (str_eqb (str_lower t) k) eqn:E; [|reflexivity].
    apply str_eqb_eq in E. subst k. rewrite F. reflexivity.
Qed.

(** ** The index of the declared tags *)

Lemma set_entry_absent A k description ms :
  ~ In k (map e_key A) ->
  set_entry A k description ms
  = A ++ [{| e_key := k; e_description := description; e_methods := ms |}].
Proof.
  induction A as [|e A IH]; cbn [set_entry map In app]; intros H; [reflexivity|].
  destruct (str_eqb (e_key e) k) eqn:E.
  - apply str_eqb_eq in E. exfalso. apply H. left. exact E.
  - f_equal. apply IH. intros Hin. apply H. right. exact Hin.
Qed.

Lemma declared_index_acc declared : forall A,
  (forall k, In k (declared_keys declared) -> ~ In k (map e_key A)) ->
  NoDup (declared_keys declared) ->
  fold_left (fun A d => declare A (fst d) (snd d)) declared A
  = A ++ map new_entry declared.
Proof.
  induction declared as [|d ds IH]; intros A Hout Hnd;
    cbn [fold_left map declared_keys] in *.
  - rewrite app_nil_r. reflexivity.
  - fold (declared_keys ds) in *. inversion Hnd as [|? ? Hd Hds]; subst.
    unfold declare at 2.
    rewrite set_entry_absent by (apply Hout; left; reflexivity).
    rewrite IH; [rewrite <- app_assoc; reflexivity | | exact Hds].
    intros k Hk. rewrite map_app, in_app_iff. cbn [map In e_key].
    intros [H|[H|[]]].
    + apply (Hout k); [right; exact Hk | exact H].
    + subst k. exact (Hd Hk).
Qed.

Lemma declared_index_nodup declared :
  NoDup (declared_keys declared) ->
  declared_index declared = map new_entry declared.
Proof.
  intros H. unfold declared_index. rewrite declared_index_acc; auto.
Qed.

Lemma find_new_entry declared name description :
  NoDup (declared_keys declared) -> In (name, description) declared ->
  find_entry (map new_entry declared) (str_lower name)
  = Some (new_entry (name, description)).
Proof.
  induction declared as [|d ds IH]; cbn [declared_keys map find_entry In];
    intros Hnd Hin; [destruct Hin|].
  fold (declared_keys ds) in *. inversion Hnd as [|? ? Hd Hds]; subst.
  destruct Hin as [->|Hin].
  - cbn [new_entry e_key fst]. rewrite str_eqb_refl. reflexivity.
  - cbn [new_entry e_key]. destruct (str_eqb (str_lower (fst d)) (str_lower name)) eqn:E.
    + apply str_eqb_eq in E. exfalso. apply Hd. rewrite E.
      unfold declared_keys. apply in_map_iff. exists (name, description). auto.
    + apply IH; assumption.
Qed.

Lemma lookup_new_entries declared k m id :
  lookup_operation (map new_entry declared) k m id = None.
Proof.
  unfold lookup_operation.
  induction declared as [|d ds IH]; cbn [map find_entry]; [reflexivity|].
  destruct (str_eqb (e_key (new_entry d)) k); [reflexivity | exact IH].
Qed.

(** ** Reading the result, as [main.py] does *)

Lemma sorted_object_paths documentation A :
  py_getitem (sorted_object documentation A) (lit "paths")
  = Ok (PDict (index_dict A)).
Proof. reflexivity. Qed.

Lemma sorted_lookup_index documentation A k m id :
  sorted_lookup (sorted_object documentation A) k m id
  = match lookup_operation A k m id with
    | Some r => Ok r
    | None => Raise KeyError
    end.
Proof.
  unfold sorted_lookup. rewrite sorted_object_paths.
  cbn [bind py_getitem hashable]. rewrite dict_lookup_index.
  unfold lookup_operation.
  destruct (find_entry A k) as [e|]; cbn [option_map bind]; [|reflexivity].
  change (py_getitem (entry_object e) (lit "methods"))
    with (Ok (methods_object (e_methods e))).
  cbn [bind methods_object py_getitem hashable]. rewrite dict_lookup_methods.
  destruct (find_method (e_methods e) m) as [ops|]; cbn [option_map bind];
    [|reflexivity].
  cbn [py_getitem hashable]. destruct (dict_lookup ops (PStr id)); reflexivity.
Qed.

Lemma sorted_description_index documentation A k :
  sorted_description (sorted_object documentation A) k
  = match find_entry A k with
    | Some e => Ok (e_description e)
    | None => Raise KeyError
    end.
Proof.
  unfold sorted_description. rewrite sorted_object_paths.
  cbn [bind py_getitem hashable]. rewrite dict_lookup_index.
  destruct (find_entry A k) as [e|]; reflexivity.
Qed.

Lemma sorted_tags_index documentation A :
  sorted_tags (sorted_object documentation A) = Ok (map PStr (map e_key A)).
Proof.
  unfold sorted_tags. rewrite sorted_object_paths. cbn [bind py_iter].
  unfold keys, index_dict. rewrite !map_map. reflexivity.
Qed.

(** ** The index of a document *)

Lemma NoDup_map_injective {X Y} (f : X -> Y) l x y :
  NoDup (map f l) -> In x l -> In y l -> f x = f y -> x = y.
Proof.
  induction l as [|a l IH]; cbn [map In]; intros Hnd Hx Hy E; [destruct Hx|].
  inversion Hnd as [|? ? Ha Hl]; subst.
  destruct Hx as [->|Hx], Hy as [->|Hy].
  - reflexivity.
  - exfalso. apply Ha. rewrite E. apply in_map. exact Hy.
  - exfalso. apply Ha. rewrite <- E. apply in_map. exact Hx.
  - apply IH; assumption.
Qed.

Lemma operations_well_formed ps path o :
  Forall (fun p => Forall well_formed (snd p)) ps ->
  In (path, o) (operations ps) -> well_formed o.
Proof.
  intros W Hin. unfold operations in Hin. apply in_flat_map in Hin.
  destruct Hin as (p & Hp & Ho). apply in_map_iff in Ho.
  destruct Ho as (o' & Heq & Ho'). injection Heq as _ ->.
  rewrite Forall_forall in W. specialize (W _ Hp).
  rewrite Forall_forall in W. apply W. exact Ho'.
Qed.

Lemma record_of_well_formed path o :
  well_formed o -> operation_record path (op_details o) = Ok (record_of path o).
Proof.
  intros W. destruct (operation_record_ok path _ _ _ W) as [r Hr].
  unfold record_of. rewrite Hr. reflexivity.
Qed.


(** ** Sample documents *)

Ltac sample_shape :=
  repeat first
    [ split
    | reflexivity
    | apply Forall_nil | apply Forall_cons
    | apply Forall2_nil | apply Forall2_cons ].

Ltac sample_members :=
  cbn; intros;
  repeat match goal with
         | H : _ \/ _ |- _ => destruct H
         | H : False |- _ => destruct H
         | H : (_, _) = (_, _) |- _ => injection H as ? ?
         | H : _ /\ _ |- _ => destruct H
         end;
  subst; cbn in *;
  repeat match goal with
         | H : _ \/ _ |- _ => destruct H
         | H : False |- _ => destruct H
         end;
  subst; cbn; tauto.

Ltac sample_nodup :=
  cbn; repeat (apply NoDup_cons; [cbn; intros H;
                 repeat (destruct H as [H|H]; [discriminate H|]); exact H|]);
  apply NoDup_nil.




End NinjaAPIFacts.

(* ================================================================== *)
(** * The configuration handler on every value: outcomes and the store *)
(* ================================================================== *)

Module ConfigHandlerProperties.
Import Py Json JsonFacts ConfigHandler ConfigHandlerFacts CacheLauncher.
Local Open Scope py_scope.

(** ** Definitions *)

(** A newline or a printable ASCII character. *)
Definition plain (c : Z) : bool := (c =? 10) || ((32 <=? c) && (c <=? 126)).

Definition plain_text (s : str) : bool := forallb plain s.

(** A document with text outside ASCII. *)
Definition accented_config : dict :=
  sample_config ++ [(PStr (lit "title"), PStr [67; 97; 102; 233; 32; 128512])].

(** ** Validation of a value that is no dict *)

Ltac raised H :=
  first [ discriminate H
        | injection H as <-; reflexivity
        | injection H as ->; reflexivity ].

Lemma check_keys_sequence l keys :
  keys <> [] ->
  check_keys (PList l) keys <> Ok true /\ check_keys (PTuple l) keys <> Ok true.
Proof.
  destruct keys as [|[key t] keys]; [congruence|]. intros _.
  cbn [check_keys py_contains bind].
  destruct (existsb (key_eqb (PStr key)) l); cbn [negb py_getitem bind];
    split; discriminate.
Qed.

Lemma check_keys_str s keys : keys <> [] -> check_keys (PStr s) keys <> Ok true.
Proof.
  destruct keys as [|[key t] keys]; [congruence|]. intros _.
  cbn [check_keys py_contains bind].
  destruct (str_contains s key); cbn [negb py_getitem bind]; discriminate.
Qed.

Lemma check_keys_raises container keys e :
  check_keys container keys = Raise e -> e = TypeError.
Proof.
  induction keys as [|[key t] keys IH]; cbn [check_keys]; [discriminate|].
  destruct container; cbn [py_contains bind]; try (intros H; raised H).
  - destruct (str_contains s key); cbn [negb py_getitem bind]; intros H; raised H.
  - destruct (existsb _ l); cbn [negb py_getitem bind]; intros H; raised H.
  - destruct (existsb _ l); cbn [negb py_getitem bind]; intros H; raised H.
  - cbn [py_getitem].
    destruct (dict_lookup items (PStr key)) as [v|]; cbn [negb bind].
    + destruct (negb (isinstance v t)); [discriminate | exact IH].
    + discriminate.
Qed.

Ltac first_loop H :=
  unfold _config_isvalid in H;
  match type of H with
  | context [check_keys ?c ?k] =>
      let C := fresh "C" in
      destruct (check_keys c k) as [[]|?] eqn:C; cbn [bind negb] in H;
      [ exfalso
      | discriminate H
      | injection H as <-; apply (check_keys_raises _ _ _ C) ]
  end.

(** Validation returns [True] on a dict that satisfies the schema and on
    nothing else. *)
Lemma config_isvalid_true_schema v :
  _config_isvalid v = Ok true -> exists d, v = PDict d /\ satisfies_schema d = true.
Proof.
  intros H. destruct v; try (cbv in H; discriminate H).
  - exfalso. unfold _config_isvalid in H.
    pose proof (check_keys_str s required_keys ltac:(discriminate)) as N.
    destruct (check_keys (PStr s) required_keys) as [[]|e]; cbn in H; congruence.
  - exfalso. unfold _config_isvalid in H.
    pose proof (proj1 (check_keys_sequence l required_keys ltac:(discriminate))) as N.
    destruct (check_keys (PList l) required_keys) as [[]|e]; cbn in H; congruence.
  - exfalso. unfold _config_isvalid in H.
    pose proof (proj2 (check_keys_sequence l required_keys ltac:(discriminate))) as N.
    destruct (check_keys (PTuple l) required_keys) as [[]|e]; cbn in H; congruence.
  - exists items. split; [reflexivity|].
    rewrite config_isvalid_dict in H. injection H as H. exact H.
Qed.

(** Validation raises nothing but [TypeError], and that on no dict. *)
Lemma config_isvalid_raises v e :
  _config_isvalid v = Raise e -> e = TypeError /\ forall d, v <> PDict d.
Proof.
  intros H. split.
  - destruct v.
    1-4, 9: (cbv in H; raised H).
    + first_loop H. eapply check_keys_str; [|eassumption]. discriminate.
    + first_loop H.
      eapply (proj1 (check_keys_sequence l required_keys ltac:(discriminate))).
      eassumption.
    + first_loop H.
      eapply (proj2 (check_keys_sequence l required_keys ltac:(discriminate))).
      eassumption.
    + rewrite config_isvalid_dict in H. discriminate H.
  - intros d ->. rewrite config_isvalid_dict in H. discriminate H.
Qed.

Lemma loads_raises s e : loads s = Raise e -> e = JSONDecodeError.
Proof.
  unfold loads. destruct (startswith s [65279]); [intros H; raised H|].
  destruct (scan_once _ _) as [obj rest| |]; try (intros H; raised H).
  destruct (skip_ws rest); intros H; raised H.
Qed.

Lemma snoc_neq {A} (l : list A) x : l ++ [x] <> l.
Proof.
  intros H. apply (f_equal (@List.length A)) in H.
  rewrite length_app in H. cbn in H. lia.
Qed.


(** ** [save_config] *)


(** X3.  [save_config] leaves the store exactly as it was (the file neither
    opened nor written) if and only if validation did not return [True], be it
    that it returned [False] or raised; when validation returned [True] the
    file has been opened for writing once and holds what [json.dump] wrote,
    whatever it held before. *)
Theorem save_config_store fs v :
  (snd (save_config fs v) = fs <-> _config_isvalid v <> Ok true) /\
  (_config_isvalid v = Ok true ->
   snd (save_config fs v)
   = {| file := Some (fst (dump v)); opens := opens fs ++ [ModeW] |}).
Proof.
  assert (T : _config_isvalid v = Ok true ->
              snd (save_config fs v)
              = {| file := Some (fst (dump v)); opens := opens fs ++ [ModeW] |}).
  { intros V. unfold save_config. rewrite V.
    destruct (dump v) as [text stopped]. reflexivity. }
  split; [|exact T]. split.
  - intros E V. rewrite (T V) in E. apply (f_equal opens) in E. cbn in E.
    apply (snoc_neq _ _ E).
  - intros N. unfold save_config.
    destruct (_config_isvalid v) as [[]|e]; [congruence | reflexivity | reflexivity].
Qed.

Lemma save_config_store_witness :
  snd (save_config sample_store PNone) = sample_store /\
  snd (save_config sample_store (PList [PStr (lit "appName")])) = sample_store /\
  snd (save_config {| file := Some (lit "old"); opens := [] |} (PDict sample_config))
  = {| file := Some (fst (dump (PDict sample_config))); opens := [ModeW] |}.
Proof.
  split; [|split].
  - apply (proj1 (save_config_store sample_store PNone)). discriminate.
  - apply (proj1 (save_config_store sample_store (PList [PStr (lit "appName")]))).
    discriminate.
  - apply (proj2 (save_config_store {| file := Some (lit "old"); opens := [] |}
                                    (PDict sample_config))).
    vm_compute. reflexivity.
Defined.

(** ** [get_config] *)

Lemma get_config_returned fs config :
  fst (get_config fs) = Ok config ->
  exists content d,
    file fs = Some content /\ loads content = Ok config /\
    config = PDict d /\ satisfies_schema d = true.
Proof.
  unfold get_config. destruct (file fs) as [content|]; [|discriminate].
  cbn [fst]. destruct (loads content) as [v|e] eqn:L; cbn [bind].
  2:{ intros H. apply loads_raises in L. subst e. discriminate H. }
  destruct (_config_isvalid v) as [[]|e] eqn:V; cbn [bind negb except].
  - intros H. injection H as <-.
    destruct (config_isvalid_true_schema v V) as (d & -> & Hs).
    exists content, d. auto.
  - discriminate.
  - destruct (config_isvalid_raises v e V) as [-> _]. discriminate.
Qed.

(** X4.  [get_config] returns a document exactly when the file exists, its
    text parses to that document, and the document is a dict that satisfies
    the schema. *)
Theorem get_config_returns_iff fs config :
  fst (get_config fs) = Ok config <->
  exists content d,
    file fs = Some content /\ loads content = Ok config /\
    config = PDict d /\ satisfies_schema d = true.
Proof.
  split.
  - apply get_config_returned.
  - intros (content & d & F & L & -> & V).
    rewrite (get_config_object fs content d F L), V. reflexivity.
Qed.



(** X6.  [get_config] never changes the stored text and opens the file at
    most once, for reading; so reading again gives the same outcome. *)
Theorem get_config_read_only fs :
  file (snd (get_config fs)) = file fs /\
  (opens (snd (get_config fs)) = opens fs \/
   opens (snd (get_config fs)) = opens fs ++ [ModeR]) /\
  fst (get_config (snd (get_config fs))) = fst (get_config fs).
Proof.
  unfold get_config. destruct (file fs) as [content|] eqn:F; cbn [fst snd].
  - cbn [open_file file opens]. rewrite F. cbn [fst snd file opens]. auto.
  - rewrite F. auto.
Qed.

(** ** The text [save_config] writes *)

Lemma plain_text_app a b : plain_text (a ++ b) = plain_text a && plain_text b.
Proof. apply forallb_app. Qed.

Lemma digit_plain c : is_digit c = true -> plain c = true.
Proof.
  unfold is_digit, plain. intros H. apply andb_true_iff in H. destruct H as [A B].
  apply Z.leb_le in A, B. apply orb_true_iff. right.
  apply andb_true_iff. split; apply Z.leb_le; lia.
Qed.

Lemma span_digits_plain s : plain_text (fst (span_digits s)) = true.
Proof.
  induction s as [|c s IH]; cbn [span_digits]; [reflexivity|].
  destruct (is_digit c) eqn:D; [|reflexivity].
  destruct (span_digits s) as [ds rest]. cbn [fst plain_text forallb] in *.
  unfold plain_text in IH. rewrite IH, (digit_plain c D). reflexivity.
Qed.

Lemma match_integer_plain s neg ds rest :
  match_integer s = Some (neg, ds, rest) -> plain_text ds = true.
Proof.
  unfold match_integer.
  destruct (match s with
            | [] => (false, s)
            | c :: s' => if c =? 45 then (true, s') else (false, s)
            end) as [n s1].
  destruct s1 as [|c s2]; [discriminate|].
  destruct (c =? 48) eqn:Z0.
  - intros H. injection H as _ <- _. reflexivity.
  - destruct (is_digit c) eqn:D; [|discriminate].
    pose proof (span_digits_plain s2) as P.
    destruct (span_digits s2) as [ds' rest']. intros H. injection H as _ <- _.
    cbn [plain_text forallb fst] in *. unfold plain_text in P.
    rewrite P, (digit_plain c D). reflexivity.
Qed.

Lemma match_frac_plain s : plain_text (fst (match_frac s)) = true.
Proof.
  unfold match_frac. destruct s as [|c s1]; [reflexivity|].
  destruct (c =? 46); [|reflexivity].
  pose proof (span_digits_plain s1) as P.
  destruct (span_digits s1) as [[|d ds] rest]; [reflexivity|].
  cbn [fst] in *. cbn [plain_text forallb] in *. unfold plain_text in P.
  cbn [forallb] in P. rewrite P. reflexivity.
Qed.

Lemma match_exp_plain s : plain_text (fst (match_exp s)) = true.
Proof.
  unfold match_exp. destruct s as [|e s1]; [reflexivity|].
  destruct ((e =? 101) || (e =? 69)) eqn:E; [|reflexivity].
  assert (Pe : plain e = true).
  { apply orb_true_iff in E. destruct E as [E|E]; apply Z.eqb_eq in E; subst;
      reflexivity. }
  set (split := match s1 with
                | [] => ([], s1)
                | c :: s' => if (c =? 45) || (c =? 43) then ([c], s') else ([], s1)
                end).
  assert (Ps : plain_text (fst split) = true).
  { subst split. destruct s1 as [|c s']; [reflexivity|].
    destruct ((c =? 45) || (c =? 43)) eqn:S; [|reflexivity].
    apply orb_true_iff in S. destruct S as [S|S]; apply Z.eqb_eq in S; subst;
      reflexivity. }
  destruct split as [sign s2]. cbn [fst] in Ps.
  pose proof (span_digits_plain s2) as P.
  destruct (span_digits s2) as [[|d ds] rest]; [reflexivity|].
  cbn [fst] in *. change (plain_text (e :: sign ++ d :: ds))
    with (plain e && plain_text (sign ++ d :: ds)).
  rewrite Pe, plain_text_app, Ps, P. reflexivity.
Qed.

Lemma float_literal_plain repr :
  float_literal repr = true -> plain_text repr = true.
Proof.
  unfold float_literal, match_number.
  destruct (match_integer repr) as [[[neg ds] s1]|] eqn:M; [|discriminate].
  pose proof (match_frac_plain s1) as F.
  destruct (match_frac s1) as [frac s2].
  pose proof (match_exp_plain s2) as X.
  destruct (match_exp s2) as [exp s3]. cbn [fst] in *.
  pose proof (match_integer_plain _ _ _ _ M) as I.
  assert (P : plain_text ((if neg then 45 :: ds else ds) ++ frac ++ exp) = true).
  { rewrite !plain_text_app, F, X.
    destruct neg; [change (plain_text (45 :: ds)) with (plain 45 && plain_text ds)|];
      rewrite I; reflexivity. }
  destruct frac as [|f frac]; [destruct exp as [|x exp]|].
  - discriminate.
  - destruct s3; [|discriminate]. intros E. apply str_eqb_eq in E. subst repr. exact P.
  - destruct s3; [|discriminate]. intros E. apply str_eqb_eq in E. subst repr. exact P.
Qed.

Lemma hex_digit_plain d : 0 <= d < 16 -> plain (hex_digit d) = true.
Proof.
  intros H. unfold hex_digit, plain. apply orb_true_iff. right.
  destruct (d <? 10) eqn:E; [apply Z.ltb_lt in E | apply Z.ltb_ge in E];
    apply andb_true_iff; split; apply Z.leb_le; lia.
Qed.

Lemma u_escape_plain n : plain_text (u_escape n) = true.
Proof.
  unfold u_escape. cbn [plain_text forallb].
  rewrite !hex_digit_plain by (apply Z.mod_pos_bound; lia). reflexivity.
Qed.

Lemma escape_char_plain c : plain_text (escape_char c) = true.
Proof.
  unfold escape_char.
  destruct (c =? 92); [reflexivity|].
  destruct (c =? 34); [reflexivity|].
  destruct ((32 <=? c) && (c <=? 126)) eqn:P.
  { cbn [plain_text forallb]. unfold plain. rewrite P, orb_true_r. reflexivity. }
  destruct (c =? 8); [reflexivity|].
  destruct (c =? 12); [reflexivity|].
  destruct (c =? 10); [reflexivity|].
  destruct (c =? 13); [reflexivity|].
  destruct (c =? 9); [reflexivity|].
  destruct (c <? 65536); [apply u_escape_plain|].
  cbv zeta. rewrite plain_text_app, !u_escape_plain. reflexivity.
Qed.

Lemma encode_plain s : plain_text (encode_basestring_ascii s) = true.
Proof.
  unfold encode_basestring_ascii. rewrite !plain_text_app.
  assert (F : plain_text (flat_map escape_char s) = true).
  { induction s as [|c s IH]; [reflexivity|]. cbn [flat_map].
    rewrite plain_text_app, escape_char_plain, IH. reflexivity. }
  rewrite F. reflexivity.
Qed.

Lemma uint_digits_plain u : plain_text (uint_digits u) = true.
Proof.
  pose proof (uint_digits_are_digits u) as D. unfold plain_text.
  apply forallb_forall. rewrite Forall_forall in D.
  intros c Hc. apply digit_plain. apply D. exact Hc.
Qed.

Lemma intstr_plain z : plain_text (intstr z) = true.
Proof.
  destruct z as [|p|p]; cbn [intstr]; [reflexivity | apply uint_digits_plain|].
  change (plain_text (45 :: uint_digits (Pos.to_uint p)))
    with (plain 45 && plain_text (uint_digits (Pos.to_uint p))).
  rewrite uint_digits_plain. reflexivity.
Qed.

Lemma newline_indent_plain n : plain_text (newline_indent n) = true.
Proof.
  unfold newline_indent. change (plain_text (10 :: repeat 32 (4 * n)))
    with (plain 10 && plain_text (repeat 32 (4 * n))).
  cbn [andb]. change (plain 10) with true. cbn [andb].
  induction (4 * n)%nat as [|k IH]; [reflexivity|]. cbn [repeat].
  change (plain_text (32 :: repeat 32 k)) with (plain 32 && plain_text (repeat 32 k)).
  rewrite IH. reflexivity.
Qed.

Lemma plain_seq (a b : emit) :
  plain_text (fst a) = true -> plain_text (fst b) = true ->
  plain_text (fst (a ;;; b)) = true.
Proof.
  destruct a as [out [e|]]; cbn [seq fst]; intros A B; [exact A|].
  rewrite plain_text_app, A, B. reflexivity.
Qed.

Lemma plain_yield s : plain_text s = true -> plain_text (fst (yield s)) = true.
Proof. intros H. exact H. Qed.

Lemma list_items_plain enc sep l :
  plain_text sep = true ->
  Forall (fun v => plain_text (fst (enc v)) = true) l ->
  forall first, plain_text (fst (list_items enc sep l first)) = true.
Proof.
  intros Hs. induction 1 as [|v l Hv _ IH]; intros first; cbn [list_items];
    [reflexivity|].
  apply plain_seq; [destruct first; [reflexivity | exact Hs]|].
  apply plain_seq; [exact Hv | apply IH].
Qed.

Lemma dict_items_plain enc sep d :
  plain_text sep = true ->
  Forall (fun kv => (exists k, fst kv = PStr k) /\ plain_text (fst (enc (snd kv))) = true) d ->
  forall first, plain_text (fst (dict_items enc sep d first)) = true.
Proof.
  intros Hs. induction 1 as [|[k v] d [[ks Hk] Hv] _ IH]; intros first;
    cbn [dict_items]; [reflexivity|].
  cbn [fst snd] in *. subst k. cbn [key_text].
  apply plain_seq; [destruct first; [reflexivity | exact Hs]|].
  apply plain_seq; [apply encode_plain|].
  apply plain_seq; [reflexivity|].
  apply plain_seq; [exact Hv | apply IH].
Qed.

Lemma iterencode_plain v :
  json_value v = true -> forall level, plain_text (fst (_iterencode v level)) = true.
Proof.
  induction v as [| b | z | f | s | l IH | l IH | d IH |] using pyval_ind;
    intros Hj level; try discriminate Hj.
  - reflexivity.
  - destruct b; reflexivity.
  - apply intstr_plain.
  - destruct f as [| | |repr]; try reflexivity.
    apply float_literal_plain. exact Hj.
  - apply encode_plain.
  - cbn [_iterencode json_value] in *. destruct l as [|v l]; [reflexivity|].
    unfold _iterencode_list.
    apply plain_seq; [reflexivity|].
    apply plain_seq; [apply newline_indent_plain|].
    apply plain_seq; [|apply plain_seq; [apply newline_indent_plain | reflexivity]].
    apply list_items_plain.
    + change (plain_text (44 :: newline_indent (S level)))
        with (plain 44 && plain_text (newline_indent (S level))).
      rewrite newline_indent_plain. reflexivity.
    + rewrite forallb_forall in Hj. rewrite Forall_forall in *.
      intros x Hx. apply (IH x Hx (Hj x Hx)).
  - cbn [_iterencode]. destruct d as [|kv d]; [reflexivity|].
    unfold _iterencode_dict.
    apply plain_seq; [reflexivity|].
    apply plain_seq; [apply newline_indent_plain|].
    apply plain_seq; [|apply plain_seq; [apply newline_indent_plain | reflexivity]].
    apply dict_items_plain.
    + change (plain_text (44 :: newline_indent (S level)))
        with (plain 44 && plain_text (newline_indent (S level))).
      rewrite newline_indent_plain. reflexivity.
    + cbn [json_value] in Hj. apply andb_true_iff in Hj. destruct Hj as [Hj _].
      rewrite forallb_forall in Hj. rewrite Forall_forall in *.
      intros [k x] Hx. specialize (Hj _ Hx). cbn [fst snd] in *.
      apply andb_true_iff in Hj. destruct Hj as [Hk Hv].
      split; [destruct k; try discriminate Hk; eauto|].
      apply (proj2 (IH _ Hx) Hv).
Qed.

(** X22.  The file [save_config] writes for a valid document made of JSON
    values is plain ASCII: every character of it is a newline or a printable
    ASCII character, whatever characters the strings of the document hold
    (the others are written as [\uXXXX] escapes). *)
Theorem save_config_writes_ascii fs d :
  satisfies_schema d = true -> json_value (PDict d) = true ->
  exists text,
    file (snd (save_config fs (PDict d))) = Some text /\
    Forall (fun c => c = 10 \/ 32 <= c <= 126) text.
Proof.
  intros Hs Hj. rewrite save_config_dict, Hs. cbn [snd file].
  eexists. split; [reflexivity|].
  pose proof (iterencode_plain (PDict d) Hj O) as P. fold (dump (PDict d)) in P.
  unfold plain_text in P. rewrite forallb_forall in P.
  apply Forall_forall. intros c Hc. specialize (P c Hc).
  unfold plain in P. apply orb_true_iff in P. destruct P as [P|P].
  - left. apply Z.eqb_eq. exact P.
  - right. apply andb_true_iff in P. destruct P as [A B].
    apply Z.leb_le in A, B. lia.
Qed.

Lemma save_config_writes_ascii_witness :
  exists text,
    file (snd (save_config sample_store (PDict accented_config))) = Some text /\
    Forall (fun c => c = 10 \/ 32 <= c <= 126) text.
Proof.
  apply (save_config_writes_ascii sample_store accented_config);
    vm_compute; reflexivity.
Defined.

(** ** The reads of [main.py] *)

Lemma has_field_getitem d name t :
  has_field d name t = true ->
  exists v, py_getitem (PDict d) (lit name) = Ok v /\ isinstance v t = true.
Proof.
  unfold has_field. cbn [py_getitem].
  destruct (dict_lookup d (PStr (lit name))) as [v|]; [|discriminate].
  intros H. exists v. auto.
Qed.

Lemma has_object_field d name :
  has_field d name Tdict = true ->
  py_getitem (PDict d) (lit name) = Ok (PDict (object_field d name)).
Proof.
  unfold has_field, object_field. cbn [py_getitem].
  destruct (dict_lookup d (PStr (lit name))) as [v|]; [|discriminate].
  destruct v; try discriminate. reflexivity.
Qed.

Lemma isinstance_str v : isinstance v Tstr = true -> exists s, v = PStr s.
Proof. destruct v; try discriminate. eauto. Qed.

(** X7.  On a document [get_config] returned, every read [main.py] makes
    succeeds: the log file and the log level are there and are strings (so
    [.upper()] applies), and so are the application name and the version;
    [settings] and [paths] are dicts. *)
Theorem launcher_reads_succeed fs config :
  fst (get_config fs) = Ok config ->
  exists logfile level name version settings paths,
    log_file config = Ok (PStr logfile) /\
    log_level config = Ok level /\
    banner config = Ok (PStr name, PStr version, PDict settings, PDict paths).
Proof.
  intros H. apply get_config_returned in H.
  destruct H as (content & d & _ & _ & -> & S).
  unfold satisfies_schema in S. cbv zeta in S.
  apply andb_true_iff in S. destruct S as [S Hpaths].
  apply andb_true_iff in S. destruct S as [S Hsettings].
  apply andb_true_iff in S. destruct S as [S HP].
  apply andb_true_iff in S. destruct S as [S HS].
  apply andb_true_iff in S. destruct S as [HA HV].
  apply andb_true_iff in Hsettings. destruct Hsettings as [Hsettings _].
  apply andb_true_iff in Hsettings. destruct Hsettings as [_ Hlevel].
  apply andb_true_iff in Hpaths. destruct Hpaths as [_ Hlog].
  destruct (has_field_getitem _ _ _ HA) as (v1 & G1 & T1).
  destruct (isinstance_str _ T1) as [name ->].
  destruct (has_field_getitem _ _ _ HV) as (v2 & G2 & T2).
  destruct (isinstance_str _ T2) as [version ->].
  pose proof (has_object_field _ _ HS) as G3.
  pose proof (has_object_field _ _ HP) as G4.
  destruct (has_field_getitem _ _ _ Hlog) as (v5 & G5 & T5).
  destruct (isinstance_str _ T5) as [logfile ->].
  destruct (has_field_getitem _ _ _ Hlevel) as (v6 & G6 & T6).
  destruct (isinstance_str _ T6) as [level ->].
  exists logfile, (str_upper level), name, version,
    (object_field d "settings"), (object_field d "paths").
  unfold log_file, log_level, banner.
  rewrite G1, G2, G3, G4. cbn [bind]. rewrite G5, G6. cbn [bind py_upper].
  auto.
Qed.

Lemma launcher_reads_succeed_witness :
  exists logfile level name version settings paths,
    log_file (PDict sample_config) = Ok (PStr logfile) /\
    log_level (PDict sample_config) = Ok level /\
    banner (PDict sample_config)
    = Ok (PStr name, PStr version, PDict settings, PDict paths).
Proof.
  apply (launcher_reads_succeed sample_store (PDict sample_config)).
  vm_compute. reflexivity.
Defined.

End ConfigHandlerProperties.

(* ================================================================== *)
(** * The API client: what a call changes, construction, the index as JSON *)
(* ================================================================== *)

Module NinjaAPIProperties.
Import Py JsonFacts NinjaAPI NinjaAPIFacts NinjaMain.
Local Open Scope py_scope.

(** ** Definitions *)

(** [self'] is [self] but for the credential it refers to. *)
Definition same_settings (self self' : NinjaRMMAPI) : Prop :=
  _environment self' = _environment self /\
  _client_id self' = _client_id self /\
  _client_secret self' = _client_secret self /\
  _base_url self' = _base_url self /\
  _docs_path self' = _docs_path self /\
  _token_url self' = _token_url self /\
  documentation self' = documentation self.

(** From [w] to [w'] the requests [requests] were sent, in this order, and
    the credential objects [created] were created; the environment is the
    same. *)
Definition extends (w w' : world) (requests : list sent)
  (created : list OAUTHResponse) : Prop :=
  environ w' = environ w /\
  wire w' = wire w ++ requests /\
  heap w' = heap w ++ created.

(** What [raise_for_status] and [response.json()] make of an answer. *)
Definition answer_result (r : response) : result pyval :=
  if (400 <=? status_code r) && (status_code r <? 600)
  then Raise (HTTPError (status_code r))
  else json r.

(** The client [__init__] builds from the environment, with the credential it
    refers to and its documentation. *)
Definition configured (w : world) (oauth : ref) (docs : pyval) : NinjaRMMAPI :=
  {| _environment := environ w "NINJA_ENVIRONMENT";
     _client_id := environ w "NINJA_CLIENT_ID";
     _client_secret := environ w "NINJA_CLIENT_SECRET";
     _base_url := environ w "NINJA_BASE_URL";
     _docs_path := environ w "NINJA_DOCS_PATH";
     _token_url := lit "https://"
                   ++ format_value (environ w "NINJA_ENVIRONMENT")
                   ++ lit ".ninjarmm.com/ws/oauth/token";
     _oauth := oauth;
     documentation := docs |}.

(** The environment passes the two checks of [__init__]. *)
Definition environment_ok (w : world) : Prop :=
  (forall var, In var required_variables -> unset (environ w var) = false) /\
  in_valid_environments (environ w "NINJA_ENVIRONMENT") = true.

(** The world after the credential request of [__init__] was answered. *)
Definition after_token_request (w : world) (elapsed : Q) (rest : list (Q * option response))
  (created : list OAUTHResponse) : world :=
  {| environ := environ w; clock := (clock w + elapsed)%Q; network := rest;
     wire := wire w ++ [token_request (configured w O (PDict []))];
     heap := heap w ++ created |}.

(** The four fields [_request_credentials] reads from the answer. *)
Definition credential_fields : list string :=
  ["access_token"; "token_type"; "expires_in"; "scope"]%string.

(** A dict key [json.dump] accepts. *)
Definition writable_key (k : pyval) : bool :=
  match Json.key_text k with Some _ => true | None => false end.

(** The credential of a token endpoint that sends [expires_in] as a string. *)
Definition text_credential : OAUTHResponse :=
  {| access_token := PStr (lit "abc"); token_type := PStr (lit "Bearer");
     expires_in := PStr (lit "3600"); scope := PStr (lit "monitoring");
     obtained_at := 1000%Q |}.

(** A world that holds the credential [o] and whose clock shows [now]. *)
Definition world_with (o : OAUTHResponse) (now : time) : world :=
  {| environ := sample_environ (lit "app"); clock := now;
     network := network (sample_world (lit "app"));
     wire := []; heap := [o] |}.

(** A world whose token endpoint refuses the client. *)
Definition refusing_world : world :=
  {| environ := sample_environ (lit "app"); clock := 1000%Q;
     network := [(1%Q, Some {| status_code := 401;
                               json := Ok (PDict [(PStr (lit "error"),
                                                   PStr (lit "invalid_client"))]) |})];
     wire := []; heap := [] |}.

(** A world in which the script runs to its end: the token endpoint, the
    documentation endpoint and the organizations endpoint answer. *)
Definition script_world : world :=
  {| environ := sample_environ (lit "app"); clock := 1000%Q;
     network :=
       [(1%Q, Some {| status_code := 200;
                      json := Ok (PDict [(PStr (lit "access_token"), PStr (lit "abc"));
                                         (PStr (lit "token_type"), PStr (lit "Bearer"));
                                         (PStr (lit "expires_in"), PInt 3600);
                                         (PStr (lit "scope"), PStr (lit "monitoring"))]) |});
        (1%Q, Some {| status_code := 200; json := Ok fixture |});
        (1%Q, Some {| status_code := 200; json := Ok (PList []) |})];
     wire := []; heap := [] |}.

(** ** What a call changes *)

Lemma same_settings_refl self : same_settings self self.
Proof. repeat split. Qed.

Lemma extends_refl w : extends w w [] [].
Proof. unfold extends. rewrite !app_nil_r. auto. Qed.

Lemma extends_trans w1 w2 w3 s1 c1 s2 c2 :
  extends w1 w2 s1 c1 -> extends w2 w3 s2 c2 ->
  extends w1 w3 (s1 ++ s2) (c1 ++ c2).
Proof.
  unfold extends. intros (E1 & W1 & H1) (E2 & W2 & H2).
  rewrite E2, E1, W2, W1, H2, H1, !app_assoc. auto.
Qed.

Lemma exchange_extends rq self w :
  let out := exchange rq self w in
  snd (fst out) = self /\ extends w (snd out) [rq] [].
Proof.
  unfold exchange, extends.
  destruct (network w) as [|[elapsed [r|]] rest]; cbn; rewrite app_nil_r; auto.
Qed.

Lemma request_credentials_extends self w :
  let out := _request_credentials self w in
  snd (fst out) = self /\
  exists created,
    extends w (snd out) [token_request self] created /\
    (List.length created <= 1)%nat.
Proof.
  cbv zeta.
  pose proof (request_credentials_cases self w) as (W & S & C). cbv zeta in *.
  pose proof (exchange_extends (token_request self) self w) as (_ & E & _ & _).
  split; [exact S|].
  assert (Env : environ (snd (_request_credentials self w)) = environ w).
  { unfold _request_credentials, then_, lift, time_time, new_credential.
    unfold token_request in E.
    destruct (exchange _ self w) as [[[r|e] self1] w1]; cbn [fst snd] in *;
      [|exact E].
    destruct (raise_for_status r) as [[]|e]; cbn [fst snd]; [|exact E].
    destruct (json r) as [body|e]; cbn [fst snd]; [|exact E].
    repeat match goal with
    | |- context [py_getitem body ?k] =>
        destruct (py_getitem body k) as [?|?]; cbn [fst snd]; [|exact E]
    end.
    exact E. }
  destruct C as [(e & R & H) | (fresh & R & H)].
  - exists []. split; [|cbn; lia]. unfold extends. rewrite app_nil_r. auto.
  - exists [fresh]. split; [|cbn; lia]. unfold extends. auto.
Qed.

Lemma authenticate_extends self w :
  let out := _authenticate self w in
  same_settings self (snd (fst out)) /\
  exists requests created,
    extends w (snd out) requests created /\
    (List.length requests <= 1)%nat /\ (List.length created <= 1)%nat.
Proof.
  cbv zeta. cbv [_authenticate then_ current_credential time_time lift ret].
  destruct (nth_error (heap w) (_oauth self)) as [o|]; cbn [fst snd].
  2:{ split; [apply same_settings_refl|]. exists [], []. split; [apply extends_refl|].
      cbn; lia. }
  destruct (is_expired (clock w) o) as [[]|e]; cbn [fst snd].
  - pose proof (request_credentials_extends self w) as (S & created & E & L).
    cbv zeta in *.
    destruct (_request_credentials self w) as [[[fresh|e] self1] w1];
      cbn [fst snd] in *; subst self1.
    + split; [repeat split|]. exists [token_request self], created.
      split; [exact E|]. cbn; lia.
    + split; [apply same_settings_refl|]. exists [token_request self], created.
      split; [exact E|]. cbn; lia.
  - split; [apply same_settings_refl|]. exists [], []. split; [apply extends_refl|].
    cbn; lia.
  - split; [apply same_settings_refl|]. exists [], []. split; [apply extends_refl|].
    cbn; lia.
Qed.

Lemma send_request_extends method path kwargs self w :
  let out := send_request method path kwargs self w in
  snd (fst out) = self /\
  exists requests,
    extends w (snd out) requests [] /\ (List.length requests <= 1)%nat.
Proof.
  cbv zeta. cbv [send_request then_ current_credential].
  destruct (nth_error (heap w) (_oauth self)) as [o|]; cbn [fst snd].
  2:{ split; [reflexivity|]. exists []. split; [apply extends_refl | cbn; lia]. }
  pose proof (exchange_extends (api_request self method path kwargs o) self w)
    as (S & E). cbv zeta in *.
  destruct (exchange _ self w) as [[[r|e] self1] w1]; cbn [fst snd] in *.
  - unfold lift. destruct (raise_for_status r) as [[]|e]; cbn [fst snd];
      (split; [exact S|]); eexists; (split; [exact E | cbn; lia]).
  - split; [exact S|]. eexists; (split; [exact E | cbn; lia]).
Qed.

Lemma request_same_settings method path kwargs self w :
  same_settings self (snd (fst (request method path kwargs self w))).
Proof.
  rewrite request_unfold.
  pose proof (authenticate_extends self w) as (S1 & _). cbv zeta in S1.
  destruct (_authenticate self w) as [[[[]|e] self1] w1]; cbn [fst snd] in *;
    [|exact S1].
  pose proof (send_request_extends method path kwargs self1 w1) as (S2 & _).
  cbv zeta in S2. rewrite S2. exact S1.
Qed.

(** X8.  One call of [request] changes nothing of the client but the
    credential it refers to, leaves the environment alone, sends at most two
    requests and creates at most one credential object; what was sent and
    created before stays. *)
Theorem request_frame method path kwargs self w :
  let out := request method path kwargs self w in
  same_settings self (snd (fst out)) /\
  exists requests created,
    extends w (snd out) requests created /\
    (List.length requests <= 2)%nat /\ (List.length created <= 1)%nat.
Proof.
  cbv zeta. rewrite request_unfold.
  pose proof (authenticate_extends self w) as (S1 & r1 & c1 & E1 & L1 & C1).
  cbv zeta in *.
  destruct (_authenticate self w) as [[[[]|e] self1] w1]; cbn [fst snd] in *.
  - pose proof (send_request_extends method path kwargs self1 w1)
      as (S2 & r2 & E2 & L2). cbv zeta in *.
    destruct (send_request method path kwargs self1 w1) as [[res self2] w2].
    cbn [fst snd] in *. subst self2. split; [exact S1|].
    exists (r1 ++ r2), (c1 ++ []). split; [apply (extends_trans _ _ _ _ _ _ _ E1 E2)|].
    rewrite !length_app. cbn. lia.
  - split; [exact S1|]. exists r1, c1. split; [exact E1|]. lia.
Qed.

(** ** Expiry *)

(** X9.  An expired credential stays expired: [is_expired] never goes back
    from true to false as time passes. *)
Theorem is_expired_monotone (o : OAUTHResponse) (t t' : time) :
  is_expired t o = Ok true -> (t <= t')%Q -> is_expired t' o = Ok true.
Proof.
  unfold is_expired. destruct (expiry o) as [[d| | |]|e]; cbn [bind];
    try discriminate; try reflexivity.
  intros H L. injection H as H. apply Qlt_bool_iff in H. f_equal.
  apply Qlt_bool_iff. eapply Qlt_le_trans; eassumption.
Qed.

Lemma is_expired_monotone_witness :
  is_expired 4601%Q sample_credential = Ok true /\
  is_expired 9000%Q sample_credential = Ok true.
Proof.
  split; [reflexivity|].
  apply (is_expired_monotone sample_credential 4601%Q 9000%Q); [reflexivity|].
  discriminate.
Defined.

(** X10.  Whether [is_expired] raises does not depend on the time: it raises
    [TypeError] exactly when [expires_in] is no number ([None], a string, a
    list, ...), and [OverflowError] exactly when it is an integer too large
    for a float. *)
Theorem is_expired_raises (o : OAUTHResponse) (now : time) (e : exn) :
  is_expired now o = Raise e <->
  (e = TypeError /\
   match expires_in o with
   | PInt _ | PBool _ | PFloat _ => False
   | _ => True
   end) \/
  (e = OverflowError /\
   exists z, expires_in o = PInt z /\ converts_to_float z = false).
Proof.
  unfold is_expired, expiry.
  destruct (expires_in o) as [| b | z | [| | |r] | s | l | l | d |]; cbn [bind];
    try (split; [intros H; injection H as <-; left; auto
                | intros [[-> _] | [-> (z' & Hz & _)]]; [reflexivity | discriminate Hz]]);
    try (split; [discriminate
                | intros [[_ []] | [_ (z' & Hz & _)]]; discriminate Hz]).
  destruct (converts_to_float z) eqn:C; cbn [bind]; split.
  - discriminate.
  - intros [[_ []] | [_ (z' & Hz & C')]]. injection Hz as <-. congruence.
  - intros H. injection H as <-. right. split; [reflexivity|]. eauto.
  - intros [[_ []] | [-> _]]. reflexivity.
Qed.

(** X11.  A client whose credential cannot tell whether it is expired sends
    nothing: [request] raises what [is_expired] raised, and the client and
    the world are as before. *)
Theorem request_unusable_credential method path kwargs self w o e :
  nth_error (heap w) (_oauth self) = Some o ->
  is_expired (clock w) o = Raise e ->
  request method path kwargs self w = (Raise e, self, w).
Proof.
  intros Ho E. rewrite request_unfold.
  cbv [_authenticate then_ current_credential time_time lift].
  rewrite Ho, E. reflexivity.
Qed.

Lemma request_unusable_credential_witness :
  request GET (lit "/v2/organizations") no_options sample_client
          (world_with text_credential 2000%Q)
  = (Raise TypeError, sample_client, world_with text_credential 2000%Q).
Proof.
  apply (request_unusable_credential GET (lit "/v2/organizations") no_options
           sample_client (world_with text_credential 2000%Q) text_credential);
    reflexivity.
Defined.

(** ** Requests *)

Lemma send_request_answered method path kwargs self w o elapsed r rest :
  nth_error (heap w) (_oauth self) = Some o ->
  network w = (elapsed, Some r) :: rest ->
  send_request method path kwargs self w
  = (answer_result r, self,
     {| environ := environ w; clock := (clock w + elapsed)%Q; network := rest;
        wire := wire w ++ [api_request self method path kwargs o];
        heap := heap w |}).
Proof.
  intros Ho N.
  cbv [send_request then_ current_credential exchange lift].
  rewrite Ho, N. unfold answer_result, raise_for_status.
  destruct ((400 <=? status_code r) && (status_code r <? 600)); reflexivity.
Qed.



Lemma request_after_refresh method path kwargs self w o fresh :
  nth_error (heap w) (_oauth self) = Some o ->
  is_expired (clock w) o = Ok true ->
  let out := request method path kwargs self w in
  heap (snd out) = heap w ++ [fresh] ->
  nth_error (heap (snd out)) (_oauth (snd (fst out))) = Some fresh /\
  same_settings self (snd (fst out)).
Proof.
  intros Ho E out H. split; [|apply request_same_settings].
  subst out. rewrite request_unfold in *.
  rewrite (authenticate_expired self w o Ho E) in *.
  pose proof (request_credentials_cases self w) as (_ & S & C). cbv zeta in *.
  destruct (_request_credentials self w) as [[r self1] w1].
  cbn [fst snd] in *. subst self1.
  destruct C as [(e & -> & H1) | (fresh' & -> & H1)].
  - cbn [snd] in H. exfalso. assert (X : heap w = heap w ++ [fresh]) by congruence.
    apply (f_equal (@List.length _)) in X. rewrite length_app in X. cbn in X. lia.
  - cbv [set_oauth] in *.
    match type of H with
    | context [send_request method path kwargs ?s w1] =>
        pose proof (send_request_wire method path kwargs s w1 fresh') as SR
    end.
    cbn [_oauth heap] in SR. rewrite H1, nth_error_snoc in SR.
    specialize (SR eq_refl). cbv zeta in SR. destruct SR as (_ & H2 & S2).
    destruct (send_request _ _ _ _ w1) as [[r2 self2] w2].
    cbn [fst snd] in *. subst self2. cbn [_oauth].
    rewrite H2 in H. apply app_inv_head in H. injection H as ->.
    rewrite H2. apply nth_error_snoc.
Qed.



(** ** The documentation snapshot *)

Lemma refresh_documentation_unfold self w path :
  _docs_path self = Some path ->
  refresh_documentation self w
  = match request GET path no_options self w with
    | (Ok docs, self1, w1) => set_documentation docs self1 w1
    | (Raise e, self1, w1) => (Raise e, self1, w1)
    end.
Proof. intros P. unfold refresh_documentation. rewrite P. reflexivity. Qed.

(** X14.  [refresh_documentation] replaces the snapshot by the body of the
    answer when its request succeeds, and leaves the snapshot as it was when
    anything raises. *)
Theorem refresh_documentation_outcome self w :
  let out := refresh_documentation self w in
  (forall e, fst (fst out) = Raise e ->
             documentation (snd (fst out)) = documentation self) /\
  (fst (fst out) = Ok tt ->
   exists path,
     _docs_path self = Some path /\
     fst (fst (request GET path no_options self w))
     = Ok (documentation (snd (fst out))) /\
     snd (request GET path no_options self w) = snd out).
Proof.
  cbv zeta. destruct (_docs_path self) as [path|] eqn:P.
  - rewrite (refresh_documentation_unfold self w path P).
    pose proof (request_same_settings GET path no_options self w) as S.
    destruct (request GET path no_options self w) as [[[docs|e] self1] w1] eqn:R;
      cbn [fst snd] in *.
    + split; [discriminate|]. intros _. exists path. rewrite R. repeat split.
    + split; [|discriminate]. intros _ _. apply S.
  - unfold refresh_documentation. rewrite P. unfold then_, raise.
    pose proof (authenticate_extends self w) as (S & _). cbv zeta in S.
    destruct (_authenticate self w) as [[[[]|e] self1] w1]; cbn [fst snd] in *;
      (split; [intros _ _; apply S | discriminate]).
Qed.

Lemma refresh_documentation_outcome_witness :
  (exists path,
      _docs_path sample_client = Some path /\
      fst (fst (request GET path no_options sample_client (world_at 2000%Q)))
      = Ok (documentation
              (snd (fst (refresh_documentation sample_client (world_at 2000%Q)))))) /\
  documentation
    (snd (fst (refresh_documentation sample_client (world_with text_credential 2000%Q))))
  = documentation sample_client.
Proof.
  split.
  - destruct (proj2 (refresh_documentation_outcome sample_client (world_at 2000%Q))
                    eq_refl) as (path & P & R & _).
    exists path. split; assumption.
  - apply (proj1 (refresh_documentation_outcome
                    sample_client (world_with text_credential 2000%Q)) TypeError).
    reflexivity.
Defined.

(** ** Construction *)

Lemma init_unfold w :
  environment_ok w ->
  __init__ w
  = match (fresh <-- _request_credentials ;;
           set_oauth fresh ;;;
           set_documentation (PDict []) ;;;
           refresh_documentation)%method (configured w O (PDict [])) w with
    | (Ok _, self', w') => (Ok self', w')
    | (Raise e, _, w') => (Raise e, w')
    end.
Proof.
  intros [Hset Hvalid]. unfold __init__.
  rewrite (filter_none _ _ Hset), Hvalid. reflexivity.
Qed.

Lemma request_credentials_ok self w elapsed r rest body token kind lifetime granted :
  network w = (elapsed, Some r) :: rest ->
  answer_result r = Ok body ->
  py_getitem body (lit "access_token") = Ok token ->
  py_getitem body (lit "token_type") = Ok kind ->
  py_getitem body (lit "expires_in") = Ok lifetime ->
  py_getitem body (lit "scope") = Ok granted ->
  _request_credentials self w
  = (Ok (List.length (heap w)), self,
     {| environ := environ w; clock := (clock w + elapsed)%Q; network := rest;
        wire := wire w ++ [token_request self];
        heap := heap w ++ [{| access_token := token; token_type := kind;
                              expires_in := lifetime; scope := granted;
                              obtained_at := (clock w + elapsed)%Q |}] |}).
Proof.
  intros N A H1 H2 H3 H4.
  unfold answer_result in A.
  cbv [_request_credentials then_ exchange lift time_time new_credential token_request].
  rewrite N. unfold raise_for_status.
  destruct ((400 <=? status_code r) && (status_code r <? 600)); [discriminate A|].
  rewrite A, H1, H2, H3, H4. reflexivity.
Qed.

Lemma request_credentials_rejected self w elapsed r rest e :
  network w = (elapsed, Some r) :: rest ->
  answer_result r = Raise e ->
  _request_credentials self w
  = (Raise e, self,
     {| environ := environ w; clock := (clock w + elapsed)%Q; network := rest;
        wire := wire w ++ [token_request self]; heap := heap w |}).
Proof.
  intros N A. unfold answer_result in A.
  cbv [_request_credentials then_ exchange lift time_time new_credential token_request].
  rewrite N. unfold raise_for_status.
  destruct ((400 <=? status_code r) && (status_code r <? 600)).
  - injection A as <-. reflexivity.
  - rewrite A. reflexivity.
Qed.

Lemma request_credentials_incomplete self w elapsed r rest d field :
  network w = (elapsed, Some r) :: rest ->
  answer_result r = Ok (PDict d) ->
  In field credential_fields ->
  dict_lookup d (PStr (lit field)) = None ->
  _request_credentials self w
  = (Raise KeyError, self,
     {| environ := environ w; clock := (clock w + elapsed)%Q; network := rest;
        wire := wire w ++ [token_request self]; heap := heap w |}).
Proof.
  intros N A Hin L. unfold answer_result in A.
  cbv [_request_credentials then_ exchange lift time_time new_credential token_request].
  rewrite N. unfold raise_for_status.
  destruct ((400 <=? status_code r) && (status_code r <? 600)); [discriminate A|].
  rewrite A. cbn [py_getitem].
  destruct (dict_lookup d (PStr (lit "access_token"))) eqn:L1; [|reflexivity].
  destruct (dict_lookup d (PStr (lit "token_type"))) eqn:L2; [|reflexivity].
  destruct (dict_lookup d (PStr (lit "expires_in"))) eqn:L3; [|reflexivity].
  destruct (dict_lookup d (PStr (lit "scope"))) eqn:L4; [|reflexivity].
  exfalso. unfold credential_fields in Hin.
  repeat (destruct Hin as [<- | Hin]; [congruence|]). destruct Hin.
Qed.

(** X15.  When the environment passes the checks, the token endpoint answers
    with the four fields of a credential that is not expired on arrival, and
    the documentation endpoint answers with a body: [__init__] sends the
    credential request to [https://<environment>.ninjarmm.com/ws/oauth/token]
    and then the documentation request with the new token, in this order and
    nothing else, and returns a client that holds the credential and the
    documentation. *)
Theorem init_success w e1 r1 e2 r2 rest body token kind lifetime granted
  docs_path docs :
  environment_ok w ->
  environ w "NINJA_DOCS_PATH" = Some docs_path ->
  network w = (e1, Some r1) :: (e2, Some r2) :: rest ->
  answer_result r1 = Ok body ->
  py_getitem body (lit "access_token") = Ok token ->
  py_getitem body (lit "token_type") = Ok kind ->
  py_getitem body (lit "expires_in") = Ok lifetime ->
  py_getitem body (lit "scope") = Ok granted ->
  let credential := {| access_token := token; token_type := kind;
                       expires_in := lifetime; scope := granted;
                       obtained_at := (clock w + e1)%Q |} in
  is_expired (clock w + e1)%Q credential = Ok false ->
  answer_result r2 = Ok docs ->
  __init__ w
  = (Ok (configured w (List.length (heap w)) docs),
     {| environ := environ w; clock := (clock w + e1 + e2)%Q; network := rest;
        wire := wire w ++
                [TokenRequest (lit "https://"
                               ++ format_value (environ w "NINJA_ENVIRONMENT")
                               ++ lit ".ninjarmm.com/ws/oauth/token")
                              (environ w "NINJA_CLIENT_ID")
                              (environ w "NINJA_CLIENT_SECRET");
                 ApiRequest GET (environ w "NINJA_BASE_URL") docs_path
                            (kind, token) (PInt 10) []];
        heap := heap w ++ [credential] |}).
Proof.
  intros Env Hdocs N A1 H1 H2 H3 H4 credential E A2.
  rewrite (init_unfold w Env).
  unfold then_ at 1.
  rewrite (request_credentials_ok _ w e1 r1 _ body token kind lifetime granted
             N A1 H1 H2 H3 H4).
  fold credential.
  cbv [then_ set_oauth set_documentation].
  match goal with
  | |- context [refresh_documentation ?s ?w1] =>
      rewrite (refresh_documentation_unfold s w1 docs_path Hdocs);
      rewrite request_unfold;
      rewrite (authenticate_valid s w1 credential);
      [ rewrite (send_request_answered GET docs_path no_options s w1 credential
                   e2 r2 rest) | | ]
  end.
  - rewrite A2. cbn [set_documentation configured wire heap environ clock
                       _base_url _token_url token_type access_token no_options
                       timeout other token_request api_request _client_id
                       _client_secret].
    rewrite <- app_assoc. reflexivity.
  - cbn [heap _oauth]. apply nth_error_snoc.
  - reflexivity.
  - cbn [heap _oauth]. apply nth_error_snoc.
  - exact E.
Qed.

Lemma sample_environment_ok w :
  environ w = sample_environ (lit "app") -> environment_ok w.
Proof.
  intros E. unfold environment_ok. rewrite E. split.
  - intros var Hv. cbn in Hv.
    repeat (destruct Hv as [<- | Hv]; [reflexivity|]). destruct Hv.
  - reflexivity.
Qed.

Lemma init_success_witness :
  exists api w',
    __init__ (sample_world (lit "app")) = (Ok api, w') /\
    documentation api = PDict [] /\
    List.length (wire w') = 2%nat.
Proof.
  eexists. eexists.
  rewrite (init_success (sample_world (lit "app")) _ _ _ _ _ _ _ _ _ _ _ _
             (sample_environment_ok (sample_world (lit "app")) eq_refl)
             eq_refl eq_refl eq_refl eq_refl eq_refl eq_refl eq_refl
             eq_refl eq_refl).
  split; [reflexivity|]. split; reflexivity.
Defined.

(** X16.  When the environment passes the checks and the token endpoint
    refuses (a status from 400 to 599), answers with a body that does not
    decode, or answers with an object that lacks one of the four fields of a
    credential, [__init__] raises ([HTTPError] with the status, the decoding
    error, [KeyError]) after the credential request alone: the documentation
    is never requested and no credential object is made. *)
Theorem init_token_failure w elapsed r rest :
  environment_ok w ->
  network w = (elapsed, Some r) :: rest ->
  (forall e, answer_result r = Raise e ->
             __init__ w = (Raise e, after_token_request w elapsed rest [])) /\
  (forall d field,
      answer_result r = Ok (PDict d) ->
      In field credential_fields ->
      dict_lookup d (PStr (lit field)) = None ->
      __init__ w = (Raise KeyError, after_token_request w elapsed rest [])).
Proof.
  intros Env N. split.
  - intros e A. rewrite (init_unfold w Env). unfold then_ at 1.
    rewrite (request_credentials_rejected _ w elapsed r rest e N A).
    unfold after_token_request. rewrite app_nil_r. reflexivity.
  - intros d field A Hin L. rewrite (init_unfold w Env). unfold then_ at 1.
    rewrite (request_credentials_incomplete _ w elapsed r rest d field N A Hin L).
    unfold after_token_request. rewrite app_nil_r. reflexivity.
Qed.

Lemma init_token_failure_witness :
  fst (__init__ refusing_world) = Raise (HTTPError 401) /\
  List.length (wire (snd (__init__ refusing_world))) = 1%nat.
Proof.
  destruct (init_token_failure refusing_world 1%Q _ []
              (sample_environment_ok refusing_world eq_refl) eq_refl)
    as [Refused _].
  rewrite (Refused (HTTPError 401) eq_refl). split; reflexivity.
Defined.

(** ** The index can be written as JSON *)

Lemma serializable_dict d :
  serializable (PDict d)
  = forallb (fun kv => writable_key (fst kv) && serializable (snd kv)) d.
Proof. reflexivity. Qed.

Lemma json_value_serializable v : json_value v = true -> serializable v = true.
Proof.
  induction v as [| b | z | f | s | l IH | l IH | d IH |] using pyval_ind;
    intros H; try reflexivity; try discriminate H.
  - cbn [json_value serializable] in *. rewrite forallb_forall in *.
    rewrite Forall_forall in IH. intros x Hx. apply IH; auto.
  - cbn [json_value] in H. apply andb_true_iff in H. destruct H as [H _].
    rewrite serializable_dict. rewrite forallb_forall in *.
    rewrite Forall_forall in IH. intros [k v] Hin. specialize (H _ Hin).
    cbn [fst snd] in *. apply andb_true_iff in H. destruct H as [Hk Hv].
    destruct k; try discriminate Hk. cbn.
    apply (proj2 (IH _ Hin)). exact Hv.
Qed.

Lemma json_value_item d k v :
  json_value (PDict d) = true -> In (k, v) d ->
  (exists s, k = PStr s) /\ json_value v = true.
Proof.
  cbn [json_value]. intros H Hin. apply andb_true_iff in H. destruct H as [H _].
  rewrite forallb_forall in H. specialize (H _ Hin). cbn [fst snd] in H.
  apply andb_true_iff in H. destruct H as [Hk Hv].
  destruct k; try discriminate Hk. eauto.
Qed.

Lemma dict_lookup_in d k v : dict_lookup d k = Some v -> exists k', In (k', v) d.
Proof.
  induction d as [|[k' v'] d IH]; cbn [dict_lookup]; [discriminate|].
  destruct (key_eqb k' k).
  - intros H. injection H as ->. exists k'. left. reflexivity.
  - intros H. destruct (IH H) as [k'' Hin]. exists k''. right. exact Hin.
Qed.

Lemma json_value_lookup d k v :
  json_value (PDict d) = true -> dict_lookup d k = Some v -> json_value v = true.
Proof.
  intros H L. destruct (dict_lookup_in d k v L) as [k' Hin].
  apply (json_value_item d k' v H Hin).
Qed.

Lemma json_value_getitem container key v :
  json_value container = true -> py_getitem container key = Ok v ->
  json_value v = true.
Proof.
  destruct container; try discriminate. cbn [py_getitem]. intros H.
  destruct (dict_lookup items (PStr key)) as [x|] eqn:L; [|discriminate].
  intros E. injection E as <-. apply (json_value_lookup _ _ _ H L).
Qed.

Lemma json_value_get container key default v :
  json_value container = true -> json_value default = true ->
  py_get container key default = Ok v -> json_value v = true.
Proof.
  destruct container; try discriminate. cbn [py_get]. intros H D.
  destruct (dict_lookup items (PStr key)) as [x|] eqn:L; intros E; injection E as <-.
  - apply (json_value_lookup _ _ _ H L).
  - exact D.
Qed.

Lemma json_value_iter container l :
  json_value container = true -> py_iter container = Ok l ->
  Forall (fun x => json_value x = true) l.
Proof.
  destruct container; try discriminate; cbn [py_iter]; intros H E;
    injection E as <-.
  - (* str: its characters *)
    cbn [json_value] in H. apply Forall_forall. intros x Hx.
    apply in_map_iff in Hx. destruct Hx as (c & <- & Hc). cbn [json_value str_ok].
    induction s as [|a s IH]; [destruct Hc|].
    cbn [str_ok] in H. apply andb_true_iff in H. destruct H as [H Hs].
    apply andb_true_iff in H. destruct H as [H _].
    destruct Hc as [-> | Hc]; [|apply IH; assumption].
    rewrite H, andb_false_r. reflexivity.
  - cbn [json_value] in H. apply Forall_forall. rewrite forallb_forall in H. exact H.
  - apply Forall_forall. intros x Hx. unfold keys in Hx.
    apply in_map_iff in Hx. destruct Hx as ([k v] & <- & Hin).
    destruct (json_value_item _ _ _ H Hin) as [[s ->] _]. cbn [fst json_value].
    cbn [json_value] in H. apply andb_true_iff in H. destruct H as [H _].
    rewrite forallb_forall in H. specialize (H _ Hin). cbn [fst snd] in H.
    apply andb_true_iff in H. apply H.
Qed.

Lemma serializable_lookup d k v :
  serializable (PDict d) = true -> dict_lookup d k = Some v -> serializable v = true.
Proof.
  rewrite serializable_dict. intros H L. destruct (dict_lookup_in d k v L) as [k' Hin].
  rewrite forallb_forall in H. specialize (H _ Hin). cbn [snd] in H.
  apply andb_true_iff in H. apply H.
Qed.

Lemma serializable_set d k v :
  serializable (PDict d) = true -> writable_key k = true -> serializable v = true ->
  serializable (PDict (dict_set d k v)) = true.
Proof.
  rewrite !serializable_dict. intros H Hk Hv.
  induction d as [|[k' v'] d IH]; cbn [dict_set forallb fst snd] in *.
  - rewrite Hk, Hv. reflexivity.
  - apply andb_true_iff in H. destruct H as [H1 H2].
    apply andb_true_iff in H1. destruct H1 as [Hk' Hv'].
    destruct (key_eqb k' k); cbn [forallb fst snd].
    + rewrite Hk', Hv, H2. reflexivity.
    + rewrite Hk', Hv', (IH H2). reflexivity.
Qed.

Lemma serializable_getitem container key v :
  serializable container = true -> py_getitem container key = Ok v ->
  serializable v = true.
Proof.
  destruct container; try discriminate. cbn [py_getitem]. intros H.
  destruct (dict_lookup items (PStr key)) as [x|] eqn:L; [|discriminate].
  intros E. injection E as <-. apply (serializable_lookup _ _ _ H L).
Qed.

Lemma json_key_writable k :
  json_value k = true -> hashable k = true -> writable_key k = true.
Proof. destruct k as [|[]| |[| | |]| | | | |]; try discriminate; reflexivity. Qed.

Lemma for_each_invariant {A S} (P : S -> Prop) (body : S -> A -> result S) xs :
  forall s s',
    (forall s x s', In x xs -> P s -> body s x = Ok s' -> P s') ->
    P s -> for_each xs body s = Ok s' -> P s'.
Proof.
  induction xs as [|x xs IH]; intros s s' Hb Hs; cbn [for_each].
  - intros E. injection E as <-. exact Hs.
  - destruct (body s x) as [s1|e] eqn:B; cbn [bind]; [|discriminate].
    apply IH.
    + intros s2 y s3 Hy. apply Hb. right. exact Hy.
    + apply (Hb s x s1 (or_introl eq_refl) Hs B).
Qed.

Lemma declare_tag_serializable paths tag paths' :
  json_value tag = true -> serializable (PDict paths) = true ->
  declare_tag paths tag = Ok paths' -> serializable (PDict paths') = true.
Proof.
  intros Ht Hp. unfold declare_tag.
  destruct (py_getitem tag (lit "name")) as [name|]; cbn [bind]; [|discriminate].
  destruct (py_lower name) as [key|]; cbn [bind]; [|discriminate].
  destruct (py_getitem tag (lit "description")) as [description|] eqn:D;
    cbn [bind]; [|discriminate].
  intros E. injection E as <-. apply serializable_set; [exact Hp | reflexivity|].
  rewrite serializable_dict. cbn [forallb fst snd andb].
  change (writable_key (PStr (lit "description"))) with true.
  change (writable_key (PStr (lit "methods"))) with true.
  rewrite (json_value_serializable description (json_value_getitem _ _ _ Ht D)).
  reflexivity.
Qed.

Lemma operation_record_serializable path details record :
  serializable path = true -> json_value details = true ->
  operation_record path details = Ok record -> serializable record = true.
Proof.
  intros Hp Hd. unfold operation_record.
  destruct (py_get details (lit "summary") (PStr [])) as [v1|] eqn:E1; cbn [bind]; [|discriminate].
  destruct (py_get details (lit "description") (PStr [])) as [v2|] eqn:E2; cbn [bind]; [|discriminate].
  destruct (py_get details (lit "parameters") (PList [])) as [v3|] eqn:E3; cbn [bind]; [|discriminate].
  destruct (py_get details (lit "requestBody") (PDict [])) as [v4|] eqn:E4; cbn [bind]; [|discriminate].
  destruct (py_get details (lit "responses") (PDict [])) as [v5|] eqn:E5; cbn [bind]; [|discriminate].
  intros E. injection E as <-.
  apply (json_value_get _ _ (PStr []) _ Hd eq_refl) in E1, E2.
  apply (json_value_get _ _ (PList []) _ Hd eq_refl) in E3.
  apply (json_value_get _ _ (PDict []) _ Hd eq_refl) in E4, E5.
  apply json_value_serializable in E1, E2, E3, E4, E5.
  rewrite serializable_dict. cbn [forallb fst snd].
  rewrite Hp, E1, E2, E3, E4, E5. reflexivity.
Qed.

Lemma setitem_serializable container key value container' :
  serializable container = true -> writable_key key = true ->
  serializable value = true ->
  py_setitem container key value = Ok container' ->
  serializable container' = true.
Proof.
  destruct container; try discriminate. cbn [py_setitem]. intros H Hk Hv.
  destruct (hashable key); [|discriminate]. intros E. injection E as <-.
  apply serializable_set; assumption.
Qed.

Lemma add_operation_serializable path method details paths tag paths' :
  serializable path = true -> writable_key method = true ->
  json_value details = true -> serializable (PDict paths) = true ->
  add_operation path method details paths tag = Ok paths' ->
  serializable (PDict paths') = true.
Proof.
  intros Hpath Hm Hd Hp. unfold add_operation.
  destruct (operation_record path details) as [record|] eqn:R; cbn [bind]; [|discriminate].
  apply (operation_record_serializable _ _ _ Hpath Hd) in R.
  destruct (py_lower tag) as [key|]; cbn [bind]; [|discriminate].
  destruct (py_getitem (PDict paths) key) as [entry|] eqn:E1; cbn [bind]; [|discriminate].
  apply (serializable_getitem _ _ _ Hp) in E1.
  destruct (py_getitem entry (lit "methods")) as [methods|] eqn:E2; cbn [bind]; [|discriminate].
  apply (serializable_getitem _ _ _ E1) in E2.
  destruct (py_setdefault methods method (PDict [])) as [[operations methods']|] eqn:E3;
    cbn [bind]; [|discriminate].
  assert (Hops : serializable operations = true /\ serializable methods' = true).
  { destruct methods; try discriminate E3. cbn [py_setdefault] in E3.
    destruct (hashable method); [|discriminate E3].
    destruct (dict_lookup items method) as [found|] eqn:L; injection E3 as <- <-.
    - split; [apply (serializable_lookup _ _ _ E2 L) | exact E2].
    - split; [reflexivity | apply serializable_set; auto]. }
  destruct Hops as [Hops Hms].
  destruct (py_getitem details (lit "operationId")) as [operation_id|] eqn:E4;
    cbn [bind]; [|discriminate].
  apply (json_value_getitem _ _ _ Hd) in E4.
  destruct (py_setitem operations operation_id record) as [operations'|] eqn:E5;
    cbn [bind]; [|discriminate].
  assert (Hid : writable_key operation_id = true).
  { apply json_key_writable; [exact E4|].
    destruct operations; try discriminate E5. cbn [py_setitem] in E5.
    destruct (hashable operation_id); [reflexivity | discriminate E5]. }
  apply (setitem_serializable _ _ _ _ Hops Hid R) in E5.
  destruct (py_setitem methods' method operations') as [methods''|] eqn:E6;
    cbn [bind]; [|discriminate].
  apply (setitem_serializable _ _ _ _ Hms Hm E5) in E6.
  destruct (py_setitem entry (PStr (lit "methods")) methods'') as [entry'|] eqn:E7;
    cbn [bind]; [|discriminate].
  apply (setitem_serializable _ (PStr (lit "methods")) _ _ E1 eq_refl E6) in E7.
  intros E. injection E as <-. apply serializable_set; [exact Hp | reflexivity | exact E7].
Qed.

Lemma sorted_serializable documentation sorted :
  json_value documentation = true ->
  get_sorted_docs documentation = Ok sorted ->
  serializable sorted = true.
Proof.
  intros Hj G. unfold get_sorted_docs in G.
  destruct (py_get documentation (lit "openapi") (PStr [])) as [v1|] eqn:E1;
    cbn [bind] in G; [|discriminate G].
  destruct (py_get documentation (lit "info") (PDict [])) as [v2|] eqn:E2;
    cbn [bind] in G; [|discriminate G].
  destruct (py_get documentation (lit "security") (PList [])) as [v3|] eqn:E3;
    cbn [bind] in G; [|discriminate G].
  destruct (py_get documentation (lit "tags") (PList [])) as [v4|] eqn:E4;
    cbn [bind] in G; [|discriminate G].
  destruct (py_getitem documentation (lit "tags")) as [declared|] eqn:E5;
    cbn [bind] in G; [|discriminate G].
  destruct (py_iter declared) as [tag_objects|] eqn:E6;
    cbn [bind] in G; [|discriminate G].
  destruct (for_each tag_objects declare_tag []) as [paths0|] eqn:E7;
    cbn [bind] in G; [|discriminate G].
  destruct (py_get documentation (lit "components") (PDict [])) as [v5|] eqn:E8;
    cbn [bind] in G; [|discriminate G].
  destruct (py_getitem documentation (lit "paths")) as [documented|] eqn:E9;
    cbn [bind] in G; [|discriminate G].
  destruct (py_items documented) as [items|] eqn:E10;
    cbn [bind] in G; [|discriminate G].
  match type of G with
  | (paths <- ?loop ;; _) = _ =>
      destruct loop as [paths1|] eqn:E11; cbn [bind] in G; [|discriminate G]
  end.
  injection G as <-.
  apply (json_value_get _ _ (PStr []) _ Hj eq_refl) in E1.
  apply (json_value_get _ _ (PDict []) _ Hj eq_refl) in E2, E8.
  apply (json_value_get _ _ (PList []) _ Hj eq_refl) in E3, E4.
  apply json_value_serializable in E1, E2, E3, E4, E8.
  apply (json_value_getitem _ _ _ Hj) in E5, E9.
  pose proof (json_value_iter _ _ E5 E6) as Htags.
  assert (P0 : serializable (PDict paths0) = true).
  { apply (for_each_invariant (fun p => serializable (PDict p) = true)
             declare_tag tag_objects [] paths0); [|reflexivity | exact E7].
    intros s x s' Hx Hs B. rewrite Forall_forall in Htags.
    apply (declare_tag_serializable s x s' (Htags _ Hx) Hs B). }
  assert (P1 : serializable (PDict paths1) = true).
  { destruct documented; try discriminate E10. cbn [py_items] in E10.
    injection E10 as <-.
    eapply (for_each_invariant (fun p => serializable (PDict p) = true));
      [|exact P0 | exact E11].
    intros s [path methods] s' Hx Hs B.
    destruct (json_value_item _ _ _ E9 Hx) as [[ps ->] Hmethods].
    destruct (py_items methods) as [ms|] eqn:M; cbn [bind] in B; [|discriminate B].
    destruct methods; try discriminate M. cbn [py_items] in M. injection M as <-.
    eapply (for_each_invariant (fun p => serializable (PDict p) = true));
      [|exact Hs | exact B].
    intros s1 [method details] s2 Hy Hs1 B1.
    destruct (json_value_item _ _ _ Hmethods Hy) as [[m ->] Hdetails].
    destruct (py_getitem details (lit "tags")) as [tags|] eqn:T; cbn [bind] in B1;
      [|discriminate B1].
    destruct (py_iter tags) as [ts|]; cbn [bind] in B1; [|discriminate B1].
    eapply (for_each_invariant (fun p => serializable (PDict p) = true));
      [|exact Hs1 | exact B1].
    intros s3 t s4 _ Hs3 B2.
    apply (add_operation_serializable (PStr ps) (PStr m) details s3 t s4);
      auto. }
  rewrite serializable_dict. cbn [forallb fst snd].
  rewrite E1, E2, E3, E4, E8, P1. reflexivity.
Qed.

(** X17.  The index of a documentation that came as JSON can be written as
    JSON: it holds no value and no dict key that [json.dump] rejects, so
    [json.dump(sorted_docs, file, indent=4)] raises nothing. *)
Theorem sorted_docs_serializable documentation sorted :
  json_value documentation = true ->
  get_sorted_docs documentation = Ok sorted ->
  serializable sorted = true /\ snd (Json.dump sorted) = None.
Proof.
  intros Hj G. pose proof (sorted_serializable _ _ Hj G) as S.
  split; [exact S|]. unfold Json.dump. rewrite iterencode_outcome, S. reflexivity.
Qed.

Lemma sorted_docs_serializable_witness :
  exists sorted,
    get_sorted_docs fixture = Ok sorted /\ snd (Json.dump sorted) = None.
Proof.
  destruct (get_sorted_docs fixture) as [sorted|] eqn:G;
    [|vm_compute in G; discriminate G].
  exists sorted. split; [reflexivity|].
  apply (sorted_docs_serializable fixture sorted); [vm_compute; reflexivity | exact G].
Defined.

(** ** Which operation a lookup finds *)

Lemma set_entry_no_methods A k description :
  Forall (fun e => e_methods e = []) A ->
  Forall (fun e => e_methods e = []) (set_entry A k description []).
Proof.
  induction 1 as [|e A He HA IH]; cbn [set_entry].
  - constructor; [reflexivity | constructor].
  - destruct (str_eqb (e_key e) k); constructor; auto.
Qed.

Lemma declared_index_no_methods declared :
  Forall (fun e => e_methods e = []) (declared_index declared).
Proof.
  unfold declared_index.
  assert (G : forall A, Forall (fun e => e_methods e = []) A ->
                        Forall (fun e => e_methods e = [])
                               (fold_left (fun A d => declare A (fst d) (snd d))
                                          declared A)).
  { induction declared as [|d declared IH]; intros A HA; cbn [fold_left];
      [exact HA|].
    apply IH. apply set_entry_no_methods. exact HA. }
  apply G. constructor.
Qed.

Lemma find_entry_in A k e : find_entry A k = Some e -> In e A.
Proof.
  induction A as [|x A IH]; cbn [find_entry]; [discriminate|].
  destruct (str_eqb (e_key x) k).
  - intros H. injection H as ->. left. reflexivity.
  - intros H. right. apply IH. exact H.
Qed.

Lemma lookup_no_methods A k m id :
  Forall (fun e => e_methods e = []) A -> lookup_operation A k m id = None.
Proof.
  intros H. unfold lookup_operation.
  destruct (find_entry A k) as [e|] eqn:F; [|reflexivity].
  rewrite Forall_forall in H. rewrite (H e (find_entry_in _ _ _ F)). reflexivity.
Qed.

Lemma last_record_app a b k m id :
  last_record (a ++ b) k m id
  = match last_record b k m id with
    | Some r => Some r
    | None => last_record a k m id
    end.
Proof.
  induction a as [|s a IH]; cbn [app last_record].
  - destruct (last_record b k m id); reflexivity.
  - rewrite IH. destruct (last_record b k m id); reflexivity.
Qed.

Lemma last_record_none todo k m id :
  (forall s, In s todo -> files_under s k m id = false) ->
  last_record todo k m id = None.
Proof.
  induction todo as [|s todo IH]; intros H; cbn [last_record]; [reflexivity|].
  rewrite IH by (intros s' Hs; apply H; right; exact Hs).
  rewrite (H s (or_introl eq_refl)). reflexivity.
Qed.

Lemma steps_app a b : steps (a ++ b) = steps a ++ steps b.
Proof. unfold steps. apply flat_map_app. Qed.

Lemma operation_record_path path details record :
  operation_record path details = Ok record ->
  py_getitem record (lit "path") = Ok path.
Proof.
  unfold operation_record.
  repeat match goal with
  | |- context [py_get details ?k ?d] =>
      destruct (py_get details k d); cbn [bind]; [|discriminate]
  end.
  intros H. injection H as <-. reflexivity.
Qed.



(** ** The result as a whole, and the documents that cannot be indexed *)

(** X19.  Whenever [get_sorted_docs] returns, the documentation is a dict and
    the result is a dict of exactly six entries, in this order:
    [openapi_version], [info], [security] and [tags], each the entry of the
    documentation ([openapi], [info], [security], [tags]) or, when there is
    none, the empty string, dict or list; [paths], the index; and
    [components], copied likewise. *)
Theorem get_sorted_docs_shape documentation sorted :
  get_sorted_docs documentation = Ok sorted ->
  exists d paths,
    documentation = PDict d /\
    sorted = PDict [(PStr (lit "openapi_version"),
                     field_or documentation "openapi" (PStr []));
                    (PStr (lit "info"), field_or documentation "info" (PDict []));
                    (PStr (lit "security"),
                     field_or documentation "security" (PList []));
                    (PStr (lit "tags"), field_or documentation "tags" (PList []));
                    (PStr (lit "paths"), PDict paths);
                    (PStr (lit "components"),
                     field_or documentation "components" (PDict []))].
Proof.
  intros G. destruct documentation as [| | | | | | |d|]; try discriminate G.
  exists d. unfold get_sorted_docs in G. unfold field_or.
  cbn [py_get bind] in *.
  destruct (py_getitem (PDict d) (lit "tags")) as [declared|];
    cbn [bind] in G; [|discriminate G].
  destruct (py_iter declared) as [tag_objects|]; cbn [bind] in G; [|discriminate G].
  destruct (for_each tag_objects declare_tag []) as [paths0|];
    cbn [bind] in G; [|discriminate G].
  destruct (py_getitem (PDict d) (lit "paths")) as [documented|];
    cbn [bind] in G; [|discriminate G].
  destruct (py_items documented) as [items|]; cbn [bind] in G; [|discriminate G].
  match type of G with
  | (paths <- ?loop ;; _) = _ =>
      destruct loop as [paths1|]; cbn [bind] in G; [|discriminate G]
  end.
  injection G as <-. exists paths1. split; reflexivity.
Qed.

Lemma get_sorted_docs_shape_witness :
  exists d paths,
    fixture = PDict d /\
    get_sorted_docs fixture
    = Ok (PDict [(PStr (lit "openapi_version"), PStr (lit "3.0.1"));
                 (PStr (lit "info"), PDict []);
                 (PStr (lit "security"), PList []);
                 (PStr (lit "tags"), PList fixture_tags);
                 (PStr (lit "paths"), PDict paths);
                 (PStr (lit "components"), PDict [])]).
Proof.
  destruct (get_sorted_docs fixture) as [sorted|] eqn:G;
    [|vm_compute in G; discriminate G].
  destruct (get_sorted_docs_shape fixture sorted G) as (d & paths & E & ->).
  exists d, paths. split; [exact E | reflexivity].
Defined.

(** X20.  What cannot be indexed: a documentation that is no dict (the
    endpoint answered with a list, say) makes [get_sorted_docs] raise
    [AttributeError]; a dict without ["tags"], such as the empty dict, makes
    it raise [KeyError]; and so does a dict with well-formed tags and no
    ["paths"]. *)
Theorem get_sorted_docs_rejects documentation :
  ((forall d, documentation <> PDict d) ->
   get_sorted_docs documentation = Raise AttributeError) /\
  (forall d,
      documentation = PDict d ->
      dict_lookup d (PStr (lit "tags")) = None ->
      get_sorted_docs documentation = Raise KeyError) /\
  (forall d tag_objects declared,
      documentation = PDict d ->
      dict_lookup d (PStr (lit "tags")) = Some (PList tag_objects) ->
      Forall2 (fun t d => is_tag t (fst d) (snd d)) tag_objects declared ->
      dict_lookup d (PStr (lit "paths")) = None ->
      get_sorted_docs documentation = Raise KeyError).
Proof.
  split; [|split].
  - intros N. destruct documentation; try reflexivity.
    exfalso. apply (N items). reflexivity.
  - intros d -> L. unfold get_sorted_docs. cbn [py_get py_getitem bind].
    rewrite L. reflexivity.
  - intros d tag_objects declared -> L Ht Lp.
    unfold get_sorted_docs. cbn [py_get py_getitem bind].
    rewrite L. cbn [bind py_iter].
    change (@nil (pyval * pyval)) with (index_dict []) at 1.
    rewrite (for_each_declare _ _ Ht). cbn [bind]. rewrite Lp. reflexivity.
Qed.

Lemma get_sorted_docs_rejects_witness :
  get_sorted_docs (PList []) = Raise AttributeError /\
  get_sorted_docs (PDict []) = Raise KeyError /\
  get_sorted_docs (PDict [(PStr (lit "tags"), PList fixture_tags)]) = Raise KeyError.
Proof.
  split; [|split].
  - apply (proj1 (get_sorted_docs_rejects (PList []))). discriminate.
  - apply (proj1 (proj2 (get_sorted_docs_rejects (PDict []))) []); reflexivity.
  - apply (proj2 (proj2 (get_sorted_docs_rejects
                           (PDict [(PStr (lit "tags"), PList fixture_tags)])))
             [(PStr (lit "tags"), PList fixture_tags)] fixture_tags
             fixture_declared); try reflexivity.
    sample_shape.
Defined.

(** ** The script *)

(** X21.  When the client is built, its documentation came as JSON and can be
    indexed, the index has the path of [getOrganizations], and the request
    for that path succeeds, the script ends without raising, having sent what
    construction and that one request sent, and the output file, opened once
    for writing, holds the whole index as [json.dump] with [indent=4] writes
    it, whatever it held before. *)
Theorem main_writes_index w fs api w1 sorted p body api' w2 :
  __init__ w = (Ok api, w1) ->
  json_value (documentation api) = true ->
  get_sorted_docs (documentation api) = Ok sorted ->
  organizations_path sorted = Ok (PStr p) ->
  request GET p no_options api w1 = (Ok body, api', w2) ->
  main w fs
  = (Ok tt, w2,
     {| ConfigHandler.file := Some (fst (Json.dump sorted));
        ConfigHandler.opens := ConfigHandler.opens fs ++ [ConfigHandler.ModeW] |}).
Proof.
  intros I Hj G P R. unfold main. rewrite I, G. cbn [bind]. rewrite P.
  cbn [bind request_path]. fold no_options. rewrite R.
  pose proof (sorted_serializable _ _ Hj G) as S.
  pose proof (iterencode_outcome sorted O) as Out. fold (Json.dump sorted) in Out.
  rewrite S in Out. destruct (Json.dump sorted) as [text stopped].
  cbn [fst snd] in *. subst stopped. reflexivity.
Qed.

Lemma main_writes_index_witness :
  exists w2 text,
    main script_world {| ConfigHandler.file := Some (lit "old");
                         ConfigHandler.opens := [] |}
    = (Ok tt, w2,
       {| ConfigHandler.file := Some text;
          ConfigHandler.opens := [ConfigHandler.ModeW] |}) /\
    List.length (wire w2) = 3%nat.
Proof.
  eexists. eexists. split.
  - eapply (main_writes_index
              script_world
              {| ConfigHandler.file := Some (lit "old"); ConfigHandler.opens := [] |}
              _ _ _ (lit "/v2/organizations")).
    + reflexivity.
    + vm_compute. reflexivity.
    + reflexivity.
    + vm_compute. reflexivity.
    + reflexivity.
  - vm_compute. reflexivity.
Defined.

End NinjaAPIProperties.
